(** * Local persistence layer and cloud mirror of the portfolio application

    A shallow embedding of [Database] (the IndexedDB wrapper) and of
    [FirebaseDatabase] (the cloud mirror wrapped around it), followed by the
    properties of ordering, cascading delete, export/import and mirroring.
    Part I also embeds the start-up poll of the mirror, the hashing and
    keyboard helpers of [Utils] and the lightbox of [App]; Part III holds
    further properties of all of these.

    Modelling conventions.
    - JavaScript strings are sequences of code units below 256 ([string]).
    - Numbers that the code only uses as integers ([order], ids, [version])
      are integers ([Z], [nat]).
    - An awaited promise is a computation in the monad [M]: it either
      resolves with a value or rejects with an exception, and threads the
      world (database contents, the environment's request faults, the clock).
    - IndexedDB is modelled at request granularity: every request placed on
      an object store either succeeds or fails as the environment decides
      ([faults]); a failed request aborts its transaction.  A transaction
      object stays usable for the requests its method places on it. *)

From Stdlib Require Import ZArith NArith Ascii String List Lia Permutation Sorted.
From Stdlib.Strings Require Import Byte.
From stdpp Require Import base option list gmap strings pretty.

Local Open Scope string_scope.
Local Open Scope list_scope.
Local Open Scope Z_scope.

(* ===================================================================== *)
(** * Part I: the embedding                                               *)
(* ===================================================================== *)

(** ** JavaScript values and truthiness *)

(** The values a JSON document can hold in a scalar field. *)
Inductive jsval :=
| JUndefined
| JNull
| JBool (b : bool)
| JNum (z : Z)
| JStr (s : string).

(** [!!v] *)
Definition truthy (v : jsval) : bool :=
  match v with
  | JUndefined | JNull => false
  | JBool b => b
  | JNum z => negb (z =? 0)
  | JStr s => negb (String.eqb s "")
  end.

(** [a === b] *)
Definition strict_eq (a b : jsval) : bool :=
  match a, b with
  | JUndefined, JUndefined => true
  | JNull, JNull => true
  | JBool x, JBool y => Bool.eqb x y
  | JNum x, JNum y => x =? y
  | JStr x, JStr y => String.eqb x y
  | _, _ => false
  end.

(** [s] used as a condition: the empty string is falsy. *)
Definition str_truthy (s : string) : bool := negb (String.eqb s "").

(** [n || 0] on a number. *)
Definition or0 (n : Z) : Z := if n =? 0 then 0 else n.

(** [Math.max(...l)] on a non-empty list (the callers guard [length > 0]). *)
Definition Math_max (l : list Z) : Z :=
  match l with
  | [] => 0
  | x :: r => fold_left Z.max r x
  end.

(** [Array.prototype.sort(cmp)]: a stable sort; [cmp a b] is the number the
    comparator returns. *)
Fixpoint sort_insert {A} (cmp : A -> A -> Z) (x : A) (l : list A) : list A :=
  match l with
  | [] => [x]
  | y :: r => if cmp x y <=? 0 then x :: y :: r else y :: sort_insert cmp x r
  end.

Definition js_sort {A} (cmp : A -> A -> Z) (l : list A) : list A :=
  foldr (sort_insert cmp) [] l.

(** ** Blobs and the base64 codec *)

Record Blob := mkBlob { blob_bytes : list byte; blob_type : string }.

(** [blob.size] *)
Definition blob_size (b : Blob) : nat := length (blob_bytes b).

Definition b64_alphabet : list ascii :=
  list_ascii_of_string
    "ABCDEFGHIJKLMNOPQRSTUVWXYZabcdefghijklmnopqrstuvwxyz0123456789+/".

Definition b64_char (n : N) : ascii := nth (N.to_nat n) b64_alphabet "="%char.

Fixpoint index_of (c : ascii) (l : list ascii) : option N :=
  match l with
  | [] => None
  | d :: r => if Ascii.eqb c d then Some 0%N else option_map N.succ (index_of c r)
  end.

Definition b64_index (c : ascii) : option N := index_of c b64_alphabet.

(** The 6-bit groups of a byte sequence (RFC 4648). *)
Fixpoint b64_sextets (bs : list byte) : list N :=
  match bs with
  | [] => []
  | [a] =>
      let x := Byte.to_N a in
      [x / 4; (x mod 4) * 16]%N
  | [a; b] =>
      let x := Byte.to_N a in
      let y := Byte.to_N b in
      [x / 4; (x mod 4) * 16 + y / 16; (y mod 16) * 4]%N
  | a :: b :: c :: rest =>
      let x := Byte.to_N a in
      let y := Byte.to_N b in
      let z := Byte.to_N c in
      [x / 4; (x mod 4) * 16 + y / 16; (y mod 16) * 4 + z / 64; z mod 64]%N
        ++ b64_sextets rest
  end.

Fixpoint b64_padding (bs : list byte) : list ascii :=
  match bs with
  | [] => []
  | [_] => ["="; "="]%char
  | [_; _] => ["="]%char
  | _ :: _ :: _ :: rest => b64_padding rest
  end.

(** Base64 text of a byte sequence, as [FileReader.readAsDataURL] emits it. *)
Definition b64_encode (bs : list byte) : list ascii :=
  map b64_char (b64_sextets bs) ++ b64_padding bs.

(** [reader.readAsDataURL(blob)]: [data:<type>;base64,<text>]. *)
Definition readAsDataURL (b : Blob) : string :=
  ("data:" ++ blob_type b ++ ";base64,"
     ++ string_of_list_ascii (b64_encode (blob_bytes b)))%string.

(** [s.split(',')] *)
Fixpoint split_comma (cur : list ascii) (s : list ascii) : list string :=
  match s with
  | [] => [string_of_list_ascii (rev cur)]
  | c :: r =>
      if Ascii.eqb c ","%char
      then string_of_list_ascii (rev cur) :: split_comma [] r
      else split_comma (c :: cur) r
  end.

(** [blobToBase64]: [reader.result.split(',')[1]].  A data URL always holds a
    comma, so index 1 exists; the default stands for [undefined]. *)
Definition blobToBase64 (b : Blob) : string :=
  nth 1 (split_comma [] (list_ascii_of_string (readAsDataURL b))) "".

Definition is_ascii_whitespace (c : ascii) : bool :=
  match N_of_ascii c with
  | 9%N | 10%N | 12%N | 13%N | 32%N => true
  | _ => false
  end.

(** Removes at most two trailing [=]. *)
Definition strip_padding (l : list ascii) : list ascii :=
  match rev l with
  | c1 :: r1 =>
      if Ascii.eqb c1 "="
      then match r1 with
           | c2 :: r2 => if Ascii.eqb c2 "=" then rev r2 else rev r1
           | [] => rev r1
           end
      else l
  | [] => l
  end.

Fixpoint b64_indices (l : list ascii) : option (list N) :=
  match l with
  | [] => Some []
  | c :: r =>
      match b64_index c, b64_indices r with
      | Some n, Some ns => Some (n :: ns)
      | _, _ => None
      end
  end.

(** Bytes of a sequence of 6-bit groups; the bits left over in a final group
    of two or three are dropped. *)
Fixpoint b64_bytes (l : list N) : list N :=
  match l with
  | s1 :: s2 :: s3 :: s4 :: rest =>
      [s1 * 4 + s2 / 16; (s2 mod 16) * 16 + s3 / 4; (s3 mod 4) * 64 + s4]%N
        ++ b64_bytes rest
  | [s1; s2; s3] => [s1 * 4 + s2 / 16; (s2 mod 16) * 16 + s3 / 4]%N
  | [s1; s2] => [s1 * 4 + s2 / 16]%N
  | _ => []
  end.

(** [atob(text)]: the forgiving base64 decode of the HTML standard; the
    result is a binary string, [None] stands for [InvalidCharacterError]. *)
Definition atob (text : string) : option string :=
  let l := filter (fun c => is_ascii_whitespace c = false) (list_ascii_of_string text) in
  let l := if (length l mod 4 =? 0)%nat then strip_padding l else l in
  if (length l mod 4 =? 1)%nat then None
  else
    match b64_indices l with
    | None => None
    | Some ns => Some (string_of_list_ascii (map ascii_of_N (b64_bytes ns)))
    end.

(** The body of [base64ToBlob] after [atob]: char codes into a [Uint8Array],
    wrapped in a [Blob] of the given type. *)
Definition blob_of_binary (byteCharacters : string) (mimeType : string) : Blob :=
  mkBlob (map byte_of_ascii (list_ascii_of_string byteCharacters)) mimeType.

Definition base64ToBlob (base64 mimeType : string) : option Blob :=
  match atob base64 with
  | None => None
  | Some byteCharacters => Some (blob_of_binary byteCharacters mimeType)
  end.

(** A MIME type without a comma (a comma would cut the data URL early). *)
Definition comma_free (s : string) : bool :=
  forallb (fun c => negb (Ascii.eqb c ",")) (list_ascii_of_string s).

(** ** Regular expressions

    The fragment of JavaScript regular expressions that [parseVideoUrl]
    uses, with a backtracking matcher: alternatives are tried left to right,
    quantifiers are greedy, and [match] returns the leftmost match. *)

Inductive classitem :=
| IChar (c : ascii)          (* a literal character *)
| IRange (lo hi : ascii)     (* lo-hi *)
| ISpace.                    (* \s *)

Inductive charclass :=
| CAny                                   (* .      *)
| CSet (negated : bool) (items : list classitem).   (* [...] and [^...] *)

Inductive regex :=
| RLit (s : string)              (* literal text *)
| RClass (c : charclass)         (* one character of a class *)
| RSeq (r1 r2 : regex)           (* r1 r2 *)
| RAlt (r1 r2 : regex)           (* r1|r2 *)
| ROpt (r : regex)               (* r? *)
| RStar (c : charclass)          (* c* *)
| RPlus (c : charclass)          (* c+ *)
| RRep (n : nat) (c : charclass) (* c{n} *)
| RGroup (r : regex).            (* (r), the capturing group *)

(** White space ([\s]) among the code units below 256. *)
Definition is_js_space (c : ascii) : bool :=
  match N_of_ascii c with
  | 9%N | 10%N | 11%N | 12%N | 13%N | 32%N | 160%N => true
  | _ => false
  end.

(** Line terminators, which [.] does not match. *)
Definition is_line_terminator (c : ascii) : bool :=
  match N_of_ascii c with
  | 10%N | 13%N => true
  | _ => false
  end.

Definition item_matches (i : classitem) (c : ascii) : bool :=
  match i with
  | IChar d => Ascii.eqb c d
  | IRange lo hi => (N_of_ascii lo <=? N_of_ascii c)%N && (N_of_ascii c <=? N_of_ascii hi)%N
  | ISpace => is_js_space c
  end.

Definition class_matches (cl : charclass) (c : ascii) : bool :=
  match cl with
  | CAny => negb (is_line_terminator c)
  | CSet negated items => xorb negated (existsb (fun i => item_matches i c) items)
  end.

Fixpoint strip_prefix (p s : list ascii) : option (list ascii) :=
  match p with
  | [] => Some s
  | c :: p' =>
      match s with
      | d :: s' => if Ascii.eqb c d then strip_prefix p' s' else None
      | [] => None
      end
  end.

Section Matcher.
Context {R : Type}.

(** Greedy [c*]: the longest run first, then shorter ones. *)
Fixpoint star_k (cl : charclass) (s : list ascii) (k : list ascii -> option R)
  : option R :=
  match s with
  | x :: s' =>
      if class_matches cl x
      then match star_k cl s' k with
           | Some r => Some r
           | None => k s
           end
      else k s
  | [] => k s
  end.

Fixpoint rep_k (n : nat) (cl : charclass) (s : list ascii)
         (k : list ascii -> option R) : option R :=
  match n with
  | O => k s
  | S n' =>
      match s with
      | x :: s' => if class_matches cl x then rep_k n' cl s' k else None
      | [] => None
      end
  end.

(** [match_k r s cap k]: match [r] at the head of [s], then continue with
    [k] on the rest; [cap] is the text captured so far. *)
Fixpoint match_k (r : regex) (s : list ascii) (cap : option (list ascii))
         (k : list ascii -> option (list ascii) -> option R) : option R :=
  match r with
  | RLit l =>
      match strip_prefix (list_ascii_of_string l) s with
      | Some s' => k s' cap
      | None => None
      end
  | RClass cl =>
      match s with
      | x :: s' => if class_matches cl x then k s' cap else None
      | [] => None
      end
  | RSeq r1 r2 => match_k r1 s cap (fun s' cap' => match_k r2 s' cap' k)
  | RAlt r1 r2 =>
      match match_k r1 s cap k with
      | Some x => Some x
      | None => match_k r2 s cap k
      end
  | ROpt r1 =>
      match match_k r1 s cap k with
      | Some x => Some x
      | None => k s cap
      end
  | RStar cl => star_k cl s (fun s' => k s' cap)
  | RPlus cl =>
      match s with
      | x :: s' =>
          if class_matches cl x then star_k cl s' (fun s'' => k s'' cap) else None
      | [] => None
      end
  | RRep n cl => rep_k n cl s (fun s' => k s' cap)
  | RGroup r1 =>
      match_k r1 s cap (fun s' _ => k s' (Some (take (length s - length s') s)))
  end.
End Matcher.

(** The leftmost match of [r] in [s]: the captured text. *)
Fixpoint search (r : regex) (s : list ascii) : option (option (list ascii)) :=
  match match_k r s None (fun _ cap => Some cap) with
  | Some cap => Some cap
  | None =>
      match s with
      | [] => None
      | _ :: s' => search r s'
      end
  end.

(** [url.match(r)] as the code reads it: [None] for [null], otherwise
    element 1 of the match (the group takes part in every match of the two
    expressions below). *)
Definition js_match (r : regex) (url : string) : option string :=
  match search r (list_ascii_of_string url) with
  | Some (Some cap) => Some (string_of_list_ascii cap)
  | Some None => Some ""
  | None => None
  end.

(** ** Records of the local store *)

Definition timestamp := nat.

Inductive Provider := youtube | vimeo.

Record Asset := mkAsset {
  asset_key : string;
  asset_blob : Blob;
  asset_mime : string;
  asset_updatedAt : timestamp }.

Record Album := mkAlbum {
  album_name : string;
  album_order : Z;
  album_createdAt : timestamp;
  album_updatedAt : option timestamp }.

Record Photo := mkPhoto {
  photo_albumId : nat;
  photo_blob : Blob;
  photo_mime : string;
  photo_size : nat;
  photo_order : Z;
  photo_createdAt : timestamp }.

Record Essay := mkEssay {
  essay_title : string;
  essay_pdfBlob : Blob;
  essay_mime : string;
  essay_size : nat;
  essay_order : Z;
  essay_createdAt : timestamp;
  essay_updatedAt : option timestamp }.

Record Video := mkVideo {
  video_provider : Provider;
  video_url : string;
  video_embedId : string;
  video_title : option string;
  video_order : Z;
  video_createdAt : timestamp }.

(** ** Object stores

    An object store with [autoIncrement] keys: the record with key [k] sits
    in slot [k - 1], a deleted or cleared slot is empty, and the key
    generator stands at the number of slots plus one (it is never wound
    back, not even by [clear]). *)

Section ObjectStore.
Context {V : Type}.

Definition os_get (id : nat) (st : list (option V)) : option V :=
  match id with
  | O => None
  | S i => mjoin (st !! i)
  end.

(** [store.add(v)]: the new key and the store. *)
Definition os_add (v : V) (st : list (option V)) : nat * list (option V) :=
  (S (length st), st ++ [Some v]).

(** [store.put(v)] with the in-line key [id]. *)
Definition os_put (id : nat) (v : V) (st : list (option V)) : list (option V) :=
  match id with
  | O => st
  | S i =>
      if decide (i < length st)%nat then <[i := Some v]> st
      else st ++ replicate (i - length st) None ++ [Some v]
  end.

Definition os_delete (id : nat) (st : list (option V)) : list (option V) :=
  match id with
  | O => st
  | S i => <[i := None]> st
  end.

Definition os_clear (st : list (option V)) : list (option V) :=
  replicate (length st) None.

Fixpoint os_scan (k : nat) (st : list (option V)) : list (nat * V) :=
  match st with
  | [] => []
  | Some v :: r => (k, v) :: os_scan (S k) r
  | None :: r => os_scan (S k) r
  end.

(** [store.getAll()]: the records with their keys, in ascending key order. *)
Definition os_getAll (st : list (option V)) : list (nat * V) := os_scan 1 st.
End ObjectStore.

Record Db := mkDb {
  assetsStore : gmap string Asset;
  albumsStore : list (option Album);
  photosStore : list (option Photo);
  essaysStore : list (option Essay);
  videosStore : list (option Video) }.

Definition with_assets (f : gmap string Asset -> gmap string Asset) (d : Db) : Db :=
  mkDb (f (assetsStore d)) (albumsStore d) (photosStore d) (essaysStore d) (videosStore d).
Definition with_albums (f : list (option Album) -> list (option Album)) (d : Db) : Db :=
  mkDb (assetsStore d) (f (albumsStore d)) (photosStore d) (essaysStore d) (videosStore d).
Definition with_photos (f : list (option Photo) -> list (option Photo)) (d : Db) : Db :=
  mkDb (assetsStore d) (albumsStore d) (f (photosStore d)) (essaysStore d) (videosStore d).
Definition with_essays (f : list (option Essay) -> list (option Essay)) (d : Db) : Db :=
  mkDb (assetsStore d) (albumsStore d) (photosStore d) (f (essaysStore d)) (videosStore d).
Definition with_videos (f : list (option Video) -> list (option Video)) (d : Db) : Db :=
  mkDb (assetsStore d) (albumsStore d) (photosStore d) (essaysStore d) (f (videosStore d)).

(** The database right after [init] on a browser that never held it. *)
Definition empty_db : Db := mkDb ∅ [] [] [] [].

(** ** Promises *)

Inductive exn :=
| Error (message : string)        (* new Error(message) *)
| TypeError (message : string)    (* a property read on [null] *)
| DOMException (name : string).   (* request.error, a failing [atob] *)

Inductive result (A : Type) :=
| Resolved (a : A)
| Rejected (e : exn).
Arguments Resolved {A} a.
Arguments Rejected {A} e.

(** The world an operation runs in: the database, the outcome the
    environment has in store for the coming requests ([true]: the request
    fails; past the end of the list every request succeeds), and the clock. *)
Record World := mkWorld {
  db : Db;
  faults : list bool;
  clock : timestamp }.

(** A computation over a state [S]: it resolves or rejects, and leaves a
    state behind. *)
Definition St (S A : Type) : Type := S -> result A * S.

(** The operations of [Database] run on a [World]. *)
Definition M (A : Type) : Type := St World A.

Definition ret {S A} (a : A) : St S A := fun w => (Resolved a, w).

Definition throw {S A} (e : exn) : St S A := fun w => (Rejected e, w).

Definition bind {S A B} (m : St S A) (k : A -> St S B) : St S B :=
  fun w =>
    match m w with
    | (Resolved a, w') => k a w'
    | (Rejected e, w') => (Rejected e, w')
    end.

Notation "x <- m ;; k" := (bind m (fun x => k))
  (at level 100, m at next level, right associativity).
Notation "m ;;; k" := (bind m (fun _ => k))
  (at level 100, right associativity).

(** [try { m } catch (e) { h e }] *)
Definition try_catch {S A} (m : St S A) (h : exn -> St S A) : St S A :=
  fun w =>
    match m w with
    | (Resolved a, w') => (Resolved a, w')
    | (Rejected e, w') => h e w'
    end.

(** [for (const x of l) { await f(x) }] *)
Fixpoint for_each {S A} (l : list A) (f : A -> St S unit) : St S unit :=
  match l with
  | [] => ret tt
  | x :: r => f x ;;; for_each r f
  end.

(** The awaited results of [l.map(f)], in order. *)
Fixpoint map_m {S A B} (f : A -> St S B) (l : list A) : St S (list B) :=
  match l with
  | [] => ret []
  | x :: r => y <- f x ;; ys <- map_m f r ;; ret (y :: ys)
  end.

(** [new Date().toISOString()] *)
Definition now : M timestamp :=
  fun w => (Resolved (clock w), mkWorld (db w) (faults w) (S (clock w))).

(** One request on an object store: [f] is what it does when it succeeds. *)
Definition request {A} (f : Db -> A * Db) : M A :=
  fun w =>
    match faults w with
    | true :: fs => (Rejected (DOMException "UnknownError"), mkWorld (db w) fs (clock w))
    | false :: fs => let (a, d) := f (db w) in (Resolved a, mkWorld d fs (clock w))
    | [] => let (a, d) := f (db w) in (Resolved a, mkWorld d [] (clock w))
    end.

(** Several requests in one transaction: a failing request aborts the
    transaction, which undoes what the earlier ones did. *)
Definition transaction {A} (m : M A) : M A :=
  fun w =>
    match m w with
    | (Resolved a, w') => (Resolved a, w')
    | (Rejected e, w') => (Rejected e, mkWorld (db w) (faults w') (clock w'))
    end.

(** ** The export document *)

Record AssetDoc := mkAssetDoc {
  ad_key : string;
  ad_data : string;
  ad_mime : string;
  ad_updatedAt : timestamp }.

(** A photo record with [blob: null] and the base64 text in [data]. *)
Record PhotoDoc := mkPhotoDoc {
  pd_id : nat;
  pd_albumId : nat;
  pd_mime : string;
  pd_size : nat;
  pd_order : Z;
  pd_createdAt : timestamp;
  pd_data : string }.

(** An essay record with [pdfBlob: null] and the base64 text in [data]. *)
Record EssayDoc := mkEssayDoc {
  ed_id : nat;
  ed_title : string;
  ed_mime : string;
  ed_size : nat;
  ed_order : Z;
  ed_createdAt : timestamp;
  ed_updatedAt : option timestamp;
  ed_data : string }.

(** [assets] is an object: its entries in insertion order. *)
Record Snapshot := mkSnapshot {
  snap_version : jsval;
  snap_timestamp : timestamp;
  snap_assets : list (string * AssetDoc);
  snap_albums : list (nat * Album);
  snap_photos : list PhotoDoc;
  snap_essays : list EssayDoc;
  snap_videos : list (nat * Video) }.

(** ** [class Database] *)

Module Database.

(** [this.version] *)
Definition version : Z := 1.

(** [request.result.sort((a, b) => (a.order || 0) - (b.order || 0))] *)
Definition sort_by_order {V} (order : V -> Z) (l : list (nat * V)) : list (nat * V) :=
  js_sort (fun a b => or0 (order (snd a)) - or0 (order (snd b))) l.

(** [l.length > 0 ? Math.max(...l.map(a => a.order || 0)) : 0] *)
Definition max_order {V} (order : V -> Z) (l : list (nat * V)) : Z :=
  if (0 <? length l)%nat then Math_max (map (fun a => or0 (order (snd a))) l) else 0.

Definition putAsset (key : string) (file : Blob) : M string :=
  updatedAt <- now ;;
  let assetData := mkAsset key file (blob_type file) updatedAt in
  request (fun d => (key, with_assets <[key := assetData]> d)).

Definition getAsset (key : string) : M (option Asset) :=
  request (fun d => (assetsStore d !! key, d)).

Definition getAllAlbums : M (list (nat * Album)) :=
  all <- request (fun d => (os_getAll (albumsStore d), d)) ;;
  ret (sort_by_order album_order all).

Definition createAlbum (name : string) : M nat :=
  albums <- getAllAlbums ;;
  let maxOrder := max_order album_order albums in
  createdAt <- now ;;
  let albumData := mkAlbum name (maxOrder + 1) createdAt None in
  request (fun d => let (id, st) := os_add albumData (albumsStore d) in
                    (id, with_albums (fun _ => st) d)).

Definition renameAlbum (id : nat) (name : string) : M nat :=
  transaction (
    found <- request (fun d => (os_get id (albumsStore d), d)) ;;
    match found with
    | None => throw (Error "Album not found")
    | Some album =>
        updatedAt <- now ;;
        let album := mkAlbum name (album_order album) (album_createdAt album)
                             (Some updatedAt) in
        request (fun d => (id, with_albums (os_put id album) d))
    end).

Definition getPhotosByAlbum (albumId : nat) : M (list (nat * Photo)) :=
  found <- request (fun d =>
    (filter (fun p => photo_albumId (snd p) = albumId) (os_getAll (photosStore d)), d)) ;;
  ret (sort_by_order photo_order found).

Definition removePhoto (photoId : nat) : M unit :=
  request (fun d => (tt, with_photos (os_delete photoId) d)).

Definition deleteAlbum (id : nat) : M unit :=
  photos <- getPhotosByAlbum id ;;
  for_each photos (fun photo => removePhoto (fst photo)) ;;;
  request (fun d => (tt, with_albums (os_delete id) d)).

(** The [get] requests of a reorder are all placed at once, before any of
    their [onsuccess] handlers runs; each handler then places its [put]. *)
Definition reorder_in {V} (get : nat -> Db -> option V)
    (accept : V -> bool) (set_order : Z -> V -> V)
    (put : nat -> V -> Db -> Db) (idsInOrder : list nat) : M (list unit) :=
  transaction (
    found <- map_m (fun id => request (fun d => (get id d, d))) idsInOrder ;;
    map_m (fun '(index, (id, r)) =>
             match r with
             | Some record =>
                 if accept record
                 then request (fun d => (tt, put id (set_order (Z.of_nat index) record) d))
                 else ret tt
             | None => ret tt
             end)
          (imap pair (zip idsInOrder found))).

(** [album.order = index] *)
Definition set_album_order (index : Z) (a : Album) : Album :=
  mkAlbum (album_name a) index (album_createdAt a) (album_updatedAt a).

Definition reorderAlbums (idsInOrder : list nat) : M (list unit) :=
  reorder_in (fun id d => os_get id (albumsStore d))
    (fun _ => true)
    set_album_order
    (fun id a => with_albums (os_put id a))
    idsInOrder.

Definition addPhoto (albumId : nat) (file : Blob) : M nat :=
  photos <- getPhotosByAlbum albumId ;;
  let maxOrder := max_order photo_order photos in
  createdAt <- now ;;
  let photoData :=
    mkPhoto albumId file (blob_type file) (blob_size file) (maxOrder + 1) createdAt in
  request (fun d => let (id, st) := os_add photoData (photosStore d) in
                    (id, with_photos (fun _ => st) d)).

(** [photo.order = index] *)
Definition set_photo_order (index : Z) (p : Photo) : Photo :=
  mkPhoto (photo_albumId p) (photo_blob p) (photo_mime p) (photo_size p) index
          (photo_createdAt p).

Definition reorderPhotos (albumId : nat) (idsInOrder : list nat) : M (list unit) :=
  reorder_in (fun id d => os_get id (photosStore d))
    (fun p => bool_decide (photo_albumId p = albumId))
    set_photo_order
    (fun id p => with_photos (os_put id p))
    idsInOrder.

Definition getAllEssays : M (list (nat * Essay)) :=
  all <- request (fun d => (os_getAll (essaysStore d), d)) ;;
  ret (sort_by_order essay_order all).

Definition addEssay (file : Blob) (title : string) : M nat :=
  essays <- getAllEssays ;;
  let maxOrder := max_order essay_order essays in
  createdAt <- now ;;
  let essayData :=
    mkEssay title file "application/pdf" (blob_size file) (maxOrder + 1) createdAt None in
  request (fun d => let (id, st) := os_add essayData (essaysStore d) in
                    (id, with_essays (fun _ => st) d)).

Definition renameEssay (id : nat) (title : string) : M nat :=
  transaction (
    found <- request (fun d => (os_get id (essaysStore d), d)) ;;
    match found with
    | None => throw (Error "Essay not found")
    | Some essay =>
        updatedAt <- now ;;
        let essay := mkEssay title (essay_pdfBlob essay) (essay_mime essay)
                             (essay_size essay) (essay_order essay)
                             (essay_createdAt essay) (Some updatedAt) in
        request (fun d => (id, with_essays (os_put id essay) d))
    end).

Definition deleteEssay (id : nat) : M unit :=
  request (fun d => (tt, with_essays (os_delete id) d)).

(** [essay.order = index] *)
Definition set_essay_order (index : Z) (e : Essay) : Essay :=
  mkEssay (essay_title e) (essay_pdfBlob e) (essay_mime e) (essay_size e) index
          (essay_createdAt e) (essay_updatedAt e).

Definition reorderEssays (idsInOrder : list nat) : M (list unit) :=
  reorder_in (fun id d => os_get id (essaysStore d))
    (fun _ => true)
    set_essay_order
    (fun id e => with_essays (os_put id e))
    idsInOrder.

(** [/(?:youtube\.com\/(?:[^\/]+\/.+\/|(?:v|e(?:mbed)?)\/|.*[?&]v=)|youtu\.be\/)([^\x22&?\/\s]{11})/]
    (the double quote of the last class is written [\x22] here). *)
Definition youtubeRegex : regex :=
  RSeq
    (RAlt
       (RSeq (RLit "youtube.com/")
          (RAlt
             (RSeq (RPlus (CSet true [IChar "/"]))
                (RSeq (RLit "/") (RSeq (RPlus CAny) (RLit "/"))))
             (RAlt
                (RSeq (RAlt (RLit "v") (RSeq (RLit "e") (ROpt (RLit "mbed")))) (RLit "/"))
                (RSeq (RStar CAny)
                   (RSeq (RClass (CSet false [IChar "?"; IChar "&"])) (RLit "v="))))))
       (RLit "youtu.be/"))
    (RGroup
       (RRep 11 (CSet true [IChar "034"; IChar "&"; IChar "?"; IChar "/"; ISpace]))).

(** [/(?:vimeo\.com\/)([0-9]+)/] *)
Definition vimeoRegex : regex :=
  RSeq (RLit "vimeo.com/") (RGroup (RPlus (CSet false [IRange "0" "9"]))).

Record VideoInfo := mkVideoInfo {
  vi_provider : Provider;
  vi_embedId : string;
  vi_title : option string }.

Definition parseVideoUrl (url : string) : option VideoInfo :=
  match js_match youtubeRegex url with
  | Some embedId => Some (mkVideoInfo youtube embedId None)
  | None =>
      match js_match vimeoRegex url with
      | Some embedId => Some (mkVideoInfo vimeo embedId None)
      | None => None
      end
  end.

Definition getAllVideos : M (list (nat * Video)) :=
  all <- request (fun d => (os_getAll (videosStore d), d)) ;;
  ret (sort_by_order video_order all).

Definition addVideo (url : string) : M nat :=
  match parseVideoUrl url with
  | None => throw (Error "Invalid video URL")
  | Some videoInfo =>
      videos <- getAllVideos ;;
      let maxOrder := max_order video_order videos in
      createdAt <- now ;;
      let videoData :=
        mkVideo (vi_provider videoInfo) url (vi_embedId videoInfo) (vi_title videoInfo)
                (maxOrder + 1) createdAt in
      request (fun d => let (id, st) := os_add videoData (videosStore d) in
                        (id, with_videos (fun _ => st) d))
  end.

Definition deleteVideo (id : nat) : M unit :=
  request (fun d => (tt, with_videos (os_delete id) d)).

(** [video.order = index] *)
Definition set_video_order (index : Z) (v : Video) : Video :=
  mkVideo (video_provider v) (video_url v) (video_embedId v) (video_title v) index
          (video_createdAt v).

Definition reorderVideos (idsInOrder : list nat) : M (list unit) :=
  reorder_in (fun id d => os_get id (videosStore d))
    (fun _ => true)
    set_video_order
    (fun id v => with_videos (os_put id v))
    idsInOrder.

Definition assetKeys : list string := ["backgroundImage"; "headerLogo"; "favicon"].

Definition export_assets : M (list (string * AssetDoc)) :=
  found <- map_m (fun key => asset <- getAsset key ;; ret (key, asset)) assetKeys ;;
  ret (omap (fun '(key, asset) =>
               match asset with
               | Some a => Some (key, mkAssetDoc (asset_key a) (blobToBase64 (asset_blob a))
                                                 (asset_mime a) (asset_updatedAt a))
               | None => None
               end) found).

Definition photo_doc (p : nat * Photo) : PhotoDoc :=
  mkPhotoDoc (fst p) (photo_albumId (snd p)) (photo_mime (snd p)) (photo_size (snd p))
             (photo_order (snd p)) (photo_createdAt (snd p))
             (blobToBase64 (photo_blob (snd p))).

Definition essay_doc (e : nat * Essay) : EssayDoc :=
  mkEssayDoc (fst e) (essay_title (snd e)) (essay_mime (snd e)) (essay_size (snd e))
             (essay_order (snd e)) (essay_createdAt (snd e)) (essay_updatedAt (snd e))
             (blobToBase64 (essay_pdfBlob (snd e))).

Definition exportAll : M Snapshot :=
  timestamp <- now ;;
  assets <- export_assets ;;
  albums <- getAllAlbums ;;
  allAlbums <- getAllAlbums ;;
  photos <- map_m (fun album =>
                     photos <- getPhotosByAlbum (fst album) ;;
                     ret (map photo_doc photos)) allAlbums ;;
  essays <- getAllEssays ;;
  videos <- getAllVideos ;;
  ret (mkSnapshot (JNum version) timestamp assets albums (concat photos)
                  (map essay_doc essays) videos).

Definition clearAllData : M (list unit) :=
  transaction (
    request (fun d => (tt, with_assets (fun _ => ∅) d)) ;;;
    request (fun d => (tt, with_albums os_clear d)) ;;;
    request (fun d => (tt, with_photos os_clear d)) ;;;
    request (fun d => (tt, with_essays os_clear d)) ;;;
    request (fun d => (tt, with_videos os_clear d)) ;;;
    ret [tt; tt; tt; tt; tt]).

(** [base64ToBlob] inside an [async] method: a failing [atob] rejects. *)
Definition decode_blob (base64 mimeType : string) : M Blob :=
  match base64ToBlob base64 mimeType with
  | Some blob => ret blob
  | None => throw (DOMException "InvalidCharacterError")
  end.

(** [albumIdMap]: old album id to the id of the album now at the same index. *)
Definition album_id_map (oldAlbums newAlbums : list (nat * Album)) : gmap nat nat :=
  fold_left (fun m '(index, oldAlbum) =>
               match newAlbums !! index with
               | Some newAlbum => <[fst oldAlbum := fst newAlbum]> m
               | None => m
               end)
            (imap pair oldAlbums) ∅.

(** The bodies of the five loops of [importAll]. *)
Definition import_asset (entry : string * AssetDoc) : M unit :=
  let '(key, assetData) := entry in
  if str_truthy (ad_data assetData)
  then blob <- decode_blob (ad_data assetData) (ad_mime assetData) ;;
       putAsset key blob ;;; ret tt
  else ret tt.

Definition import_album (album : nat * Album) : M unit :=
  createAlbum (album_name (snd album)) ;;; ret tt.

(** [if (photo.data && albumIdMap[photo.albumId])] *)
Definition import_photo (albumIdMap : gmap nat nat) (photo : PhotoDoc) : M unit :=
  match albumIdMap !! pd_albumId photo with
  | Some newId =>
      if str_truthy (pd_data photo) && negb (newId =? 0)%nat
      then blob <- decode_blob (pd_data photo) (pd_mime photo) ;;
           addPhoto newId blob ;;; ret tt
      else ret tt
  | None => ret tt
  end.

Definition import_essay (essay : EssayDoc) : M unit :=
  if str_truthy (ed_data essay)
  then blob <- decode_blob (ed_data essay) (ed_mime essay) ;;
       addEssay blob (ed_title essay) ;;; ret tt
  else ret tt.

Definition import_video (video : nat * Video) : M unit :=
  addVideo (video_url (snd video)) ;;; ret tt.

Definition importAll (data : Snapshot) : M unit :=
  if negb (truthy (snap_version data))
     || negb (strict_eq (snap_version data) (JNum version))
  then throw (Error "Incompatible data version")
  else
    clearAllData ;;;
    for_each (snap_assets data) import_asset ;;;
    for_each (snap_albums data) import_album ;;;
    newAlbums <- getAllAlbums ;;
    let albumIdMap := album_id_map (snap_albums data) newAlbums in
    for_each (snap_photos data) (import_photo albumIdMap) ;;;
    for_each (snap_essays data) import_essay ;;;
    for_each (snap_videos data) import_video.

Definition defaultVideos : list string :=
  ["https://vimeo.com/897021152";
   "https://youtu.be/6fWYLFodV78?si=faMzDuSLOlI8qURQ";
   "https://youtu.be/5E3XuSymtYQ?si=Sx8vyJ8vfHPEDMcU"].

Definition initializeDefaultVideos : M unit :=
  videos <- getAllVideos ;;
  if (length videos =? 0)%nat
  then for_each defaultVideos (fun url =>
         try_catch (addVideo url ;;; ret tt) (fun _ => ret tt))
  else ret tt.

End Database.
Import Database.

(** ** The remote services

    Firestore, Firebase Storage and [fetch], as far as [FirebaseDatabase]
    calls them.  [R] is the state of the remote side; every call resolves
    or rejects as the remote side decides. *)

Record AssetMeta := mkAssetMeta {
  am_key : string;
  am_downloadURL : string;
  am_mime : string;
  am_size : nat;
  am_updatedAt : timestamp }.

(** The shadow documents; an album shadow also holds [photos: []]. *)
Record AlbumShadow := mkAlbumShadow {
  sa_name : string;
  sa_localId : nat;
  sa_order : Z;
  sa_createdAt : timestamp }.

Record EssayShadow := mkEssayShadow {
  se_localId : nat;
  se_title : string;
  se_downloadURL : string;
  se_mime : string;
  se_size : nat;
  se_order : Z;
  se_createdAt : timestamp }.

Record VideoShadow := mkVideoShadow {
  sv_localId : nat;
  sv_provider : Provider;
  sv_url : string;
  sv_embedId : string;
  sv_title : option string;
  sv_order : Z;
  sv_createdAt : timestamp }.

Inductive Collection := c_albums | c_essays | c_videos.

Record Firebase (R : Type) := mkFirebase {
  (* getDoc(doc(firestore, 'test', 'connection')) *)
  getDoc_test : St R unit;
  (* getDoc(doc(firestore, 'assets', key)): the data if the document exists *)
  getDoc_asset : string -> St R (option AssetMeta);
  setDoc_asset : string -> AssetMeta -> St R unit;
  (* getDocs(collection(...)): document ids with their data *)
  getDocs_albums : St R (list (string * AlbumShadow));
  getDocs_essays : St R (list (string * EssayShadow));
  getDocs_videos : St R (list (string * VideoShadow));
  (* getDocs(query(..., where('localId', '==', id))) *)
  query_albums : nat -> St R (list (string * AlbumShadow));
  query_essays : nat -> St R (list (string * EssayShadow));
  query_videos : nat -> St R (list (string * VideoShadow));
  (* addDoc(collection(...), data): the id of the new document *)
  addDoc_album : AlbumShadow -> St R string;
  addDoc_essay : EssayShadow -> St R string;
  addDoc_video : VideoShadow -> St R string;
  deleteDoc : Collection -> string -> St R unit;
  onSnapshot : Collection -> St R unit;
  (* uploadBytes(ref(storage, path), file): the reference of the upload *)
  uploadBytes : string -> Blob -> St R string;
  getDownloadURL : string -> St R string;
  (* deleteObject(ref(storage, url)) *)
  deleteObject : string -> St R unit;
  (* (await fetch(url)).blob() *)
  fetch_blob : string -> St R Blob }.

Arguments getDoc_test {R}.
Arguments getDoc_asset {R}.
Arguments setDoc_asset {R}.
Arguments getDocs_albums {R}.
Arguments getDocs_essays {R}.
Arguments getDocs_videos {R}.
Arguments query_albums {R}.
Arguments query_essays {R}.
Arguments query_videos {R}.
Arguments addDoc_album {R}.
Arguments addDoc_essay {R}.
Arguments addDoc_video {R}.
Arguments deleteDoc {R}.
Arguments onSnapshot {R}.
Arguments uploadBytes {R}.
Arguments getDownloadURL {R}.
Arguments deleteObject {R}.
Arguments fetch_blob {R}.

(** What the cloud reads of the mirror return. *)
Record CloudAlbum := mkCloudAlbum {
  ca_id : nat + string;          (* data.localId || doc.id *)
  ca_cloudId : string;
  ca_name : string;
  ca_order : Z;
  ca_createdAt : timestamp }.

Record CloudEssay := mkCloudEssay {
  ce_id : nat + string;
  ce_cloudId : string;
  ce_title : string;
  ce_pdfBlob : option Blob;
  ce_downloadURL : string;
  ce_mime : string;
  ce_size : nat;
  ce_order : Z;
  ce_createdAt : timestamp }.

Record CloudVideo := mkCloudVideo {
  cv_id : nat + string;
  cv_cloudId : string;
  cv_provider : Provider;
  cv_url : string;
  cv_embedId : string;
  cv_title : option string;
  cv_order : Z;
  cv_createdAt : timestamp }.

(** A list read of the mirror returns cloud records or, falling back, the
    local ones. *)
Inductive Listed (L C : Type) :=
| FromLocal (l : list L)
| FromCloud (l : list C).
Arguments FromLocal {L C} l.
Arguments FromCloud {L C} l.

(** ** [class FirebaseDatabase] *)

(** The mirror: [this.localDb] with the world it runs in, the remote side,
    and [this.syncEnabled]. *)
Record Mirror (R : Type) := mkMirror {
  localDb : World;
  cloud : R;
  syncEnabled : bool }.
Arguments mkMirror {R}.
Arguments localDb {R}.
Arguments cloud {R}.
Arguments syncEnabled {R}.

Module FirebaseDatabase.
Section WithRemote.
Context {R : Type} (fb : Firebase R).

(** [await this.localDb.method(...)] *)
Definition local {A} (m : M A) : St (Mirror R) A :=
  fun s => let (r, w) := m (localDb s) in (r, mkMirror w (cloud s) (syncEnabled s)).

(** [await window.FirebaseFunctions.call(...)] *)
Definition remote {A} (m : St R A) : St (Mirror R) A :=
  fun s => let (r, c) := m (cloud s) in (r, mkMirror (localDb s) c (syncEnabled s)).

(** [this.syncEnabled] *)
Definition get_syncEnabled : St (Mirror R) bool :=
  fun s => (Resolved (syncEnabled s), s).

(** [this.syncEnabled = b] *)
Definition set_syncEnabled (b : bool) : St (Mirror R) unit :=
  fun s => (Resolved tt, mkMirror (localDb s) (cloud s) b).

(** [Date.now()] *)
Definition Date_now : St (Mirror R) Z :=
  t <- local now ;; ret (Z.of_nat t).

(** [data.localId || doc.id] *)
Definition localId_or (localId : nat) (docId : string) : nat + string :=
  if (localId =? 0)%nat then inr docId else inl localId.

(** [snapshot.forEach(async (doc) => { ... })]: the callbacks are started
    one after the other and not awaited; a rejection stays with its
    callback. *)
Definition forEach_async {A} (docs : list A) (f : A -> St (Mirror R) unit)
  : St (Mirror R) unit :=
  for_each docs (fun doc => try_catch (f doc) (fun _ => ret tt)).

Definition putAsset (key : string) (file : Blob) : St (Mirror R) unit :=
  local (Database.putAsset key file) ;;;
  sync <- get_syncEnabled ;;
  if negb sync then ret tt
  else
    try_catch (
      snapshot <- remote (uploadBytes fb ("assets/" +:+ key) file) ;;
      downloadURL <- remote (getDownloadURL fb snapshot) ;;
      updatedAt <- local now ;;
      remote (setDoc_asset fb key
                (mkAssetMeta key downloadURL (blob_type file) (blob_size file) updatedAt)))
      (fun _ => ret tt).

Definition getAsset (key : string) : St (Mirror R) (option Asset) :=
  sync <- get_syncEnabled ;;
  fromCloud <-
    (if sync
     then try_catch (
            docSnap <- remote (getDoc_asset fb key) ;;
            match docSnap with
            | Some data =>
                blob <- remote (fetch_blob fb (am_downloadURL data)) ;;
                local (Database.putAsset key blob) ;;;
                ret (Some (mkAsset (am_key data) blob (am_mime data) (am_updatedAt data)))
            | None => ret None
            end)
            (fun _ => ret None)
     else ret None) ;;
  match fromCloud with
  | Some asset => ret (Some asset)
  | None => local (Database.getAsset key)
  end.

Definition createAlbum (name : string) : St (Mirror R) nat :=
  localId <- local (Database.createAlbum name) ;;
  sync <- get_syncEnabled ;;
  if negb sync then ret localId
  else
    try_catch (
      order <- Date_now ;;
      createdAt <- local now ;;
      remote (addDoc_album fb (mkAlbumShadow name localId order createdAt)) ;;;
      ret localId)
      (fun _ => ret localId).

Definition getAllAlbums : St (Mirror R) (Listed (nat * Album) CloudAlbum) :=
  sync <- get_syncEnabled ;;
  fromCloud <-
    (if sync
     then try_catch (
            docs <- remote (getDocs_albums fb) ;;
            let albums :=
              map (fun doc =>
                     mkCloudAlbum (localId_or (sa_localId (snd doc)) (fst doc)) (fst doc)
                                  (sa_name (snd doc)) (sa_order (snd doc))
                                  (sa_createdAt (snd doc))) docs in
            ret (Some (js_sort (fun a b => or0 (ca_order a) - or0 (ca_order b)) albums)))
            (fun _ => ret None)
     else ret None) ;;
  match fromCloud with
  | Some albums => ret (FromCloud albums)
  | None => albums <- local Database.getAllAlbums ;; ret (FromLocal albums)
  end.

Definition deleteAlbum (id : nat) : St (Mirror R) unit :=
  local (Database.deleteAlbum id) ;;;
  sync <- get_syncEnabled ;;
  if negb sync then ret tt
  else
    try_catch (
      docs <- remote (query_albums fb id) ;;
      forEach_async docs (fun doc => remote (deleteDoc fb c_albums (fst doc))))
      (fun _ => ret tt).

Definition addVideo (url : string) : St (Mirror R) nat :=
  localId <- local (Database.addVideo url) ;;
  sync <- get_syncEnabled ;;
  if negb sync then ret localId
  else
    try_catch (
      match Database.parseVideoUrl url with
      | None => throw (TypeError "videoInfo is null")
      | Some videoInfo =>
          order <- Date_now ;;
          createdAt <- local now ;;
          remote (addDoc_video fb
                    (mkVideoShadow localId (vi_provider videoInfo) url (vi_embedId videoInfo)
                                   (vi_title videoInfo) order createdAt)) ;;;
          ret localId
      end)
      (fun _ => ret localId).

Definition getAllVideos : St (Mirror R) (Listed (nat * Video) CloudVideo) :=
  sync <- get_syncEnabled ;;
  fromCloud <-
    (if sync
     then try_catch (
            docs <- remote (getDocs_videos fb) ;;
            let videos :=
              map (fun doc =>
                     mkCloudVideo (localId_or (sv_localId (snd doc)) (fst doc)) (fst doc)
                                  (sv_provider (snd doc)) (sv_url (snd doc))
                                  (sv_embedId (snd doc)) (sv_title (snd doc))
                                  (sv_order (snd doc)) (sv_createdAt (snd doc))) docs in
            ret (Some (js_sort (fun a b => or0 (cv_order a) - or0 (cv_order b)) videos)))
            (fun _ => ret None)
     else ret None) ;;
  match fromCloud with
  | Some videos => ret (FromCloud videos)
  | None => videos <- local Database.getAllVideos ;; ret (FromLocal videos)
  end.

Definition deleteVideo (id : nat) : St (Mirror R) unit :=
  local (Database.deleteVideo id) ;;;
  sync <- get_syncEnabled ;;
  if negb sync then ret tt
  else
    try_catch (
      docs <- remote (query_videos fb id) ;;
      forEach_async docs (fun doc => remote (deleteDoc fb c_videos (fst doc))))
      (fun _ => ret tt).

Definition addEssay (file : Blob) (title : string) : St (Mirror R) nat :=
  localId <- local (Database.addEssay file title) ;;
  sync <- get_syncEnabled ;;
  if negb sync then ret localId
  else
    try_catch (
      stamp <- Date_now ;;
      snapshot <- remote (uploadBytes fb
                            ("essays/" +:+ pretty stamp +:+ "_" +:+ title +:+ ".pdf") file) ;;
      downloadURL <- remote (getDownloadURL fb snapshot) ;;
      order <- Date_now ;;
      createdAt <- local now ;;
      remote (addDoc_essay fb
                (mkEssayShadow localId title downloadURL "application/pdf"
                               (blob_size file) order createdAt)) ;;;
      ret localId)
      (fun _ => ret localId).

Definition getAllEssays : St (Mirror R) (Listed (nat * Essay) CloudEssay) :=
  sync <- get_syncEnabled ;;
  fromCloud <-
    (if sync
     then try_catch (
            docs <- remote (getDocs_essays fb) ;;
            essays <- map_m (fun doc =>
                pdfBlob <- try_catch
                             (blob <- remote (fetch_blob fb (se_downloadURL (snd doc))) ;;
                              ret (Some blob))
                             (fun _ => ret None) ;;
                ret (mkCloudEssay (localId_or (se_localId (snd doc)) (fst doc)) (fst doc)
                                  (se_title (snd doc)) pdfBlob (se_downloadURL (snd doc))
                                  (se_mime (snd doc)) (se_size (snd doc))
                                  (se_order (snd doc)) (se_createdAt (snd doc)))) docs ;;
            ret (Some (js_sort (fun a b => or0 (ce_order a) - or0 (ce_order b)) essays)))
            (fun _ => ret None)
     else ret None) ;;
  match fromCloud with
  | Some essays => ret (FromCloud essays)
  | None => essays <- local Database.getAllEssays ;; ret (FromLocal essays)
  end.

Definition deleteEssay (id : nat) : St (Mirror R) unit :=
  local (Database.deleteEssay id) ;;;
  sync <- get_syncEnabled ;;
  if negb sync then ret tt
  else
    try_catch (
      docs <- remote (query_essays fb id) ;;
      forEach_async docs (fun doc =>
        try_catch (remote (deleteObject fb (se_downloadURL (snd doc)))) (fun _ => ret tt) ;;;
        remote (deleteDoc fb c_essays (fst doc))))
      (fun _ => ret tt).

(** [value || Date.now()] on an [order] *)
Definition order_or_now (order : Z) : St (Mirror R) Z :=
  if order =? 0 then Date_now else ret order.

Definition syncAlbumToCloud (album : nat * Album) : St (Mirror R) unit :=
  try_catch (
    docs <- remote (query_albums fb (fst album)) ;;
    if (length docs =? 0)%nat
    then order <- order_or_now (album_order (snd album)) ;;
         remote (addDoc_album fb
                   (mkAlbumShadow (album_name (snd album)) (fst album) order
                                  (album_createdAt (snd album)))) ;;;
         ret tt
    else ret tt)
    (fun _ => ret tt).

Definition syncEssayToCloud (essay : nat * Essay) : St (Mirror R) unit :=
  try_catch (
    docs <- remote (query_essays fb (fst essay)) ;;
    if (length docs =? 0)%nat
    then stamp <- Date_now ;;
         snapshot <- remote (uploadBytes fb
                               ("essays/" +:+ pretty stamp +:+ "_"
                                  +:+ essay_title (snd essay) +:+ ".pdf")
                               (essay_pdfBlob (snd essay))) ;;
         downloadURL <- remote (getDownloadURL fb snapshot) ;;
         order <- order_or_now (essay_order (snd essay)) ;;
         remote (addDoc_essay fb
                   (mkEssayShadow (fst essay) (essay_title (snd essay)) downloadURL
                                  (essay_mime (snd essay)) (essay_size (snd essay)) order
                                  (essay_createdAt (snd essay)))) ;;;
         ret tt
    else ret tt)
    (fun _ => ret tt).

Definition syncVideoToCloud (video : nat * Video) : St (Mirror R) unit :=
  try_catch (
    docs <- remote (query_videos fb (fst video)) ;;
    if (length docs =? 0)%nat
    then order <- order_or_now (video_order (snd video)) ;;
         remote (addDoc_video fb
                   (mkVideoShadow (fst video) (video_provider (snd video))
                                  (video_url (snd video)) (video_embedId (snd video))
                                  (video_title (snd video)) order
                                  (video_createdAt (snd video)))) ;;;
         ret tt
    else ret tt)
    (fun _ => ret tt).

Definition syncLocalToCloud : St (Mirror R) unit :=
  sync <- get_syncEnabled ;;
  if negb sync then ret tt
  else
    try_catch (
      albums <- local Database.getAllAlbums ;;
      for_each albums syncAlbumToCloud ;;;
      essays <- local Database.getAllEssays ;;
      for_each essays syncEssayToCloud ;;;
      videos <- local Database.getAllVideos ;;
      for_each videos syncVideoToCloud)
      (fun _ => ret tt).

Definition setupRealtimeListeners : St (Mirror R) unit :=
  remote (onSnapshot fb c_albums) ;;;
  remote (onSnapshot fb c_essays) ;;;
  remote (onSnapshot fb c_videos).

Definition enableCloudSync : St (Mirror R) unit :=
  try_catch (
    remote (getDoc_test fb) ;;;
    set_syncEnabled true ;;;
    syncLocalToCloud ;;;
    setupRealtimeListeners)
    (fun _ => set_syncEnabled false).

Definition isCloudSyncEnabled : St (Mirror R) bool := get_syncEnabled.

Definition initializeDefaultVideos : St (Mirror R) unit :=
  local Database.initializeDefaultVideos.

Definition renameAlbum (id : nat) (name : string) : St (Mirror R) nat :=
  local (Database.renameAlbum id name).

Definition reorderAlbums (idsInOrder : list nat) : St (Mirror R) (list unit) :=
  local (Database.reorderAlbums idsInOrder).

Definition addPhoto (albumId : nat) (file : Blob) : St (Mirror R) nat :=
  local (Database.addPhoto albumId file).

Definition getPhotosByAlbum (albumId : nat) : St (Mirror R) (list (nat * Photo)) :=
  local (Database.getPhotosByAlbum albumId).

Definition removePhoto (photoId : nat) : St (Mirror R) unit :=
  local (Database.removePhoto photoId).

Definition reorderPhotos (albumId : nat) (idsInOrder : list nat) : St (Mirror R) (list unit) :=
  local (Database.reorderPhotos albumId idsInOrder).

Definition renameEssay (id : nat) (title : string) : St (Mirror R) nat :=
  local (Database.renameEssay id title).

Definition reorderEssays (idsInOrder : list nat) : St (Mirror R) (list unit) :=
  local (Database.reorderEssays idsInOrder).

Definition reorderVideos (idsInOrder : list nat) : St (Mirror R) (list unit) :=
  local (Database.reorderVideos idsInOrder).

Definition exportAll : St (Mirror R) Snapshot :=
  local Database.exportAll.

Definition importAll (data : Snapshot) : St (Mirror R) unit :=
  result <- local (Database.importAll data) ;;
  sync <- get_syncEnabled ;;
  (if sync then syncLocalToCloud else ret tt) ;;;
  ret result.

Definition parseVideoUrl (url : string) : option VideoInfo :=
  Database.parseVideoUrl url.

End WithRemote.
End FirebaseDatabase.

(** ** Start-up of the mirror

    [waitForFirebase] polls three globals that the Firebase loader sets.
    [ready n] tells whether all three are set after [n] waits of 100 ms.
    The method resolves or rejects, and has waited [attempts] times. *)

(** [while (!ready && attempts < 100) { await wait(100); attempts++ }],
    with [fuel] the number of turns left before [attempts] reaches 100. *)
Fixpoint waitForFirebase_loop (ready : nat -> bool) (fuel attempts : nat) : nat :=
  match fuel with
  | O => attempts
  | S fuel' =>
      if negb (ready attempts)
      then waitForFirebase_loop ready fuel' (S attempts)
      else attempts
  end.

Definition waitForFirebase (ready : nat -> bool) : result unit * nat :=
  let attempts := waitForFirebase_loop ready 100 0 in
  if negb (ready attempts)
  then (Rejected (Error "Firebase failed to initialize properly"), attempts)
  else (Resolved tt, attempts).

(** ** [class Utils] and the lightbox of [class App] *)

Module Utils.

Definition hex_digits : list ascii := list_ascii_of_string "0123456789abcdef".

Definition hex_digit (n : N) : ascii := nth (N.to_nat n) hex_digits "0"%char.

(** [b.toString(16)] for an element [b] of a [Uint8Array] *)
Definition toString16 (b : byte) : list ascii :=
  let n := Byte.to_N b in
  if (n <? 16)%N then [hex_digit n] else [hex_digit (n / 16); hex_digit (n mod 16)].

(** [s.padStart(2, '0')] *)
Definition padStart2 (s : list ascii) : list ascii :=
  repeat "0"%char (2 - length s) ++ s.

(** [new TextEncoder().encode(text)]: UTF-8, for code units below 256. *)
Definition utf8 (c : ascii) : list byte :=
  let n := N_of_ascii c in
  if (n <? 128)%N then [byte_of_ascii c]
  else [byte_of_ascii (ascii_of_N (192 + n / 64));
        byte_of_ascii (ascii_of_N (128 + n mod 64))].

Definition TextEncoder_encode (text : string) : list byte :=
  concat (map utf8 (list_ascii_of_string text)).

(** [hashString]; [digest] is [crypto.subtle.digest('SHA-256', .)]. *)
Definition hashString (digest : list byte -> list byte) (text : string) : string :=
  let data := TextEncoder_encode text in
  let hashArray := digest data in
  string_of_list_ascii (concat (map (fun b => padStart2 (toString16 b)) hashArray)).

(** [setupKeyboardNavigation]: the key handler, on a container with
    [length] navigable items of which the one at [active] has the focus
    ([None]: the focus is elsewhere, [indexOf] gives -1).  It gives the item
    that receives the focus, if any, and whether [preventDefault] was
    called. *)
Definition handleKeyDown (key : string) (length : nat) (active : option nat)
  : option nat * bool :=
  let currentIndex : Z := match active with Some i => Z.of_nat i | None => -1 end in
  let items_length : Z := Z.of_nat length in
  let moved : option Z :=
    if (String.eqb key "ArrowUp" || String.eqb key "ArrowLeft")%bool
    then Some (if 0 <? currentIndex then currentIndex - 1 else items_length - 1)
    else if (String.eqb key "ArrowDown" || String.eqb key "ArrowRight")%bool
    then Some (if currentIndex <? items_length - 1 then currentIndex + 1 else 0)
    else if String.eqb key "Home" then Some 0
    else if String.eqb key "End" then Some (items_length - 1)
    else None in
  match moved with
  | None => (None, false)
  | Some newIndex =>
      (* if (items[newIndex]) items[newIndex].focus() *)
      if ((0 <=? newIndex) && (newIndex <? items_length))%bool
      then (Some (Z.to_nat newIndex), true)
      else (None, true)
  end.

(** The object URLs: those for which the browser holds a blob, and
    [Utils._objectURLs], the set of those handed out by [createObjectURL]
    ([None] until the first one). *)
Record ObjectURLs := mkObjectURLs {
  live : gset string;
  objectURLs : option (gset string) }.

(** [createObjectURL(blob)]; [url] is what [URL.createObjectURL(blob)]
    returns. *)
Definition createObjectURL (url : string) (st : ObjectURLs) : string * ObjectURLs :=
  let st1 := mkObjectURLs ({[url]} ∪ live st) (objectURLs st) in
  let tracked := match objectURLs st1 with
                 | Some tracked => tracked
                 | None => ∅
                 end in
  (url, mkObjectURLs (live st1) (Some ({[url]} ∪ tracked))).

Definition revokeObjectURL (url : string) (st : ObjectURLs) : ObjectURLs :=
  match objectURLs st with
  | Some tracked =>
      if (negb (String.eqb url "") && bool_decide (url ∈ tracked))%bool
      then mkObjectURLs (live st ∖ {[url]}) (Some (tracked ∖ {[url]}))
      else st
  | None => st
  end.

Definition cleanupObjectURLs (st : ObjectURLs) : ObjectURLs :=
  match objectURLs st with
  | Some tracked => mkObjectURLs (live st ∖ tracked) (Some ∅)
  | None => st
  end.

End Utils.

(** The lightbox of [App]: [this.currentPhotos], [this.currentLightboxIndex],
    the blob behind the source of the lightbox image, the two numbers of the
    counter text, whether the two navigation buttons are disabled, and
    whether the modal is shown. *)
Record Lightbox := mkLightbox {
  currentPhotos : list (nat * Photo);
  currentLightboxIndex : Z;
  lightboxImage : option Blob;
  lightboxCounter : option (Z * nat);
  navigationDisabled : bool;
  lightboxShown : bool }.

(** [array[i]] for a number [i] *)
Definition js_index {A} (l : list A) (i : Z) : option A :=
  if i <? 0 then None else l !! Z.to_nat i.

(** The image of [photo] is put into the lightbox and the navigation is
    brought up to date; reading [photo.blob] of [undefined] throws. *)
Definition show_photo (st : Lightbox) (modal : bool) : result unit * Lightbox :=
  match js_index (currentPhotos st) (currentLightboxIndex st) with
  | None => (Rejected (TypeError "photo is undefined"), st)
  | Some photo =>
      (Resolved tt,
       mkLightbox (currentPhotos st) (currentLightboxIndex st)
                  (Some (photo_blob (snd photo)))
                  (Some (currentLightboxIndex st + 1, length (currentPhotos st)))
                  (length (currentPhotos st) <=? 1)%nat
                  modal)
  end.

Definition set_index (i : Z) (st : Lightbox) : Lightbox :=
  mkLightbox (currentPhotos st) i (lightboxImage st) (lightboxCounter st)
             (navigationDisabled st) (lightboxShown st).

Definition openLightbox (photoIndex : Z) : St Lightbox unit :=
  fun st =>
    if (length (currentPhotos st) =? 0)%nat then (Resolved tt, st)
    else show_photo (set_index photoIndex st) true.

Definition showPreviousPhoto : St Lightbox unit :=
  fun st =>
    if (length (currentPhotos st) =? 0)%nat then (Resolved tt, st)
    else
      let n := Z.of_nat (length (currentPhotos st)) in
      show_photo (set_index (Z.rem (currentLightboxIndex st - 1 + n) n) st) (lightboxShown st).

Definition showNextPhoto : St Lightbox unit :=
  fun st =>
    if (length (currentPhotos st) =? 0)%nat then (Resolved tt, st)
    else
      let n := Z.of_nat (length (currentPhotos st)) in
      show_photo (set_index (Z.rem (currentLightboxIndex st + 1) n) st) (lightboxShown st).

(** The check of the admin form: the hash of the input against
    [this.adminPasswordHash], which is [null] until the hash of the
    password has been computed. *)
Definition admin_form_accepts (digest : list byte -> list byte)
    (adminPasswordHash : option string) (password : string) : bool :=
  match adminPasswordHash with
  | Some hash => String.eqb (Utils.hashString digest password) hash
  | None => false
  end.

(** [initAdminPasswordHash] *)
Definition initAdminPasswordHash (digest : list byte -> list byte) : option string :=
  Some (Utils.hashString digest "A21bcW34SamPinkWorld").

(** The URLs that [Utils] keeps track of. *)
Definition tracked (st : Utils.ObjectURLs) : gset string :=
  match Utils.objectURLs st with
  | Some urls => urls
  | None => ∅
  end.

(** One call of the three URL helpers; a creation comes with the URL the
    browser hands out. *)
Inductive UrlCall :=
| CallCreate (url : string)
| CallRevoke (url : string)
| CallCleanup.

Definition url_call (c : UrlCall) (st : Utils.ObjectURLs) : Utils.ObjectURLs :=
  match c with
  | CallCreate url => snd (Utils.createObjectURL url st)
  | CallRevoke url => Utils.revokeObjectURL url st
  | CallCleanup => Utils.cleanupObjectURLs st
  end.

(** ** Vocabulary of the properties *)

(** [a] comes before [b] in a listing: smaller [order], or the same [order]
    and the smaller (earlier assigned) id. *)
Definition listed_before {V} (order : V -> Z) (a b : nat * V) : Prop :=
  order (snd a) < order (snd b)
  \/ (order (snd a) = order (snd b) /\ (fst a < fst b)%nat).

(** [l] lists exactly [records], ascending by [order], ties by id. *)
Definition is_listing {V} (order : V -> Z) (records l : list (nat * V)) : Prop :=
  Permutation l records /\ StronglySorted (listed_before order) l.

(** [m] is the greatest of [orders], or 0 when there is none. *)
Definition is_max_order (m : Z) (orders : list Z) : Prop :=
  match orders with
  | [] => m = 0
  | _ => In m orders /\ Forall (fun x => x <= m) orders
  end.

(** The last position of [id] in [ids], counted from [base]. *)
Fixpoint last_index (id : nat) (ids : list nat) (base : nat) : option nat :=
  match ids with
  | [] => None
  | x :: r =>
      match last_index id r (S base) with
      | Some i => Some i
      | None => if decide (x = id) then Some base else None
      end
  end.

(** What the list-style reads return on a database [d]. *)
Definition albums_of (d : Db) : list (nat * Album) :=
  sort_by_order album_order (os_getAll (albumsStore d)).

Definition photos_in (albumId : nat) (d : Db) : list (nat * Photo) :=
  filter (fun p => photo_albumId (snd p) = albumId) (os_getAll (photosStore d)).

Definition photos_of (albumId : nat) (d : Db) : list (nat * Photo) :=
  sort_by_order photo_order (photos_in albumId d).

Definition essays_of (d : Db) : list (nat * Essay) :=
  sort_by_order essay_order (os_getAll (essaysStore d)).

Definition videos_of (d : Db) : list (nat * Video) :=
  sort_by_order video_order (os_getAll (videosStore d)).

(** [o1, o2, ...] are [m + 1, m + 2, ...]. *)
Fixpoint consecutive_from (m : Z) (orders : list Z) : Prop :=
  match orders with
  | [] => True
  | o :: r => o = m + 1 /\ consecutive_from (m + 1) r
  end.

(** A listing grew by the records [created], in this order, whose [order]
    values continue the greatest [order] that was there (0 if none). *)
Definition appended {V} (order : V -> Z) (before after created : list (nat * V)) : Prop :=
  after = before ++ created
  /\ exists m, is_max_order m (map (fun a => order (snd a)) before)
               /\ consecutive_from m (map (fun a => order (snd a)) created).

(** A list-style read resolved with the listing of [records] (the empty
    sequence when there is none) and left the world as it was. *)
Definition lists_scope {V} (order : V -> Z) (records : list (nat * V))
    (outcome : result (list (nat * V)) * World) (w : World) : Prop :=
  exists l, outcome = (Resolved l, w)
            /\ is_listing order records l
            /\ (records = [] -> l = []).

(** The [order] values of [created] continue those of [before]: the first
    is the greatest [order] of [before] plus one (1 when [before] is empty),
    each next one is one more; so they strictly increase. *)
Definition orders_continue {V} (order : V -> Z) (before created : list (nat * V)) : Prop :=
  exists m, is_max_order m (map (fun a => order (snd a)) before)
            /\ consecutive_from m (map (fun a => order (snd a)) created)
            /\ StronglySorted Z.lt (map (fun a => order (snd a)) created).

(** Running the creations [creates] from [w] returned the ids of [created],
    in this order; listing the scope before gave [before] and afterwards
    gives [before] followed by [created]. *)
Definition created_in_order {V} (order : V -> Z) (list_scope : M (list (nat * V)))
    (creates : M (list nat)) (w : World) (created : list (nat * V)) : Prop :=
  exists before w',
    list_scope w = (Resolved before, w)
    /\ creates w = (Resolved (map fst created), w')
    /\ list_scope w' = (Resolved (before ++ created), w')
    /\ orders_continue order before created.

(** The record a reorder leaves where [record] was stored under [id]: moved
    to the last position of [id] in [ids] if the reorder accepts it. *)
Definition moved {V} (accept : V -> bool) (set_order : Z -> V -> V)
    (ids : list nat) (id : nat) (record : V) : V :=
  if accept record
  then match last_index id ids 0 with
       | Some i => set_order (Z.of_nat i) record
       | None => record
       end
  else record.

(** [i] is the position of [id] in [ids] (the last one, should [ids] list
    it more than once). *)
Definition position_in (ids : list nat) (id : nat) (i : nat) : Prop :=
  ids !! i = Some id /\ forall j, ids !! j = Some id -> (j <= i)%nat.

(** The effect of a reorder with [ids] on a store ([st] before, [st']
    after) and on the listing of the scope ([before], [after]). *)
Definition reordered {V} (set_order : Z -> V -> V) (in_scope : V -> Prop)
    (ids : list nat) (st st' : list (option V)) (before after : list (nat * V)) : Prop :=
  (forall id v i, os_get id st = Some v -> in_scope v -> position_in ids id i ->
                  os_get id st' = Some (set_order (Z.of_nat i) v))
  /\ (forall id, id ∉ ids -> os_get id st' = os_get id st)
  /\ (forall id v, os_get id st = Some v -> ~ in_scope v -> os_get id st' = Some v)
  /\ (forall id, os_get id st = None -> os_get id st' = None)
  /\ (Permutation ids (map fst before) -> map fst after = ids)
  /\ filter (fun p => fst p ∉ ids) after = filter (fun p => fst p ∉ ids) before.

(** Running [reorder] from [w] resolved (one [undefined] per listed id) and
    had the effect [reordered] on the store and on what the scope lists. *)
Definition reorders {V} (set_order : Z -> V -> V) (in_scope : V -> Prop)
    (store : Db -> list (option V)) (list_scope : M (list (nat * V)))
    (reorder : M (list unit)) (ids : list nat) (w : World) : Prop :=
  exists before after units w',
    list_scope w = (Resolved before, w)
    /\ reorder w = (Resolved units, w')
    /\ length units = length ids
    /\ list_scope w' = (Resolved after, w')
    /\ reordered set_order in_scope ids (store (db w)) (store (db w')) before after.


(** [addVideo url] resolved from [w] with the key of a new video record that
    holds [url], [provider] and [embedId]. *)
Definition adds_video (url : string) (provider : Provider) (embedId : string)
    (w : World) : Prop :=
  exists id w' v,
    addVideo url w = (Resolved id, w')
    /\ os_get id (videosStore (db w)) = None
    /\ os_get id (videosStore (db w')) = Some v
    /\ video_url v = url /\ video_provider v = provider /\ video_embedId v = embedId.

(** The operations that [Database] and [FirebaseDatabase] both offer. *)
Inductive Op :=
| OpPutAsset (key : string) (file : Blob)
| OpGetAsset (key : string)
| OpCreateAlbum (name : string)
| OpGetAllAlbums
| OpRenameAlbum (id : nat) (name : string)
| OpDeleteAlbum (id : nat)
| OpReorderAlbums (idsInOrder : list nat)
| OpAddPhoto (albumId : nat) (file : Blob)
| OpGetPhotosByAlbum (albumId : nat)
| OpRemovePhoto (photoId : nat)
| OpReorderPhotos (albumId : nat) (idsInOrder : list nat)
| OpAddEssay (file : Blob) (title : string)
| OpGetAllEssays
| OpRenameEssay (id : nat) (title : string)
| OpDeleteEssay (id : nat)
| OpReorderEssays (idsInOrder : list nat)
| OpAddVideo (url : string)
| OpGetAllVideos
| OpDeleteVideo (id : nat)
| OpReorderVideos (idsInOrder : list nat)
| OpExportAll
| OpImportAll (data : Snapshot)
| OpInitializeDefaultVideos.

(** What an operation resolves with. *)
Inductive Value :=
| VUndefined
| VKey (id : nat)
| VAssetKey (key : string)
| VUndefineds (l : list unit)
| VAsset (asset : option Asset)
| VAlbums (l : Listed (nat * Album) CloudAlbum)
| VPhotos (l : list (nat * Photo))
| VEssays (l : Listed (nat * Essay) CloudEssay)
| VVideos (l : Listed (nat * Video) CloudVideo)
| VSnapshot (data : Snapshot).

(** [v <- m ;; ret (f v)] *)
Definition returning {S A} (f : A -> Value) (m : St S A) : St S Value :=
  v <- m ;; ret (f v).

Definition undefined (_ : unit) : Value := VUndefined.

(** The operation on the local store alone. *)
Definition run_local (op : Op) : M Value :=
  match op with
  | OpPutAsset key file => returning VAssetKey (Database.putAsset key file)
  | OpGetAsset key => returning VAsset (Database.getAsset key)
  | OpCreateAlbum name => returning VKey (Database.createAlbum name)
  | OpGetAllAlbums => returning (fun l => VAlbums (FromLocal l)) Database.getAllAlbums
  | OpRenameAlbum id name => returning VKey (Database.renameAlbum id name)
  | OpDeleteAlbum id => returning undefined (Database.deleteAlbum id)
  | OpReorderAlbums ids => returning VUndefineds (Database.reorderAlbums ids)
  | OpAddPhoto albumId file => returning VKey (Database.addPhoto albumId file)
  | OpGetPhotosByAlbum albumId => returning VPhotos (Database.getPhotosByAlbum albumId)
  | OpRemovePhoto photoId => returning undefined (Database.removePhoto photoId)
  | OpReorderPhotos albumId ids => returning VUndefineds (Database.reorderPhotos albumId ids)
  | OpAddEssay file title => returning VKey (Database.addEssay file title)
  | OpGetAllEssays => returning (fun l => VEssays (FromLocal l)) Database.getAllEssays
  | OpRenameEssay id title => returning VKey (Database.renameEssay id title)
  | OpDeleteEssay id => returning undefined (Database.deleteEssay id)
  | OpReorderEssays ids => returning VUndefineds (Database.reorderEssays ids)
  | OpAddVideo url => returning VKey (Database.addVideo url)
  | OpGetAllVideos => returning (fun l => VVideos (FromLocal l)) Database.getAllVideos
  | OpDeleteVideo id => returning undefined (Database.deleteVideo id)
  | OpReorderVideos ids => returning VUndefineds (Database.reorderVideos ids)
  | OpExportAll => returning VSnapshot Database.exportAll
  | OpImportAll data => returning undefined (Database.importAll data)
  | OpInitializeDefaultVideos => returning undefined Database.initializeDefaultVideos
  end.

(** The same operation called on the mirror. *)
Definition run_mirror {R} (fb : Firebase R) (op : Op) : St (Mirror R) Value :=
  match op with
  | OpPutAsset key file => returning undefined (FirebaseDatabase.putAsset fb key file)
  | OpGetAsset key => returning VAsset (FirebaseDatabase.getAsset fb key)
  | OpCreateAlbum name => returning VKey (FirebaseDatabase.createAlbum fb name)
  | OpGetAllAlbums => returning VAlbums (FirebaseDatabase.getAllAlbums fb)
  | OpRenameAlbum id name => returning VKey (FirebaseDatabase.renameAlbum id name)
  | OpDeleteAlbum id => returning undefined (FirebaseDatabase.deleteAlbum fb id)
  | OpReorderAlbums ids => returning VUndefineds (FirebaseDatabase.reorderAlbums ids)
  | OpAddPhoto albumId file => returning VKey (FirebaseDatabase.addPhoto albumId file)
  | OpGetPhotosByAlbum albumId =>
      returning VPhotos (FirebaseDatabase.getPhotosByAlbum albumId)
  | OpRemovePhoto photoId => returning undefined (FirebaseDatabase.removePhoto photoId)
  | OpReorderPhotos albumId ids =>
      returning VUndefineds (FirebaseDatabase.reorderPhotos albumId ids)
  | OpAddEssay file title => returning VKey (FirebaseDatabase.addEssay fb file title)
  | OpGetAllEssays => returning VEssays (FirebaseDatabase.getAllEssays fb)
  | OpRenameEssay id title => returning VKey (FirebaseDatabase.renameEssay id title)
  | OpDeleteEssay id => returning undefined (FirebaseDatabase.deleteEssay fb id)
  | OpReorderEssays ids => returning VUndefineds (FirebaseDatabase.reorderEssays ids)
  | OpAddVideo url => returning VKey (FirebaseDatabase.addVideo fb url)
  | OpGetAllVideos => returning VVideos (FirebaseDatabase.getAllVideos fb)
  | OpDeleteVideo id => returning undefined (FirebaseDatabase.deleteVideo fb id)
  | OpReorderVideos ids => returning VUndefineds (FirebaseDatabase.reorderVideos ids)
  | OpExportAll => returning VSnapshot FirebaseDatabase.exportAll
  | OpImportAll data => returning undefined (FirebaseDatabase.importAll fb data)
  | OpInitializeDefaultVideos =>
      returning undefined FirebaseDatabase.initializeDefaultVideos
  end.

(** The mutating passthroughs: creations, [putAsset], and the delete,
    rename and reorder variants. *)
Definition mutating_passthrough (op : Op) : bool :=
  match op with
  | OpPutAsset _ _ | OpCreateAlbum _ | OpRenameAlbum _ _ | OpDeleteAlbum _
  | OpReorderAlbums _ | OpAddPhoto _ _ | OpRemovePhoto _ | OpReorderPhotos _ _
  | OpAddEssay _ _ | OpRenameEssay _ _ | OpDeleteEssay _ | OpReorderEssays _
  | OpAddVideo _ | OpDeleteVideo _ | OpReorderVideos _ => true
  | _ => false
  end.

(** What the mirror hands back of the local outcome [r] of [op]: the
    outcome itself, except that its [putAsset] resolves with [undefined]
    where the local one resolves with the key. *)
Definition handed_back (op : Op) (r : result Value) : result Value :=
  match op, r with
  | OpPutAsset _ _, Resolved _ => Resolved VUndefined
  | _, _ => r
  end.

(** A remote side where every call fails. *)
Definition unreachable {A} : St unit A := throw (Error "unavailable").

Definition unreachable_firebase : Firebase unit :=
  mkFirebase unit unreachable (fun _ => unreachable) (fun _ _ => unreachable)
    unreachable unreachable unreachable
    (fun _ => unreachable) (fun _ => unreachable) (fun _ => unreachable)
    (fun _ => unreachable) (fun _ => unreachable) (fun _ => unreachable)
    (fun _ _ => unreachable) (fun _ => unreachable)
    (fun _ _ => unreachable) (fun _ => unreachable) (fun _ => unreachable)
    (fun _ => unreachable).

(** [m] leaves the collections of the local store, and the faults its
    requests will meet, as they are. *)
Definition keeps_store {R A} (m : St (Mirror R) A) : Prop :=
  forall s r s', m s = (r, s') ->
    db (localDb s') = db (localDb s) /\ faults (localDb s') = faults (localDb s).

(** [m] resolves with [a] or not at all. *)
Definition only_returns {S A} (a : A) (m : St S A) : Prop :=
  forall s v s', m s = (Resolved v, s') -> v = a.

(** [f] applied to what a promise resolved with. *)
Definition map_result {A B} (f : A -> B) (r : result A) : result B :=
  match r with
  | Resolved a => Resolved (f a)
  | Rejected e => Rejected e
  end.











(** What [exportAll] puts under [assets]. *)
Definition asset_docs (d : Db) : list (string * AssetDoc) :=
  omap (fun key =>
          match assetsStore d !! key with
          | Some a => Some (key, mkAssetDoc (asset_key a) (blobToBase64 (asset_blob a))
                                            (asset_mime a) (asset_updatedAt a))
          | None => None
          end) assetKeys.


(** What [exportAll] resolves with on the database [d] at time [c]. *)
Definition snapshot_of (d : Db) (c : timestamp) : Snapshot :=
  mkSnapshot (JNum version) c (asset_docs d) (albums_of d)
             (concat (map (fun album => map photo_doc (photos_of (fst album) d))
                          (albums_of d)))
             (map essay_doc (essays_of d)) (videos_of d).

(** The database after [clearAllData]. *)
Definition cleared (d : Db) : Db :=
  mkDb ∅ (os_clear (albumsStore d)) (os_clear (photosStore d))
       (os_clear (essaysStore d)) (os_clear (videosStore d)).

(** ** Sample states *)

Definition fresh_world : World := mkWorld empty_db [] 0%nat.

Definition sample_photo : Blob := mkBlob [x89; x50; x4e; x47]%byte "image/png".
Definition sample_pdf : Blob := mkBlob [x25; x50; x44; x46; x2d]%byte "application/pdf".

(** Two albums, three photos, an essay, two videos and a logo. *)
Definition sample_world : World :=
  snd ((createAlbum "Travel" ;;;
        createAlbum "Family" ;;;
        addPhoto 1 sample_photo ;;;
        addPhoto 2 sample_photo ;;;
        addPhoto 1 sample_pdf ;;;
        addEssay sample_pdf "On walking" ;;;
        addVideo "https://vimeo.com/897021152" ;;;
        addVideo "https://youtu.be/dQw4w9WgXcQ" ;;;
        putAsset "headerLogo" sample_photo) fresh_world).

(** A snapshot of the current version whose second video has a URL that no
    provider pattern matches. *)
Definition snapshot_with_stale_video : Snapshot :=
  mkSnapshot (JNum 1) 0%nat [] [] [] []
    [(1%nat, mkVideo youtube "https://youtu.be/dQw4w9WgXcQ" "dQw4w9WgXcQ" None 1 0%nat);
     (2%nat, mkVideo youtube "https://example.com/x" "x" None 2 0%nat);
     (3%nat, mkVideo vimeo "https://vimeo.com/897021152" "897021152" None 3 0%nat)].

(** A mirror over the sample store, with a remote side that cannot be
    reached: once with sync enabled, once with sync disabled. *)
Definition sample_mirror (sync : bool) (w : World) : Mirror unit := mkMirror w tt sync.


(** A snapshot written by a later schema version, and one without any. *)
Definition newer_snapshot : Snapshot := mkSnapshot (JNum 2) 0%nat [] [] [] [] [].
Definition unversioned_snapshot : Snapshot := mkSnapshot JUndefined 0%nat [] [] [] [] [].

(** ** Vocabulary of the further properties *)

(** Whatever [m] does, and however it ends, the database it leaves is
    related by [Rel] to the one it found. *)
Definition steps {A} (Rel : Db -> Db -> Prop) (m : M A) : Prop :=
  forall w r w', m w = (r, w') -> Rel (db w) (db w').

(** The four stores of records are the same in [d] and [d']. *)
Definition same_records (d d' : Db) : Prop :=
  albumsStore d' = albumsStore d /\ photosStore d' = photosStore d
  /\ essaysStore d' = essaysStore d /\ videosStore d' = videosStore d.

(** The record stores of [d'] are those of [d] with records added at the
    end, and the assets of [d'] are those of [d] and possibly assets
    under [keys]. *)
Definition grown (keys : list string) (d d' : Db) : Prop :=
  (exists l, albumsStore d' = albumsStore d ++ l)
  /\ (exists l, photosStore d' = photosStore d ++ l)
  /\ (exists l, essaysStore d' = essaysStore d ++ l)
  /\ (exists l, videosStore d' = videosStore d ++ l)
  /\ (forall key, is_Some (assetsStore d' !! key) ->
                  is_Some (assetsStore d !! key) \/ In key keys).

(** No id of a record of [d] holds a record in [d'], and every asset of
    [d'] sits under one of [keys]. *)
Definition nothing_left (keys : list string) (d d' : Db) : Prop :=
  (forall id, is_Some (os_get id (albumsStore d)) -> os_get id (albumsStore d') = None)
  /\ (forall id, is_Some (os_get id (photosStore d)) -> os_get id (photosStore d') = None)
  /\ (forall id, is_Some (os_get id (essaysStore d)) -> os_get id (essaysStore d') = None)
  /\ (forall id, is_Some (os_get id (videosStore d)) -> os_get id (videosStore d') = None)
  /\ (forall key, is_Some (assetsStore d' !! key) -> In key keys).


(** [m], started on a database that satisfies [P], leaves one that
    satisfies [Q a] when it resolves with [a] and one that satisfies [E]
    when it rejects. *)
Definition triple {A} (P : Db -> Prop) (m : M A) (Q : A -> Db -> Prop) (E : Db -> Prop)
  : Prop :=
  forall w r w', P (db w) -> m w = (r, w') ->
    match r with
    | Resolved a => Q a (db w')
    | Rejected _ => E (db w')
    end.

(** Every record of the store [st] satisfies [good]. *)
Definition all_in {V} (good : V -> Prop) (st : list (option V)) : Prop :=
  forall id v, os_get id st = Some v -> good v.

(** The fields of a record that repeat what another field says do agree
    with it, and the [order] is not negative. *)
Definition sound_asset (key : string) (a : Asset) : Prop :=
  asset_key a = key /\ asset_mime a = blob_type (asset_blob a).

Definition sound_album (a : Album) : Prop := 0 <= album_order a.

Definition sound_photo (p : Photo) : Prop :=
  photo_mime p = blob_type (photo_blob p) /\ photo_size p = blob_size (photo_blob p)
  /\ 0 <= photo_order p.

Definition sound_essay (e : Essay) : Prop :=
  essay_mime e = "application/pdf" /\ essay_size e = blob_size (essay_pdfBlob e)
  /\ 0 <= essay_order e.

Definition sound_video (v : Video) : Prop :=
  parseVideoUrl (video_url v)
  = Some (mkVideoInfo (video_provider v) (video_embedId v) (video_title v))
  /\ 0 <= video_order v.

Definition consistent (d : Db) : Prop :=
  (forall key a, assetsStore d !! key = Some a -> sound_asset key a)
  /\ all_in sound_album (albumsStore d)
  /\ all_in sound_photo (photosStore d)
  /\ all_in sound_essay (essaysStore d)
  /\ all_in sound_video (videosStore d).

(** The world after the operations [ops], one after the other, whatever
    their outcomes. *)
Definition after_ops (ops : list Op) (w : World) : World :=
  fold_left (fun w op => snd (run_local op w)) ops w.

(** The texts a regular expression matches, read off its syntax. *)
Fixpoint lang (r : regex) (a : list ascii) : Prop :=
  match r with
  | RLit l => a = list_ascii_of_string l
  | RClass cl => exists c, a = [c] /\ class_matches cl c = true
  | RSeq r1 r2 => exists a1 a2, a = a1 ++ a2 /\ lang r1 a1 /\ lang r2 a2
  | RAlt r1 r2 => lang r1 a \/ lang r2 a
  | ROpt r1 => lang r1 a \/ a = []
  | RStar cl => forallb (class_matches cl) a = true
  | RPlus cl => a <> [] /\ forallb (class_matches cl) a = true
  | RRep n cl => length a = n /\ forallb (class_matches cl) a = true
  | RGroup r1 => lang r1 a
  end.

(** A character that the YouTube expression takes as part of a video id:
    no double quote, [&], [?], [/] or white space. *)
Definition id_char (c : ascii) : Prop :=
  c <> "034"%char /\ c <> "&"%char /\ c <> "?"%char /\ c <> "/"%char
  /\ is_js_space c = false.

(** [0] to [9]. *)
Definition is_digit (c : ascii) : bool :=
  (48 <=? N_of_ascii c)%N && (N_of_ascii c <=? 57)%N.

(** [s] does not go on with a digit. *)
Definition no_digit_ahead (s : list ascii) : Prop :=
  match s with
  | c :: _ => is_digit c = false
  | [] => True
  end.

(** Whatever [m] does to the mirror, and however it ends, what [obs]
    shows of the mirror is the same afterwards. *)
Definition unobserved {R A X} (obs : Mirror R -> X) (m : St (Mirror R) A) : Prop :=
  forall s r s', m s = (r, s') -> obs s' = obs s.

(** [m] resolves, whatever happens inside. *)
Definition never_rejects {S A} (m : St S A) : Prop :=
  forall s r s', m s = (r, s') -> exists a, r = Resolved a.

(** The local collections of the mirror, and its sync flag. *)
Definition local_db {R} (s : Mirror R) : Db := db (localDb s).

Definition local_db_and_flag {R} (s : Mirror R) : Db * bool :=
  (db (localDb s), syncEnabled s).

(** The writes that the mirror hands to the local store and does not
    report to the remote side. *)
Definition local_only (op : Op) : bool :=
  match op with
  | OpRenameAlbum _ _ | OpReorderAlbums _ | OpAddPhoto _ _ | OpRemovePhoto _
  | OpReorderPhotos _ _ | OpRenameEssay _ _ | OpReorderEssays _ | OpReorderVideos _ => true
  | _ => false
  end.

(** The operations of [Database] that only read. *)
Definition read_only (op : Op) : bool :=
  match op with
  | OpGetAsset _ | OpGetAllAlbums | OpGetPhotosByAlbum _ | OpGetAllEssays
  | OpGetAllVideos | OpExportAll => true
  | _ => false
  end.

(** The writes of [Database] that place their requests in one transaction
    or place a single write request. *)
Definition single_write (op : Op) : bool :=
  match op with
  | OpPutAsset _ _ | OpCreateAlbum _ | OpRenameAlbum _ _ | OpReorderAlbums _
  | OpAddPhoto _ _ | OpRemovePhoto _ | OpReorderPhotos _ _
  | OpAddEssay _ _ | OpRenameEssay _ _ | OpDeleteEssay _ | OpReorderEssays _
  | OpAddVideo _ | OpDeleteVideo _ | OpReorderVideos _ => true
  | _ => false
  end.

(** The records that the cloud reads build from the documents of a
    collection. *)
Definition album_from_doc (doc : string * AlbumShadow) : CloudAlbum :=
  mkCloudAlbum (FirebaseDatabase.localId_or (sa_localId (snd doc)) (fst doc)) (fst doc)
               (sa_name (snd doc)) (sa_order (snd doc)) (sa_createdAt (snd doc)).

Definition video_from_doc (doc : string * VideoShadow) : CloudVideo :=
  mkCloudVideo (FirebaseDatabase.localId_or (sv_localId (snd doc)) (fst doc)) (fst doc)
               (sv_provider (snd doc)) (sv_url (snd doc)) (sv_embedId (snd doc))
               (sv_title (snd doc)) (sv_order (snd doc)) (sv_createdAt (snd doc)).

Definition essay_from_doc (doc : string * EssayShadow) (pdfBlob : option Blob) : CloudEssay :=
  mkCloudEssay (FirebaseDatabase.localId_or (se_localId (snd doc)) (fst doc)) (fst doc)
               (se_title (snd doc)) pdfBlob (se_downloadURL (snd doc)) (se_mime (snd doc))
               (se_size (snd doc)) (se_order (snd doc)) (se_createdAt (snd doc)).



(** What fetching the PDFs of [docs] one after the other gives, from the
    remote state [c]: for each document the blob, or none if the fetch
    failed; and the remote state afterwards. *)
Fixpoint fetch_all {R} (fb : Firebase R) (docs : list (string * EssayShadow)) (c : R)
  : list (option Blob) * R :=
  match docs with
  | [] => ([], c)
  | doc :: rest =>
      let (fetched, c1) := fetch_blob fb (se_downloadURL (snd doc)) c in
      let (blobs, c2) := fetch_all fb rest c1 in
      (match fetched with Resolved blob => Some blob | Rejected _ => None end :: blobs, c2)
  end.

(** The lightbox shows one of its photos: the index is in range, and the
    image and the counter are those of the photo at the index. *)
Definition shows_current (st : Lightbox) : Prop :=
  exists photo,
    js_index (currentPhotos st) (currentLightboxIndex st) = Some photo
    /\ lightboxImage st = Some (photo_blob (snd photo))
    /\ lightboxCounter st = Some (currentLightboxIndex st + 1, length (currentPhotos st)).

(** [n] times [m], as long as it resolves. *)
Fixpoint repeated {S} (n : nat) (m : St S unit) : St S unit :=
  match n with
  | O => ret tt
  | S k => m ;;; repeated k m
  end.

(** The digits of a hexadecimal text. *)
Definition is_hex (c : ascii) : bool :=
  existsb (Ascii.eqb c) Utils.hex_digits.

(** Reading the hexadecimal text back. *)
Definition unhex (c : ascii) : option N := index_of c Utils.hex_digits.

Definition unhex_byte (s : list ascii) : option byte :=
  match s with
  | [h; l] =>
      match unhex h, unhex l with
      | Some a, Some b => Byte.of_N (a * 16 + b)
      | _, _ => None
      end
  | _ => None
  end.

(** The index of the lightbox points at one of its photos. *)
Definition index_in_range (st : Lightbox) : Prop :=
  0 <= currentLightboxIndex st < Z.of_nat (length (currentPhotos st)).

(** ** Further sample states *)

(** An album with two photos, and an environment in which the third
    request fails. *)
Definition album_with_two_photos : World :=
  snd ((createAlbum "Travel" ;;;
        addPhoto 1 sample_photo ;;;
        addPhoto 1 sample_pdf) fresh_world).

Definition third_request_fails (w : World) : World :=
  mkWorld (db w) [false; false; true] (clock w).

(** A remote side that holds one album document, written when the album was
    created, and answers every read with it. *)
Definition one_album_remote : Firebase unit :=
  mkFirebase unit (ret tt) (fun _ => ret None) (fun _ _ => ret tt)
    (ret [("a1", mkAlbumShadow "Travel" 1 1 0%nat)]) (ret []) (ret [])
    (fun _ => ret []) (fun _ => ret []) (fun _ => ret [])
    (fun _ => ret "doc") (fun _ => ret "doc") (fun _ => ret "doc")
    (fun _ _ => ret tt) (fun _ => ret tt)
    (fun _ _ => ret "ref") (fun _ => ret "url") (fun _ => ret tt)
    (fun _ => ret sample_photo).

(** A text file whose type carries a parameter list with a comma. *)
Definition comma_typed_blob : Blob :=
  mkBlob [x68; x69]%byte "text/plain;note=a,b".

(* ===================================================================== *)
(** * Part II: properties                                                 *)
(* ===================================================================== *)

Example b64_foobar :
  blobToBase64 (mkBlob [x66; x6f; x6f; x62; x61]%byte "text/plain") = "Zm9vYmE=".
Proof. reflexivity. Qed.

Example atob_foobar : atob "Zm9vYmE=" = Some "fooba".
Proof. reflexivity. Qed.

(** ** The blob codec *)

Ltac Zify.zify_post_hook ::= Z.to_euclidean_division_equations.


Abbreviation sextets_upto := (map N.of_nat (seq 0 64)).












Lemma filter_all {A} (P : A -> Prop) `{!forall x, Decision (P x)} (l : list A) :
  Forall P l -> filter P l = l.
Proof.
  induction 1 as [|x l Hx _ IH]; [reflexivity|].
  rewrite filter_cons_True by assumption. now rewrite IH.
Qed.



Lemma list_ascii_of_string_app (s1 s2 : string) :
  list_ascii_of_string (s1 ++ s2)%string = list_ascii_of_string s1 ++ list_ascii_of_string s2.
Proof.
  induction s1 as [|c s1 IH]; [reflexivity|].
  change (c :: list_ascii_of_string (s1 +:+ s2)
          = c :: (list_ascii_of_string s1 ++ list_ascii_of_string s2)).
  now rewrite IH.
Qed.








(** ** Sorting *)

Lemma or0_id (n : Z) : or0 n = n.
Proof. unfold or0. destruct (Z.eqb_spec n 0); congruence. Qed.

Section Sorting.
Context {A : Type} (key : A -> Z).

Let cmp (a b : A) : Z := key a - key b.

Lemma sort_insert_perm (x : A) (l : list A) : Permutation (sort_insert cmp x l) (x :: l).
Proof.
  induction l as [|y l IH]; cbn [sort_insert]; [reflexivity|].
  destruct (cmp x y <=? 0); [reflexivity|].
  rewrite IH. apply perm_swap.
Qed.

Lemma js_sort_perm (l : list A) : Permutation (js_sort cmp l) l.
Proof.
  induction l as [|x l IH]; cbn [js_sort foldr]; [reflexivity|].
  fold (js_sort cmp l). rewrite sort_insert_perm. now constructor.
Qed.

Lemma sort_insert_sorted (x : A) (l : list A) :
  StronglySorted (fun a b => key a <= key b) l ->
  StronglySorted (fun a b => key a <= key b) (sort_insert cmp x l).
Proof.
  induction 1 as [|y l Hl IH Hy]; cbn [sort_insert]; [repeat constructor|].
  unfold cmp at 1. destruct (Z.leb_spec (key x - key y) 0) as [Hle|Hgt].
  - constructor; [constructor; assumption|].
    constructor; [lia|]. rewrite Forall_forall in Hy |- *.
    intros z Hz. specialize (Hy z Hz). cbn in Hy. lia.
  - constructor; [assumption|].
    rewrite Forall_forall in Hy |- *. intros z Hz.
    apply list_elem_of_In in Hz.
    apply (Permutation_in _ (sort_insert_perm x l)) in Hz as [<-|Hz]; [lia|].
    apply Hy, list_elem_of_In, Hz.
Qed.

Lemma js_sort_sorted (l : list A) :
  StronglySorted (fun a b => key a <= key b) (js_sort cmp l).
Proof.
  induction l as [|x l IH]; cbn [js_sort foldr]; [constructor|].
  now apply sort_insert_sorted.
Qed.

(** Inserting below an element that is not smaller leaves the tail alone. *)
Lemma sort_insert_snoc (y x : A) (l : list A) :
  key y <= key x -> sort_insert cmp y (l ++ [x]) = sort_insert cmp y l ++ [x].
Proof.
  intros Hyx. induction l as [|z l IH]; cbn [sort_insert app].
  - unfold cmp. destruct (Z.leb_spec (key y - key x) 0); [reflexivity|lia].
  - destruct (cmp y z <=? 0); [reflexivity|]. now rewrite IH.
Qed.

(** A last element that is not smaller than the others stays last. *)
Lemma js_sort_snoc (l : list A) (x : A) :
  Forall (fun y => key y <= key x) l -> js_sort cmp (l ++ [x]) = js_sort cmp l ++ [x].
Proof.
  induction 1 as [|y l Hy _ IH]; [reflexivity|].
  cbn [js_sort foldr app]. fold (js_sort cmp (l ++ [x])). fold (js_sort cmp l).
  rewrite IH. now apply sort_insert_snoc.
Qed.

Lemma sort_insert_filter (P : A -> Prop) `{!forall a, Decision (P a)} (x : A) (l : list A) :
  StronglySorted (fun a b => key a <= key b) l ->
  filter P (sort_insert cmp x l)
  = if decide (P x) then sort_insert cmp x (filter P l) else filter P l.
Proof.
  induction 1 as [|y l Hl IH Hy]; cbn [sort_insert].
  - rewrite filter_cons, filter_nil. now destruct (decide (P x)).
  - unfold cmp at 1. destruct (Z.leb_spec (key x - key y) 0) as [Hle|Hgt].
    + rewrite filter_cons. destruct (decide (P x)) as [Hx|Hx]; [|reflexivity].
      rewrite filter_cons. destruct (decide (P y)) as [Hy'|Hy'].
      * cbn [sort_insert]. unfold cmp.
        destruct (Z.leb_spec (key x - key y) 0); [reflexivity|lia].
      * assert (G : Forall (fun z => key x <= key z) (filter P l)).
        { rewrite Forall_forall in Hy |- *. intros z Hz.
          apply list_elem_of_filter in Hz as [_ Hz]. specialize (Hy z Hz).
          cbn in Hy. lia. }
        destruct (filter P l) as [|z r]; [reflexivity|].
        cbn [sort_insert]. unfold cmp. apply Forall_inv in G.
        destruct (Z.leb_spec (key x - key z) 0); [reflexivity|lia].
    + rewrite filter_cons, IH. rewrite (filter_cons _ y).
      destruct (decide (P y)) as [Hy'|Hy'], (decide (P x)) as [Hx|Hx]; try reflexivity.
      cbn [sort_insert]. unfold cmp.
      destruct (Z.leb_spec (key x - key y) 0); [lia|reflexivity].
Qed.

(** Sorting and filtering commute: records keep their relative position. *)
Lemma js_sort_filter (P : A -> Prop) `{!forall a, Decision (P a)} (l : list A) :
  filter P (js_sort cmp l) = js_sort cmp (filter P l).
Proof.
  induction l as [|x l IH]; [reflexivity|].
  cbn [js_sort foldr]. fold (js_sort cmp l).
  rewrite sort_insert_filter by apply js_sort_sorted.
  rewrite filter_cons. destruct (decide (P x)); [|exact IH].
  cbn [js_sort foldr]. fold (js_sort cmp (filter P l)). now rewrite IH.
Qed.

(** Two lists strictly ascending in [key] with the same elements are equal. *)
Lemma strictly_sorted_unique (s t : list A) :
  StronglySorted (fun a b => key a < key b) s ->
  StronglySorted (fun a b => key a < key b) t ->
  (forall x, In x s <-> In x t) ->
  s = t.
Proof.
  intros Hs. revert t. induction Hs as [|x s Hs IH Hx]; intros t Ht Hst.
  - destruct t as [|y t]; [reflexivity|]. destruct (proj2 (Hst y)). now left.
  - destruct Ht as [|y t Ht Hy].
    { destruct (proj1 (Hst x)). now left. }
    rewrite Forall_forall in Hx, Hy.
    assert (x = y) as <-.
    { destruct (proj1 (Hst x) (or_introl eq_refl)) as [E|Hxt]; [now subst|].
      destruct (proj2 (Hst y) (or_introl eq_refl)) as [E|Hys]; [now subst|].
      apply list_elem_of_In in Hxt, Hys.
      specialize (Hx _ Hys). specialize (Hy _ Hxt). cbn in Hx, Hy. lia. }
    f_equal. apply IH; [assumption|]. intros z. split; intros Hz.
    + destruct (proj1 (Hst z) (or_intror Hz)) as [E|G]; [|assumption].
      subst z. apply list_elem_of_In in Hz. specialize (Hx _ Hz). cbn in Hx. lia.
    + destruct (proj2 (Hst z) (or_intror Hz)) as [E|G]; [|assumption].
      subst z. apply list_elem_of_In in Hz. specialize (Hy _ Hz). cbn in Hy. lia.
Qed.
End Sorting.

Lemma sort_insert_listed {V} (order : V -> Z) (x : nat * V) (l : list (nat * V)) :
  StronglySorted (listed_before order) l ->
  Forall (fun y => (fst x < fst y)%nat) l ->
  StronglySorted (listed_before order)
    (sort_insert (fun a b => or0 (order (snd a)) - or0 (order (snd b))) x l).
Proof.
  induction 1 as [|y l Hl IH Hy]; intros Hx; cbn [sort_insert]; [repeat constructor|].
  rewrite !or0_id. apply Forall_cons in Hx as [Hxy Hx].
  destruct (Z.leb_spec (order (snd x) - order (snd y)) 0) as [Hle|Hgt].
  - constructor; [constructor; assumption|].
    constructor; [unfold listed_before; lia|].
    rewrite Forall_forall in Hx, Hy |- *. intros z Hz.
    specialize (Hx z Hz). specialize (Hy z Hz). unfold listed_before in *. lia.
  - constructor; [now apply IH|].
    rewrite Forall_forall in Hy |- *. intros z Hz. apply list_elem_of_In in Hz.
    apply (Permutation_in _ (sort_insert_perm _ x l)) in Hz as [<-|Hz].
    + unfold listed_before. lia.
    + apply Hy, list_elem_of_In, Hz.
Qed.

(** Sorting records that come in ascending id order lists them by [order],
    ties by id. *)
Lemma sort_by_order_listing {V} (order : V -> Z) (l : list (nat * V)) :
  StronglySorted (fun a b => (fst a < fst b)%nat) l ->
  is_listing order l (sort_by_order order l).
Proof.
  intros Hl. split; [apply js_sort_perm with (key := fun a => or0 (order (snd a)))|].
  induction Hl as [|x l Hl IH Hx]; [constructor|].
  unfold sort_by_order. cbn [js_sort foldr]. apply sort_insert_listed; [exact IH|].
  rewrite Forall_forall in Hx |- *. intros y Hy. apply Hx.
  apply list_elem_of_In. apply list_elem_of_In in Hy.
  exact (Permutation_in _ (js_sort_perm (fun a => or0 (order (snd a))) l) Hy).
Qed.

Lemma Math_max_spec (x : Z) (r : list Z) :
  In (fold_left Z.max r x) (x :: r) /\ Forall (fun y => y <= fold_left Z.max r x) (x :: r).
Proof.
  revert x. induction r as [|y r IH]; intros x; cbn [fold_left].
  - split; [now left|]. repeat constructor. lia.
  - destruct (IH (Z.max x y)) as [Hin Hall]. apply Forall_cons in Hall as [Hm Hall].
    split.
    + destruct Hin as [E|Hin]; [|right; right; assumption].
      rewrite <- E. destruct (Z.max_spec x y) as [[_ ->]|[_ ->]]; [right|]; now left.
    + repeat constructor; [lia..|exact Hall].
Qed.

Lemma max_order_spec {V} (order : V -> Z) (l : list (nat * V)) :
  is_max_order (max_order order l) (map (fun a => order (snd a)) l).
Proof.
  unfold max_order. destruct l as [|a l]; [reflexivity|].
  cbn [length Nat.ltb Nat.leb map Math_max is_max_order].
  rewrite (map_ext (fun a => or0 (order (snd a))) (fun a => order (snd a)))
    by (intros; apply or0_id).
  rewrite or0_id. apply Math_max_spec.
Qed.

Lemma max_order_bound {V} (order : V -> Z) (l : list (nat * V)) :
  Forall (fun a => order (snd a) <= max_order order l) l.
Proof.
  pose proof (max_order_spec order l) as H. destruct l as [|a l]; [constructor|].
  destruct H as [_ H]. now rewrite Forall_map in H.
Qed.

(** ** Object stores *)

Section ObjectStoreFacts.
Context {V : Type}.
Implicit Types (st : list (option V)) (v : V).

Lemma os_scan_app k st1 st2 :
  os_scan k (st1 ++ st2) = os_scan k st1 ++ os_scan (k + length st1) st2.
Proof.
  revert k. induction st1 as [|o st1 IH]; intros k; cbn [os_scan app length].
  - now rewrite Nat.add_0_r.
  - rewrite IH, Nat.add_succ_comm. now destruct o.
Qed.

Lemma os_getAll_snoc st v :
  os_getAll (st ++ [Some v]) = os_getAll st ++ [(S (length st), v)].
Proof. unfold os_getAll. now rewrite os_scan_app. Qed.

Lemma os_scan_in k st id v :
  In (id, v) (os_scan k st) <-> (k <= id)%nat /\ st !! (id - k)%nat = Some (Some v).
Proof.
  revert k. induction st as [|o st IH]; intros k; cbn [os_scan].
  - split; [intros []|intros [_ H]; discriminate].
  - assert (G : In (id, v) (os_scan (S k) st) <->
                (k < id)%nat /\ (o :: st) !! (id - k)%nat = Some (Some v)).
    { rewrite IH. split; intros [H1 H2]; (split; [lia|]).
      - replace (id - k)%nat with (S (id - S k)) by lia. exact H2.
      - replace (id - k)%nat with (S (id - S k)) in H2 by lia. exact H2. }
    destruct o as [v'|].
    + cbn [In]. rewrite G. split.
      * intros [E|[H1 H2]]; [|split; [lia|assumption]].
        inversion E; subst. split; [lia|]. now rewrite Nat.sub_diag.
      * intros [H1 H2]. destruct (decide (id = k)) as [->|Hne].
        -- rewrite Nat.sub_diag in H2. left. cbn in H2. congruence.
        -- right. split; [lia|assumption].
    + rewrite G. split; intros [H1 H2]; (split; [|assumption]); [lia|].
      destruct (decide (id = k)) as [->|Hne]; [|lia].
      rewrite Nat.sub_diag in H2. discriminate.
Qed.

(** [getAll] returns exactly the records that [get] finds. *)
Lemma in_os_getAll st id v : In (id, v) (os_getAll st) <-> os_get id st = Some v.
Proof.
  unfold os_getAll. rewrite os_scan_in. destruct id as [|i]; cbn [os_get].
  - split; [lia|discriminate].
  - replace (S i - 1)%nat with i by lia. split.
    + intros [_ H]. now rewrite H.
    + intros H. split; [lia|]. destruct (st !! i) as [[w|]|]; cbn in H; congruence.
Qed.

Lemma os_scan_ascending k st :
  Forall (fun p => (k <= fst p)%nat) (os_scan k st)
  /\ StronglySorted (fun a b => (fst a < fst b)%nat) (os_scan k st).
Proof.
  revert k. induction st as [|o st IH]; intros k; cbn [os_scan];
    [split; constructor|].
  destruct (IH (S k)) as [Hge Hs].
  assert (Hge' : Forall (fun p => (k <= fst p)%nat) (os_scan (S k) st)).
  { eapply Forall_impl; [exact Hge|]. cbn. intros; lia. }
  destruct o; [|split; assumption].
  split; constructor; auto.
Qed.

Lemma os_getAll_ascending st :
  StronglySorted (fun a b => (fst a < fst b)%nat) (os_getAll st).
Proof. apply os_scan_ascending. Qed.

Lemma os_getAll_ids st : Forall (fun p => (1 <= fst p <= length st)%nat) (os_getAll st).
Proof.
  rewrite Forall_forall. intros [id v] H. apply list_elem_of_In, os_scan_in in H as [H1 H2].
  apply lookup_lt_Some in H2. cbn. lia.
Qed.

Lemma os_getAll_clear st : os_getAll (os_clear st) = [].
Proof.
  unfold os_getAll, os_clear. generalize 1%nat.
  induction (length st) as [|n IH]; intros k; [reflexivity|]. cbn. apply IH.
Qed.

Lemma os_clear_length st : length (os_clear st) = length st.
Proof. apply length_replicate. Qed.
End ObjectStoreFacts.

(** ** Runs without request faults *)

Lemma getAllAlbums_run d c :
  getAllAlbums (mkWorld d [] c) = (Resolved (albums_of d), mkWorld d [] c).
Proof. reflexivity. Qed.

Lemma getPhotosByAlbum_run albumId d c :
  getPhotosByAlbum albumId (mkWorld d [] c) = (Resolved (photos_of albumId d), mkWorld d [] c).
Proof. reflexivity. Qed.

Lemma getAllEssays_run d c :
  getAllEssays (mkWorld d [] c) = (Resolved (essays_of d), mkWorld d [] c).
Proof. reflexivity. Qed.

Lemma getAllVideos_run d c :
  getAllVideos (mkWorld d [] c) = (Resolved (videos_of d), mkWorld d [] c).
Proof. reflexivity. Qed.

Lemma createAlbum_run name d c :
  createAlbum name (mkWorld d [] c)
  = (Resolved (S (length (albumsStore d))),
     mkWorld (with_albums (fun st => st ++ [Some (mkAlbum name (max_order album_order (albums_of d) + 1) c None)]) d)
             [] (S c)).
Proof. reflexivity. Qed.

Lemma addPhoto_run albumId file d c :
  addPhoto albumId file (mkWorld d [] c)
  = (Resolved (S (length (photosStore d))),
     mkWorld (with_photos (fun st => st ++ [Some (mkPhoto albumId file (blob_type file) (blob_size file)
                                                   (max_order photo_order (photos_of albumId d) + 1) c)]) d)
             [] (S c)).
Proof. reflexivity. Qed.

Lemma addEssay_run file title d c :
  addEssay file title (mkWorld d [] c)
  = (Resolved (S (length (essaysStore d))),
     mkWorld (with_essays (fun st => st ++ [Some (mkEssay title file "application/pdf" (blob_size file)
                                                   (max_order essay_order (essays_of d) + 1) c None)]) d)
             [] (S c)).
Proof. reflexivity. Qed.

Lemma addVideo_run url info d c :
  parseVideoUrl url = Some info ->
  addVideo url (mkWorld d [] c)
  = (Resolved (S (length (videosStore d))),
     mkWorld (with_videos (fun st => st ++ [Some (mkVideo (vi_provider info) url (vi_embedId info)
                                                   (vi_title info)
                                                   (max_order video_order (videos_of d) + 1) c)]) d)
             [] (S c)).
Proof. intros H. unfold addVideo. now rewrite H. Qed.

(** ** Listings *)

Section Listing.
Context {V : Type} (order : V -> Z) (P : nat * V -> Prop) `{!forall p, Decision (P p)}.

Let listing (st : list (option V)) : list (nat * V) :=
  sort_by_order order (filter P (os_getAll st)).

Lemma listing_sorted st :
  is_listing order (filter P (os_getAll st)) (listing st).
Proof.
  apply sort_by_order_listing.
  generalize (os_getAll_ascending st). generalize (os_getAll st).
  induction 1 as [|x l Hl IH Hx]; [constructor|].
  rewrite filter_cons. destruct (decide (P x)); [|exact IH].
  constructor; [exact IH|]. rewrite Forall_forall in Hx |- *.
  intros y Hy. apply list_elem_of_filter in Hy as [_ Hy]. now apply Hx.
Qed.

(** A record added with an [order] above the others is listed last. *)
Lemma listing_snoc_in st v :
  P (S (length st), v) -> Forall (fun a => order (snd a) <= order v) (listing st) ->
  listing (st ++ [Some v]) = listing st ++ [(S (length st), v)].
Proof.
  intros Hv Hmax. unfold listing. rewrite os_getAll_snoc, filter_app.
  rewrite filter_cons_True, filter_nil by exact Hv.
  unfold sort_by_order.
  apply (js_sort_snoc (fun a => or0 (order (snd a)))).
  rewrite Forall_forall in Hmax |- *. intros y Hy. rewrite !or0_id.
  apply Hmax, list_elem_of_In.
  apply list_elem_of_In in Hy.
  exact (Permutation_in _ (Permutation_sym (js_sort_perm (fun a => or0 (order (snd a))) _)) Hy).
Qed.

End Listing.

Lemma filter_True {A} (l : list A) : filter (fun _ => True) l = l.
Proof. apply filter_all. now apply Forall_forall. Qed.

Lemma is_max_order_unique (m m' : Z) (l : list Z) :
  is_max_order m l -> is_max_order m' l -> m = m'.
Proof.
  destruct l as [|x l]; cbn [is_max_order]; [congruence|].
  intros [Hin Hall] [Hin' Hall']. rewrite Forall_forall in Hall, Hall'.
  apply list_elem_of_In in Hin, Hin'.
  specialize (Hall _ Hin'). specialize (Hall' _ Hin). lia.
Qed.

Lemma is_max_order_snoc (l : list Z) (x : Z) :
  Forall (fun y => y <= x) l -> is_max_order x (l ++ [x]).
Proof.
  intros H. assert (G : In x (l ++ [x]) /\ Forall (fun y => y <= x) (l ++ [x])).
  { split; [apply in_or_app; right; now left|].
    apply Forall_app. split; [exact H|]. repeat constructor. lia. }
  destruct l; exact G.
Qed.

Lemma max_order_snoc {V} (order : V -> Z) (l : list (nat * V)) (x : nat * V) :
  order (snd x) = max_order order l + 1 ->
  max_order order (l ++ [x]) = order (snd x).
Proof.
  intros Hx. eapply is_max_order_unique; [apply max_order_spec|].
  rewrite map_app. cbn [map]. apply is_max_order_snoc.
  rewrite Forall_map. eapply Forall_impl; [apply (max_order_bound order)|].
  intros a Ha. cbv beta in Ha |- *. rewrite Hx. lia.
Qed.

(** ** Reads *)

Lemma lists_scope_sorted {V} (order : V -> Z) (P : nat * V -> Prop) `{!forall p, Decision (P p)}
    (st : list (option V)) (w : World) :
  lists_scope order (filter P (os_getAll st))
    (Resolved (sort_by_order order (filter P (os_getAll st))), w) w.
Proof.
  eexists. split; [reflexivity|]. split; [apply listing_sorted|].
  intros ->. reflexivity.
Qed.

(** C5. In an environment whose requests do not fail, every list-style read
    (all albums, the photos of an album, all essays, all videos) resolves,
    leaves the world unchanged, and returns exactly the records of its scope
    in ascending [order], records of equal [order] in ascending id; an empty
    scope gives the empty sequence. *)
Theorem list_reads_sorted (w : World) :
  faults w = [] ->
  lists_scope album_order (os_getAll (albumsStore (db w))) (getAllAlbums w) w
  /\ (forall albumId,
        lists_scope photo_order (photos_in albumId (db w)) (getPhotosByAlbum albumId w) w)
  /\ lists_scope essay_order (os_getAll (essaysStore (db w))) (getAllEssays w) w
  /\ lists_scope video_order (os_getAll (videosStore (db w))) (getAllVideos w) w.
Proof.
  destruct w as [d fs c]. cbn [faults db]. intros ->.
  rewrite getAllAlbums_run, getAllEssays_run, getAllVideos_run.
  pose proof (fun V order st => @lists_scope_sorted V order (fun _ => True) _ st (mkWorld d [] c)) as H.
  cbv beta in H. setoid_rewrite filter_True in H.
  repeat split; try apply H.
  intros albumId. rewrite getPhotosByAlbum_run. unfold photos_of, photos_in.
  apply (lists_scope_sorted photo_order (fun p => photo_albumId (snd p) = albumId)).
Qed.

(** ** Creation *)

Lemma bind_run {S A B} (m : St S A) (k : A -> St S B) (w w' : S) (a : A) :
  m w = (Resolved a, w') -> bind m k w = k a w'.
Proof. intros H. unfold bind. now rewrite H. Qed.

Lemma map_m_cons_run {S A B} (f : A -> St S B) (x : A) (r : list A) (w w' w'' : S)
    (y : B) (ys : list B) :
  f x w = (Resolved y, w') -> map_m f r w' = (Resolved ys, w'') ->
  map_m f (x :: r) w = (Resolved (y :: ys), w'').
Proof.
  intros H1 H2. cbn [map_m]. rewrite (bind_run _ _ _ _ _ H1).
  now rewrite (bind_run _ _ _ _ _ H2).
Qed.

Lemma map_m_cons_eq {S A B} (f : A -> St S B) (x : A) (r : list A) (w : S) :
  map_m f (x :: r) w
  = match f x w with
    | (Resolved y, w') =>
        match map_m f r w' with
        | (Resolved ys, w'') => (Resolved (y :: ys), w'')
        | (Rejected e, w'') => (Rejected e, w'')
        end
    | (Rejected e, w') => (Rejected e, w')
    end.
Proof.
  cbn [map_m]. unfold bind. destruct (f x w) as [[y|e] w']; [|reflexivity].
  destruct (map_m f r w') as [[ys|e] w'']; reflexivity.
Qed.

Lemma consecutive_from_sorted (m : Z) (l : list Z) :
  consecutive_from m l -> Forall (fun o => m < o) l /\ StronglySorted Z.lt l.
Proof.
  revert m. induction l as [|o l IH]; intros m; cbn [consecutive_from].
  - intros _. split; constructor.
  - intros [-> H]. destruct (IH _ H) as [Hlt Hs].
    split; constructor; try lia; try assumption.
    eapply Forall_impl; [exact Hlt|]. cbn. intros; lia.
Qed.

Section Creates.
Context {V Arg : Type} (order : V -> Z)
        (P : nat * V -> Prop) `{!forall p, Decision (P p)}
        (get : Db -> list (option V)) (set : list (option V) -> Db -> Db)
        (create : Arg -> M nat) (ok : Arg -> Prop) (made : Arg -> V -> Prop).

Let listing (d : Db) : list (nat * V) :=
  sort_by_order order (filter P (os_getAll (get d))).

Hypothesis get_set : forall st d, get (set st d) = st.
Hypothesis set_get : forall d, set (get d) d = d.
Hypothesis set_set : forall st st' d, set st (set st' d) = set st d.

(** One creation: the record goes in with the next key and the [order]
    after the greatest one listed. *)
Hypothesis create_run : forall a d c, ok a ->
  exists v,
    made a v
    /\ P (S (length (get d)), v)
    /\ order v = max_order order (listing d) + 1
    /\ create a (mkWorld d [] c)
       = (Resolved (S (length (get d))), mkWorld (set (get d ++ [Some v]) d) [] (S c)).

Lemma creates_appended (args : list Arg) (d : Db) (c : timestamp) :
  Forall ok args ->
  exists created d' c',
    map_m create args (mkWorld d [] c) = (Resolved (map fst created), mkWorld d' [] c')
    /\ appended order (listing d) (listing d') created
    /\ Forall2 made args (map snd created)
    /\ d' = set (get d') d.
Proof.
  intros Hok. revert d c. induction Hok as [|a args Ha _ IH]; intros d c.
  - exists [], d, c. split; [reflexivity|]. split; [|split; [constructor|now rewrite set_get]].
    split; [now rewrite app_nil_r|].
    exists (max_order order (listing d)). split; [apply max_order_spec|exact I].
  - destruct (create_run a d c Ha) as (v & Hmade & HP & Hord & Hrun).
    destruct (IH (set (get d ++ [Some v]) d) (S c))
      as (created & d' & c' & Hruns & [Happ (m & Hm & Hcons)] & Hall & Hframe).
    assert (Hlist : listing (set (get d ++ [Some v]) d)
                    = listing d ++ [(S (length (get d)), v)]).
    { unfold listing. rewrite get_set.
      apply (listing_snoc_in order P); [exact HP|].
      pose proof (max_order_bound order (listing d)) as Hb.
      rewrite Forall_forall in Hb |- *. intros x Hx.
      specialize (Hb x Hx). cbv beta in Hb. lia. }
    exists ((S (length (get d)), v) :: created), d', c'.
    split; [exact (map_m_cons_run _ _ _ _ _ _ _ _ Hrun Hruns)|].
    split; [|split; [constructor; assumption|now rewrite Hframe at 1; rewrite set_set]].
    split; [rewrite Happ, Hlist, <- app_assoc; reflexivity|].
    exists (max_order order (listing d)). split; [apply max_order_spec|].
    cbn [map consecutive_from snd]. split; [exact Hord|].
    rewrite Hlist in Hm.
    rewrite <- (is_max_order_unique _ _ _ (max_order_spec order _) Hm) in Hcons.
    rewrite max_order_snoc in Hcons by exact Hord.
    cbn [snd] in Hcons. now rewrite Hord in Hcons.
Qed.
End Creates.

Lemma appended_continue {V} (order : V -> Z) (before after created : list (nat * V)) :
  appended order before after created -> orders_continue order before created.
Proof.
  intros [_ (m & Hm & Hc)]. exists m. repeat split; try assumption.
  apply (consecutive_from_sorted m), Hc.
Qed.

Lemma createAlbum_seq (names : list string) (d : Db) (c : timestamp) :
  exists created d' c',
    map_m createAlbum names (mkWorld d [] c) = (Resolved (map fst created), mkWorld d' [] c')
    /\ appended album_order (albums_of d) (albums_of d') created
    /\ Forall2 (fun name v => album_name v = name) names (map snd created)
    /\ d' = with_albums (fun _ => albumsStore d') d.
Proof.
  pose proof (creates_appended album_order (fun _ => True) albumsStore
                (fun st => with_albums (fun _ => st)) createAlbum (fun _ => True)
                (fun name v => album_name v = name)) as H.
  cbv beta in H. setoid_rewrite filter_True in H.
  apply H; [reflexivity|now intros []|reflexivity| |apply Forall_forall; auto].
  intros name d0 c0 _. eexists. rewrite createAlbum_run.
  split; [|split; [exact I|split; [|reflexivity]]]; reflexivity.
Qed.

Lemma addPhoto_seq (albumId : nat) (files : list Blob) (d : Db) (c : timestamp) :
  exists created d' c',
    map_m (addPhoto albumId) files (mkWorld d [] c)
    = (Resolved (map fst created), mkWorld d' [] c')
    /\ appended photo_order (photos_of albumId d) (photos_of albumId d') created
    /\ Forall2 (fun file v => photo_blob v = file /\ photo_albumId v = albumId)
               files (map snd created)
    /\ d' = with_photos (fun _ => photosStore d') d.
Proof.
  apply (creates_appended photo_order (fun p => photo_albumId (snd p) = albumId) photosStore
           (fun st => with_photos (fun _ => st)) (addPhoto albumId) (fun _ => True)
           (fun file v => photo_blob v = file /\ photo_albumId v = albumId));
    [reflexivity|now intros []|reflexivity| |apply Forall_forall; auto].
  intros file d0 c0 _. eexists. rewrite addPhoto_run.
  split; [|split; [|split; [|reflexivity]]]; [split| |]; reflexivity.
Qed.

Lemma addEssay_seq (args : list (Blob * string)) (d : Db) (c : timestamp) :
  exists created d' c',
    map_m (fun a => addEssay (fst a) (snd a)) args (mkWorld d [] c)
    = (Resolved (map fst created), mkWorld d' [] c')
    /\ appended essay_order (essays_of d) (essays_of d') created
    /\ Forall2 (fun a v => essay_pdfBlob v = fst a /\ essay_title v = snd a)
               args (map snd created)
    /\ d' = with_essays (fun _ => essaysStore d') d.
Proof.
  pose proof (creates_appended essay_order (fun _ => True) essaysStore
                (fun st => with_essays (fun _ => st))
                (fun a => addEssay (fst a) (snd a)) (fun _ => True)
                (fun a v => essay_pdfBlob v = fst a /\ essay_title v = snd a)) as H.
  cbv beta in H. setoid_rewrite filter_True in H.
  apply H; [reflexivity|now intros []|reflexivity| |apply Forall_forall; auto].
  intros a d0 c0 _. eexists. rewrite addEssay_run.
  split; [|split; [exact I|split; [|reflexivity]]]; [split|]; reflexivity.
Qed.

Lemma addVideo_seq (urls : list string) (d : Db) (c : timestamp) :
  Forall (fun url => parseVideoUrl url <> None) urls ->
  exists created d' c',
    map_m addVideo urls (mkWorld d [] c) = (Resolved (map fst created), mkWorld d' [] c')
    /\ appended video_order (videos_of d) (videos_of d') created
    /\ Forall2 (fun url v => video_url v = url) urls (map snd created)
    /\ d' = with_videos (fun _ => videosStore d') d.
Proof.
  pose proof (creates_appended video_order (fun _ => True) videosStore
                (fun st => with_videos (fun _ => st)) addVideo
                (fun url => parseVideoUrl url <> None)
                (fun url v => video_url v = url)) as H.
  cbv beta in H. setoid_rewrite filter_True in H.
  apply H; [reflexivity|now intros []|reflexivity|].
  intros url d0 c0 Hurl. destruct (parseVideoUrl url) as [info|] eqn:E; [|contradiction].
  eexists. rewrite (addVideo_run url info d0 c0 E).
  split; [|split; [exact I|split; [|reflexivity]]]; reflexivity.
Qed.

Lemma Forall2_map_eq {A B} (f : B -> A) (l : list A) (l' : list B) :
  Forall2 (fun a b => f b = a) l l' -> map f l' = l.
Proof. induction 1; cbn; congruence. Qed.

(** C3. In an environment whose requests do not fail, any sequence of
    creations in one scope (albums; the photos of one album; essays; videos
    with recognised URLs) resolves; each creation assigns the greatest
    [order] of the scope plus one (1 in an empty scope), so the assigned
    values strictly increase, and listing the scope afterwards returns the
    earlier records followed by the new ones in creation order. *)
Theorem creates_in_order (w : World) :
  faults w = [] ->
  (forall names, exists created,
      created_in_order album_order getAllAlbums (map_m createAlbum names) w created
      /\ map (fun a => album_name (snd a)) created = names)
  /\ (forall albumId files, exists created,
      created_in_order photo_order (getPhotosByAlbum albumId)
                       (map_m (addPhoto albumId) files) w created
      /\ map (fun p => photo_blob (snd p)) created = files)
  /\ (forall args, exists created,
      created_in_order essay_order getAllEssays
                       (map_m (fun a => addEssay (fst a) (snd a)) args) w created
      /\ map (fun e => essay_title (snd e)) created = map snd args)
  /\ (forall urls, Forall (fun url => parseVideoUrl url <> None) urls ->
      exists created,
      created_in_order video_order getAllVideos (map_m addVideo urls) w created
      /\ map (fun v => video_url (snd v)) created = urls).
Proof.
  destruct w as [d fs c]. cbn [faults]. intros ->. repeat split.
  - intros names.
    destruct (createAlbum_seq names d c) as (created & d' & c' & Hrun & Happ & Hmade & _).
    exists created. split.
    + exists (albums_of d), (mkWorld d' [] c'). rewrite !getAllAlbums_run.
      rewrite (proj1 Happ). eauto using appended_continue.
    + rewrite <- (map_map snd album_name). now apply Forall2_map_eq.
  - intros albumId files.
    destruct (addPhoto_seq albumId files d c) as (created & d' & c' & Hrun & Happ & Hmade & _).
    exists created. split.
    + exists (photos_of albumId d), (mkWorld d' [] c'). rewrite !getPhotosByAlbum_run.
      rewrite (proj1 Happ). eauto using appended_continue.
    + rewrite <- (map_map snd photo_blob). apply Forall2_map_eq.
      eapply Forall2_impl; [exact Hmade|]. now intros ? ? [? _].
  - intros args.
    destruct (addEssay_seq args d c) as (created & d' & c' & Hrun & Happ & Hmade & _).
    exists created. split.
    + exists (essays_of d), (mkWorld d' [] c'). rewrite !getAllEssays_run.
      rewrite (proj1 Happ). eauto using appended_continue.
    + rewrite <- (map_map snd essay_title). apply Forall2_map_eq.
      apply Forall2_fmap_l. eapply Forall2_impl; [exact Hmade|]. now intros ? ? [_ ?].
  - intros urls Hurls.
    destruct (addVideo_seq urls d c Hurls) as (created & d' & c' & Hrun & Happ & Hmade & _).
    exists created. split.
    + exists (videos_of d), (mkWorld d' [] c'). rewrite !getAllVideos_run.
      rewrite (proj1 Happ). eauto using appended_continue.
    + rewrite <- (map_map snd video_url). now apply Forall2_map_eq.
Qed.

(** ** Reordering *)

Section PutFacts.
Context {V : Type}.
Implicit Types (st : list (option V)) (v : V).

Lemma os_get_put_eq id v st : id <> O -> os_get id (os_put id v st) = Some v.
Proof.
  destruct id as [|i]; [congruence|]. intros _. cbn [os_get os_put].
  destruct (decide (i < length st)%nat) as [Hlt|Hge].
  - now rewrite list_lookup_insert_eq.
  - rewrite lookup_app_r by lia. rewrite lookup_app_r by (rewrite length_replicate; lia).
    rewrite length_replicate. now replace (i - length st - (i - length st))%nat with O by lia.
Qed.

Lemma os_get_put_ne id id' v st : id <> id' -> os_get id' (os_put id v st) = os_get id' st.
Proof.
  destruct id as [|i]; [reflexivity|]. destruct id' as [|i']; [reflexivity|].
  intros Hne. assert (i <> i') by congruence. cbn [os_get os_put].
  destruct (decide (i < length st)%nat) as [Hlt|Hge].
  - now rewrite list_lookup_insert_ne.
  - destruct (decide (i' < length st)%nat) as [Hlt'|Hge'].
    + now rewrite lookup_app_l.
    + rewrite (lookup_ge_None_2 st i') by lia. rewrite lookup_app_r by lia.
      destruct (decide (i' - length st < i - length st)%nat).
      * rewrite lookup_app_l by (rewrite length_replicate; lia).
        now rewrite lookup_replicate_2.
      * rewrite lookup_app_r by (rewrite length_replicate; lia).
        rewrite length_replicate.
        destruct (i' - length st - (i - length st))%nat eqn:E; [lia|reflexivity].
Qed.

Lemma os_get_bound id v st : os_get id st = Some v -> (1 <= id <= length st)%nat.
Proof.
  destruct id as [|i]; [discriminate|]. cbn [os_get]. intros H.
  destruct (st !! i) eqn:E; [|discriminate]. apply lookup_lt_Some in E. lia.
Qed.

Lemma os_put_length id v st : (1 <= id <= length st)%nat -> length (os_put id v st) = length st.
Proof.
  destruct id as [|i]; [reflexivity|]. cbn [os_put]. intros H.
  destruct (decide (i < length st)%nat) as [Hlt|Hge]; [apply length_insert|lia].
Qed.

Lemma os_scan_pointwise (f : nat -> V -> V) k st st' :
  (forall i, st' !! i = fmap (fmap (f (k + i)%nat)) (st !! i)) ->
  os_scan k st' = map (fun p => (fst p, f (fst p) (snd p))) (os_scan k st).
Proof.
  revert k st'. induction st as [|o st IH]; intros k st' H.
  - destruct st' as [|o' st']; [reflexivity|]. specialize (H O). discriminate.
  - destruct st' as [|o' st']; [specialize (H O); discriminate|].
    assert (Ho : o' = fmap (f k) o).
    { specialize (H O). cbn in H. rewrite Nat.add_0_r in H. congruence. }
    assert (Ht : os_scan (S k) st'
                 = map (fun p => (fst p, f (fst p) (snd p))) (os_scan (S k) st)).
    { apply IH. intros i. specialize (H (S i)). cbn in H.
      now rewrite Nat.add_succ_comm. }
    subst o'. destruct o as [v|]; cbn [os_scan fmap option_fmap option_map map fst snd];
      now rewrite Ht.
Qed.

(** Stores of equal size whose records correspond record by record list
    corresponding records. *)
Lemma os_getAll_pointwise (f : nat -> V -> V) st st' :
  length st' = length st ->
  (forall id, os_get id st' = f id <$> os_get id st) ->
  os_getAll st' = map (fun p => (fst p, f (fst p) (snd p))) (os_getAll st).
Proof.
  intros Hlen H. apply os_scan_pointwise. intros i. specialize (H (S i)).
  cbn [os_get Nat.add] in H.
  destruct (st !! i) as [o|] eqn:E, (st' !! i) as [o'|] eqn:E'.
  - cbn in H |- *. destruct o, o'; cbn in H |- *; congruence.
  - apply lookup_lt_Some in E. apply lookup_ge_None in E'. lia.
  - apply lookup_lt_Some in E'. apply lookup_ge_None in E. lia.
  - reflexivity.
Qed.
End PutFacts.

Lemma last_index_bound id ids base i :
  last_index id ids base = Some i -> (base <= i)%nat /\ ids !! (i - base)%nat = Some id.
Proof.
  revert base. induction ids as [|x ids IH]; intros base; cbn [last_index]; [discriminate|].
  destruct (last_index id ids (S base)) as [j|] eqn:E.
  - intros [= ->]. destruct (IH _ E) as [H1 H2]. split; [lia|].
    replace (i - base)%nat with (S (i - S base)) by lia. exact H2.
  - destruct (decide (x = id)) as [->|]; [|discriminate].
    intros [= ->]. split; [lia|]. now rewrite Nat.sub_diag.
Qed.

Lemma last_index_last id ids base i j :
  last_index id ids base = Some i -> ids !! j = Some id -> (base + j <= i)%nat.
Proof.
  revert base j. induction ids as [|x ids IH]; intros base j; cbn [last_index]; [discriminate|].
  destruct (last_index id ids (S base)) as [k|] eqn:E.
  - intros [= ->]. destruct j as [|j]; cbn.
    + intros _. apply last_index_bound in E. lia.
    + intros Hj. specialize (IH _ _ E Hj). lia.
  - destruct (decide (x = id)) as [->|]; [|discriminate]. intros [= ->].
    destruct j as [|j]; [lia|]. cbn. intros Hj.
    assert (G : forall b, last_index id ids b = None -> ~ In id ids).
    { clear. induction ids as [|y ids IH]; intros b; cbn; [tauto|].
      destruct (last_index id ids (S b)) eqn:E; [discriminate|].
      destruct (decide (y = id)); [discriminate|]. intros _ [?|?]; [congruence|].
      now apply (IH (S b)). }
    exfalso. apply (G _ E). apply list_elem_of_In. eapply list_elem_of_lookup_2, Hj.
Qed.

Lemma last_index_None id ids base : last_index id ids base = None <-> ~ In id ids.
Proof.
  revert base. induction ids as [|x ids IH]; intros base; cbn [last_index In]; [tauto|].
  destruct (last_index id ids (S base)) eqn:E.
  - split; [discriminate|]. intros H. exfalso. apply H. right.
    apply last_index_bound in E as [_ E]. apply list_elem_of_In.
    eapply list_elem_of_lookup_2, E.
  - apply IH in E. destruct (decide (x = id)); split; try discriminate; try tauto.
Qed.

Lemma last_index_NoDup id ids base i :
  NoDup ids -> ids !! i = Some id -> last_index id ids base = Some (base + i)%nat.
Proof.
  intros Hnd Hi. destruct (last_index id ids base) as [j|] eqn:E.
  - destruct (last_index_bound _ _ _ _ E) as [Hb Hj].
    pose proof (NoDup_lookup _ _ _ _ Hnd Hi Hj). f_equal. lia.
  - apply last_index_None in E. exfalso. apply E, list_elem_of_In.
    eapply list_elem_of_lookup_2, Hi.
Qed.

Section Reorder.
Context {V : Type} (accept : V -> bool) (set_order : Z -> V -> V)
        (store : Db -> list (option V))
        (lift : (list (option V) -> list (option V)) -> Db -> Db).

Hypothesis lift_id : forall d, lift (fun st => st) d = d.
Hypothesis lift_lift : forall f g d, lift f (lift g d) = lift (fun st => f (g st)) d.

Let get (id : nat) (d : Db) : option V := os_get id (store d).
Let put (id : nat) (v : V) : Db -> Db := lift (os_put id v).

(** What the [onsuccess] handler of the [get] at position [index] does. *)
Let handler (st : list (option V)) (x : nat * (nat * option V)) : list (option V) :=
  match snd (snd x) with
  | Some record =>
      if accept record
      then os_put (fst (snd x)) (set_order (Z.of_nat (fst x)) record) st
      else st
  | None => st
  end.

Lemma gets_run (ids : list nat) (d : Db) (c : timestamp) :
  map_m (fun id => request (fun d => (get id d, d))) ids (mkWorld d [] c)
  = (Resolved (map (fun id => get id d) ids), mkWorld d [] c).
Proof.
  induction ids as [|id ids IH]; [reflexivity|].
  eapply map_m_cons_run; [reflexivity|exact IH].
Qed.

Lemma puts_run (l : list (nat * (nat * option V))) (d : Db) (c : timestamp) :
  map_m (fun '(index, (id, r)) =>
           match r with
           | Some record =>
               if accept record
               then request (fun d => (tt, put id (set_order (Z.of_nat index) record) d))
               else ret tt
           | None => ret tt
           end) l (mkWorld d [] c)
  = (Resolved (map (fun _ => tt) l),
     mkWorld (lift (fun st => fold_left handler l st) d) [] c).
Proof.
  revert d. induction l as [|[index [id r]] l IH]; intros d.
  - cbn [map_m map fold_left]. now rewrite lift_id.
  - rewrite map_m_cons_eq. cbn [map fold_left]. unfold handler at 2; cbn [fst snd].
    destruct r as [record|]; [destruct (accept record) eqn:Ea|].
    + change (request (fun d0 => (tt, put id (set_order (Z.of_nat index) record) d0))
                      (mkWorld d [] c))
        with (Resolved tt, mkWorld (put id (set_order (Z.of_nat index) record) d) [] c).
      cbv iota. rewrite IH. unfold put. now rewrite lift_lift.
    + change (ret tt (mkWorld d [] c)) with (Resolved tt, mkWorld d [] c).
      cbv iota. now rewrite IH.
    + change (ret tt (mkWorld d [] c)) with (Resolved tt, mkWorld d [] c).
      cbv iota. now rewrite IH.
Qed.

Lemma reorder_in_run (ids : list nat) (d : Db) (c : timestamp) :
  reorder_in get accept set_order put ids (mkWorld d [] c)
  = (Resolved (map (fun _ => tt) (imap pair (zip ids (map (fun id => get id d) ids)))),
     mkWorld (lift (fun st => fold_left handler
                                (imap pair (zip ids (map (fun id => get id d) ids))) st) d)
             [] c).
Proof.
  unfold reorder_in, transaction.
  rewrite (bind_run _ _ _ _ _ (gets_run ids d c)). now rewrite puts_run.
Qed.

Lemma handlers_get (st0 : list (option V)) (ids : list nat) (b : nat)
      (st : list (option V)) (id : nat) :
  os_get id (fold_left handler
               (imap (fun i x => ((b + i)%nat, x))
                     (zip ids (map (fun id => os_get id st0) ids))) st)
  = match last_index id ids b, os_get id st0 with
    | Some i, Some record =>
        if accept record then Some (set_order (Z.of_nat i) record) else os_get id st
    | _, _ => os_get id st
    end.
Proof.
  revert b st. induction ids as [|x ids IH]; intros b st; [reflexivity|].
  cbn [map zip zip_with]. rewrite imap_cons. cbn [fold_left last_index].
  rewrite (imap_ext _ (fun i y => ((S b + i)%nat, y)))
    by (intros; unfold compose; f_equal; lia).
  rewrite IH. rewrite Nat.add_0_r.
  assert (Hstep : (x <> id \/ os_get id st0 = None
                   \/ (exists r, os_get id st0 = Some r /\ accept r = false)) ->
                  os_get id (handler st (b, (x, os_get x st0))) = os_get id st).
  { intros Hc. unfold handler; cbn [fst snd].
    destruct (os_get x st0) as [r|] eqn:Ex; [|reflexivity].
    destruct (accept r) eqn:Ea; [|reflexivity].
    destruct (decide (x = id)) as [->|Hne]; [|now apply os_get_put_ne].
    destruct Hc as [?|[?|(r' & ? & ?)]]; congruence. }
  destruct (last_index id ids (S b)) as [i|] eqn:El.
  - destruct (os_get id st0) as [r|] eqn:Er; [|apply Hstep; auto].
    destruct (accept r) eqn:Ea; [reflexivity|]. apply Hstep. eauto.
  - destruct (decide (x = id)) as [->|Hne]; [|apply Hstep; auto].
    destruct (os_get id st0) as [r|] eqn:Er; [|apply Hstep; auto].
    destruct (accept r) eqn:Ea; [|apply Hstep; eauto].
    unfold handler; cbn [fst snd]. rewrite Ea.
    apply os_get_put_eq. intros ->. discriminate.
Qed.

Lemma handlers_length (st0 : list (option V)) (ids : list nat) (f : nat -> nat)
      (st : list (option V)) :
  length st = length st0 ->
  length (fold_left handler
            (imap (fun i x => (f i, x)) (zip ids (map (fun id => os_get id st0) ids))) st)
  = length st0.
Proof.
  revert f st. induction ids as [|x ids IH]; intros f st Hlen; [exact Hlen|].
  cbn [map zip zip_with]. rewrite imap_cons. cbn [fold_left].
  apply (IH (fun i => f (S i))). unfold handler; cbn [fst snd].
  destruct (os_get x st0) as [r|] eqn:Ex; [|exact Hlen].
  destruct (accept r); [|exact Hlen].
  rewrite os_put_length; [exact Hlen|]. rewrite Hlen. eapply os_get_bound, Ex.
Qed.

(** The store after a reorder: every record stays under its id, moved to
    the last position its id has in the list. *)
Lemma reorder_store (st0 : list (option V)) (ids : list nat) :
  let st := fold_left handler
              (imap pair (zip ids (map (fun id => os_get id st0) ids))) st0 in
  length st = length st0
  /\ (forall id, os_get id st = moved accept set_order ids id <$> os_get id st0)
  /\ os_getAll st = map (fun p => (fst p, moved accept set_order ids (fst p) (snd p))) (os_getAll st0).
Proof.
  cbv zeta.
  assert (Hlen : length (fold_left handler
                   (imap pair (zip ids (map (fun id => os_get id st0) ids))) st0)
                 = length st0) by (apply (handlers_length st0 ids (fun i => i)); reflexivity).
  assert (Hget : forall id,
             os_get id (fold_left handler
                   (imap pair (zip ids (map (fun id => os_get id st0) ids))) st0)
             = moved accept set_order ids id <$> os_get id st0).
  { intros id. etransitivity; [exact (handlers_get st0 ids 0 st0 id)|]. unfold moved.
    destruct (os_get id st0) as [r|]; [|now destruct (last_index id ids 0)].
    cbn. destruct (last_index id ids 0), (accept r); reflexivity. }
  split; [exact Hlen|]. split; [exact Hget|]. now apply os_getAll_pointwise.
Qed.
End Reorder.

Lemma ascending_NoDup {V} (l : list (nat * V)) :
  StronglySorted (fun a b => (fst a < fst b)%nat) l -> NoDup (map fst l).
Proof.
  induction 1 as [|x l Hl IH Hx]; cbn [map]; constructor; [|exact IH].
  intros Hin. apply list_elem_of_In, in_map_iff in Hin as (y & Hy & Hin).
  rewrite Forall_forall in Hx. apply list_elem_of_In, Hx in Hin. lia.
Qed.

Lemma ascending_filter {V} (P : nat * V -> Prop) `{!forall p, Decision (P p)}
    (l : list (nat * V)) :
  StronglySorted (fun a b => (fst a < fst b)%nat) l ->
  StronglySorted (fun a b => (fst a < fst b)%nat) (filter P l).
Proof.
  induction 1 as [|x l Hl IH Hx]; [constructor|].
  rewrite filter_cons. destruct (decide (P x)); [|exact IH].
  constructor; [exact IH|]. rewrite Forall_forall in Hx |- *.
  intros y Hy. apply list_elem_of_filter in Hy as [_ Hy]. now apply Hx.
Qed.

Lemma sorted_by_position {A} (k : A -> Z) (l : list A) (b : Z) :
  (forall i x, l !! i = Some x -> k x = b + Z.of_nat i) ->
  StronglySorted (fun a c => k a < k c) l.
Proof.
  revert b. induction l as [|x l IH]; intros b H; constructor.
  - apply (IH (b + 1)). intros i y Hy. rewrite (H (S i) y Hy). lia.
  - rewrite Forall_forall. intros y Hy. apply list_elem_of_lookup in Hy as [i Hi].
    rewrite (H O x eq_refl), (H (S i) y Hi). lia.
Qed.

Lemma sorted_strict_fst {V} (key : nat * V -> Z) (idx : nat -> Z) (l : list (nat * V)) :
  StronglySorted (fun a b => key a <= key b) l ->
  (forall p, In p l -> key p = idx (fst p)) ->
  NoDup (map fst l) ->
  (forall a b, In a (map fst l) -> In b (map fst l) -> idx a = idx b -> a = b) ->
  StronglySorted (fun a b => idx a < idx b) (map fst l).
Proof.
  induction 1 as [|x l Hl IH Hx]; intros Hkey Hnd Hinj; cbn [map]; constructor.
  - apply IH.
    + intros p Hp. apply Hkey. now right.
    + now apply NoDup_cons in Hnd.
    + intros a b Ha Hb. apply Hinj; now right.
  - rewrite Forall_forall. intros i Hi.
    apply list_elem_of_In in Hi. pose proof Hi as Hi'.
    apply in_map_iff in Hi as (y & <- & Hy).
    rewrite Forall_forall in Hx. pose proof (Hx y (proj2 (list_elem_of_In _ _) Hy)) as Hle.
    cbv beta in Hle. rewrite (Hkey x), (Hkey y) in Hle by (cbn; auto).
    destruct (Z.eq_dec (idx (fst x)) (idx (fst y))) as [E|]; [|lia].
    apply Hinj in E; [|now left|now right].
    apply NoDup_cons in Hnd as [Hnd _]. exfalso. apply Hnd.
    rewrite E. now apply list_elem_of_In.
Qed.

Section ReorderListing.
Context {V : Type} (order : V -> Z) (set_order : Z -> V -> V) (accept : V -> bool)
        (P : nat * V -> Prop) `{!forall p, Decision (P p)}.

Hypothesis P_accept : forall p, P p <-> accept (snd p) = true.
Hypothesis order_set : forall i v, order (set_order i v) = i.
Hypothesis accept_set : forall i v, accept (set_order i v) = accept v.

Variable ids : list nat.

Let upd (p : nat * V) : nat * V := (fst p, moved accept set_order ids (fst p) (snd p)).

Lemma accept_moved id v : accept (moved accept set_order ids id v) = accept v.
Proof.
  unfold moved. destruct (accept v) eqn:E; [|exact E].
  destruct (last_index id ids 0); [now rewrite accept_set|exact E].
Qed.

Lemma P_upd p : P (upd p) <-> P p.
Proof. rewrite !P_accept. unfold upd; cbn [snd]. now rewrite accept_moved. Qed.

Lemma filter_upd (l : list (nat * V)) : filter P (map upd l) = map upd (filter P l).
Proof.
  induction l as [|p l IH]; [reflexivity|].
  cbn [map]. rewrite !filter_cons.
  destruct (decide (P (upd p))) as [H1|H1], (decide (P p)) as [H2|H2]; cbn [map].
  - now rewrite IH.
  - exfalso. apply H2, P_upd, H1.
  - exfalso. apply H1, P_upd, H2.
  - exact IH.
Qed.

(** Records whose id is not listed keep their relative position. *)
Lemma reorder_untouched (l : list (nat * V)) :
  filter (fun p => fst p ∉ ids) (sort_by_order order (filter P (map upd l)))
  = filter (fun p => fst p ∉ ids) (sort_by_order order (filter P l)).
Proof.
  unfold sort_by_order.
  rewrite !(js_sort_filter (fun a => or0 (order (snd a)))). f_equal.
  rewrite filter_upd. induction (filter P l) as [|p r IH]; [reflexivity|].
  cbn [map]. rewrite !filter_cons.
  destruct (decide (fst (upd p) ∉ ids)) as [H1|H1], (decide (fst p ∉ ids)) as [H2|H2];
    cbn [upd fst] in H1; try contradiction; [|exact IH].
  rewrite IH. f_equal. unfold upd, moved.
  assert (E : last_index (fst p) ids 0 = None).
  { apply last_index_None. intros Hin. apply H2, list_elem_of_In, Hin. }
  rewrite E. destruct p; cbn. now destruct (accept v).
Qed.

(** Listing ids that are exactly those of the scope lists them as given. *)
Lemma reorder_exact (l : list (nat * V)) :
  StronglySorted (fun a b => (fst a < fst b)%nat) l ->
  Permutation ids (map fst (sort_by_order order (filter P l))) ->
  map fst (sort_by_order order (filter P (map upd l))) = ids.
Proof.
  intros Hasc Hperm. unfold sort_by_order in *.
  set (key := fun a : nat * V => or0 (order (snd a))) in *.
  set (idx := fun id => match last_index id ids 0 with
                        | Some i => Z.of_nat i
                        | None => -1
                        end).
  rewrite filter_upd.
  pose proof (js_sort_perm key (filter P l)) as Hp0.
  pose proof (js_sort_perm key (map upd (filter P l))) as Hp1.
  assert (Hids : Permutation ids (map fst (filter P l))).
  { rewrite Hperm. now apply Permutation_map. }
  assert (Hfst : map fst (map upd (filter P l)) = map fst (filter P l)).
  { rewrite map_map. reflexivity. }
  assert (Hnd0 : NoDup (map fst (filter P l))).
  { apply ascending_NoDup. now apply ascending_filter. }
  assert (Hnd : NoDup ids) by (now rewrite Hids).
  assert (Hidx : forall i x, ids !! i = Some x -> idx x = Z.of_nat i).
  { intros i x Hx. unfold idx. now rewrite (last_index_NoDup x ids 0 i Hnd Hx). }
  assert (Hperm1 : Permutation (map fst (js_sort
                      (fun a b => key a - key b) (map upd (filter P l)))) ids).
  { rewrite Hids, <- Hfst. now apply Permutation_map. }
  apply (strictly_sorted_unique idx).
  - apply (sorted_strict_fst key idx).
    + apply js_sort_sorted.
    + intros p Hp. apply (Permutation_in _ Hp1) in Hp.
      apply in_map_iff in Hp as (q & <- & Hq).
      apply list_elem_of_In, list_elem_of_filter in Hq as [HPq Hq].
      unfold key, upd, moved; cbn [fst snd]. rewrite or0_id.
      apply P_accept in HPq. rewrite HPq.
      assert (Hin : In (fst q) ids).
      { apply (Permutation_in _ (Permutation_sym Hids)).
        apply in_map, list_elem_of_In. apply list_elem_of_filter.
        split; [now apply P_accept|exact Hq]. }
      unfold idx. destruct (last_index (fst q) ids 0) eqn:E.
      * apply order_set.
      * apply last_index_None in E. contradiction.
    + change (NoDup (map fst (js_sort (fun a b => key a - key b)
                                      (map upd (filter P l))))).
      now rewrite Hperm1.
    + intros a b Ha Hb E.
      apply (Permutation_in _ Hperm1), list_elem_of_In, list_elem_of_lookup in Ha as [i Hi].
      apply (Permutation_in _ Hperm1), list_elem_of_In, list_elem_of_lookup in Hb as [j Hj].
      rewrite (Hidx _ _ Hi), (Hidx _ _ Hj) in E.
      assert (i = j) by lia. congruence.
  - apply (sorted_by_position idx ids 0). intros i x Hx. rewrite (Hidx i x Hx). lia.
  - intros x. split; intros Hx.
    + exact (Permutation_in _ Hperm1 Hx).
    + exact (Permutation_in _ (Permutation_sym Hperm1) Hx).
Qed.
End ReorderListing.

Lemma position_last_index (ids : list nat) (id i : nat) :
  position_in ids id i -> last_index id ids 0 = Some i.
Proof.
  intros [Hi Hmax]. destruct (last_index id ids 0) as [j|] eqn:E.
  - destruct (last_index_bound _ _ _ _ E) as [_ Hj]. rewrite Nat.sub_0_r in Hj.
    pose proof (Hmax j Hj). pose proof (last_index_last _ _ _ _ _ E Hi). f_equal. lia.
  - apply last_index_None in E. exfalso. apply E, list_elem_of_In.
    eapply list_elem_of_lookup_2, Hi.
Qed.

Section ReorderScope.
Context {V : Type} (order : V -> Z) (set_order : Z -> V -> V) (accept : V -> bool)
        (in_scope : V -> Prop)
        (P : nat * V -> Prop) `{!forall p, Decision (P p)}
        (store : Db -> list (option V))
        (lift : (list (option V) -> list (option V)) -> Db -> Db)
        (list_scope : M (list (nat * V))).

Hypothesis lift_id : forall d, lift (fun st => st) d = d.
Hypothesis lift_lift : forall f g d, lift f (lift g d) = lift (fun st => f (g st)) d.
Hypothesis store_lift : forall f d, store (lift f d) = f (store d).
Hypothesis P_scope : forall p, P p <-> in_scope (snd p).
Hypothesis scope_accept : forall v, in_scope v <-> accept v = true.
Hypothesis order_set : forall i v, order (set_order i v) = i.
Hypothesis accept_set : forall i v, accept (set_order i v) = accept v.
Hypothesis list_run : forall d c,
  list_scope (mkWorld d [] c)
  = (Resolved (sort_by_order order (filter P (os_getAll (store d)))), mkWorld d [] c).

Lemma reorder_scope (ids : list nat) (d : Db) (c : timestamp) :
  reorders set_order in_scope store list_scope
    (reorder_in (fun id d => os_get id (store d)) accept set_order
                (fun id v => lift (os_put id v)) ids)
    ids (mkWorld d [] c).
Proof.
  destruct (reorder_store accept set_order store lift (store d) ids)
    as (Hlen & Hget & Hall).
  pose proof (reorder_in_run accept set_order store lift lift_id lift_lift ids d c) as Hrun.
  assert (HPa : forall p, P p <-> accept (snd p) = true).
  { intros p. now rewrite P_scope, scope_accept. }
  eexists _, _, _, _. split; [apply list_run|]. split; [exact Hrun|].
  split.
  { rewrite length_map, length_imap, length_zip_with_l_eq; [reflexivity|].
    now rewrite length_map. }
  split; [apply list_run|]. cbn [db]. rewrite store_lift.
  repeat split.
  - intros id v i Hv Hin Hpos. rewrite Hget, Hv. cbn. f_equal. unfold moved.
    apply scope_accept in Hin. rewrite Hin. now rewrite (position_last_index _ _ _ Hpos).
  - intros id Hid. rewrite Hget. unfold moved.
    assert (E : last_index id ids 0 = None).
    { apply last_index_None. intros Hin. apply Hid, list_elem_of_In, Hin. }
    rewrite E. destruct (os_get id (store d)) as [v|]; [|reflexivity].
    cbn. now destruct (accept v).
  - intros id v Hv Hout. rewrite Hget, Hv. cbn. f_equal. unfold moved.
    destruct (accept v) eqn:E; [|reflexivity]. exfalso. apply Hout, scope_accept, E.
  - intros id Hv. now rewrite Hget, Hv.
  - rewrite Hall. apply (reorder_exact order set_order accept P HPa order_set accept_set).
    apply os_getAll_ascending.
  - rewrite Hall. apply (reorder_untouched order set_order accept P HPa accept_set).
Qed.
End ReorderScope.

Lemma with_albums_id d : with_albums (fun st => st) d = d.
Proof. now destruct d. Qed.
Lemma with_photos_id d : with_photos (fun st => st) d = d.
Proof. now destruct d. Qed.
Lemma with_essays_id d : with_essays (fun st => st) d = d.
Proof. now destruct d. Qed.
Lemma with_videos_id d : with_videos (fun st => st) d = d.
Proof. now destruct d. Qed.

(** C4. In an environment whose requests do not fail, a reorder with any
    list of ids resolves; every record of the scope whose id is listed gets
    the 0-based position of its id as [order] (the last position, should the
    id be listed twice); ids without a record, records of ids that are not
    listed and, for photos, records of another album are left as they are;
    when the list is a permutation of the ids of the scope the next listing
    returns the records in the order of the list, and in every case the
    records that are not listed keep their relative position. *)
Theorem reorder_positions (w : World) (ids : list nat) :
  faults w = [] ->
  reorders set_album_order (fun _ => True) albumsStore getAllAlbums (reorderAlbums ids) ids w
  /\ (forall albumId,
        reorders set_photo_order (fun p => photo_albumId p = albumId) photosStore
                 (getPhotosByAlbum albumId) (reorderPhotos albumId ids) ids w)
  /\ reorders set_essay_order (fun _ => True) essaysStore getAllEssays (reorderEssays ids) ids w
  /\ reorders set_video_order (fun _ => True) videosStore getAllVideos (reorderVideos ids) ids w.
Proof.
  destruct w as [d fs c]. cbn [faults]. intros ->. repeat split.
  - apply (reorder_scope album_order set_album_order (fun _ => true) (fun _ => True)
             (fun _ => True) albumsStore with_albums getAllAlbums);
      try reflexivity; try tauto; [apply with_albums_id|].
    intros d0 c0. now rewrite filter_True.
  - intros albumId.
    apply (reorder_scope photo_order set_photo_order
             (fun p => bool_decide (photo_albumId p = albumId))
             (fun p => photo_albumId p = albumId)
             (fun p => photo_albumId (snd p) = albumId) photosStore with_photos
             (getPhotosByAlbum albumId));
      try reflexivity; try tauto; [apply with_photos_id|].
    intros v. symmetry. apply bool_decide_eq_true.
  - apply (reorder_scope essay_order set_essay_order (fun _ => true) (fun _ => True)
             (fun _ => True) essaysStore with_essays getAllEssays);
      try reflexivity; try tauto; [apply with_essays_id|].
    intros d0 c0. now rewrite filter_True.
  - apply (reorder_scope video_order set_video_order (fun _ => true) (fun _ => True)
             (fun _ => True) videosStore with_videos getAllVideos);
      try reflexivity; try tauto; [apply with_videos_id|].
    intros d0 c0. now rewrite filter_True.
Qed.

(** ** Import: the version check *)

(** C2. Importing a snapshot whose [version] is absent or anything but the
    current version rejects with the version error and leaves the world
    (every collection) exactly as it was: nothing is touched before the
    check. *)
Theorem import_version_mismatch (data : Snapshot) (w : World) :
  snap_version data <> JNum version ->
  importAll data w = (Rejected (Error "Incompatible data version"), w).
Proof.
  intros Hv. unfold importAll.
  assert (E : negb (truthy (snap_version data))
              || negb (strict_eq (snap_version data) (JNum version)) = true).
  { apply orb_true_iff. right. apply negb_true_iff.
    destruct (snap_version data) as [| |b|z|s0]; try reflexivity.
    cbn [strict_eq]. destruct (Z.eqb_spec z version) as [->|]; [contradiction|reflexivity]. }
  now rewrite E.
Qed.

(** ** Cascading delete *)

Lemma request_cases {A} (f : Db -> A * Db) (w : World) :
  (exists fs, request f w = (Rejected (DOMException "UnknownError"),
                            mkWorld (db w) fs (clock w)))
  \/ (exists fs, request f w = (Resolved (fst (f (db w))),
                               mkWorld (snd (f (db w))) fs (clock w))).
Proof.
  unfold request. destruct (faults w) as [|[|] fs]; [right|left|right]; eexists;
    try reflexivity; now destruct (f (db w)).
Qed.

Lemma os_get_delete_eq {V} id (st : list (option V)) : os_get id (os_delete id st) = None.
Proof.
  destruct id as [|i]; [reflexivity|]. cbn [os_get os_delete].
  destruct (decide (i < length st)%nat).
  - now rewrite list_lookup_insert_eq.
  - rewrite list_insert_ge by lia. now rewrite lookup_ge_None_2 by lia.
Qed.

Lemma os_get_delete_ne {V} id id' (st : list (option V)) :
  id <> id' -> os_get id' (os_delete id st) = os_get id' st.
Proof.
  destruct id as [|i]; [reflexivity|]. destruct id' as [|i']; [reflexivity|].
  intros Hne. cbn [os_get os_delete]. rewrite list_lookup_insert_ne; [reflexivity|congruence].
Qed.




(** ** Videos *)

Lemma os_get_snoc_new {V} (st : list (option V)) (v : V) :
  os_get (S (length st)) st = None /\ os_get (S (length st)) (st ++ [Some v]) = Some v.
Proof.
  cbn [os_get]. split.
  - now rewrite lookup_ge_None_2 by lia.
  - rewrite lookup_app_r by lia. now rewrite Nat.sub_diag.
Qed.

Lemma addVideo_adds (url : string) (info : VideoInfo) (w : World) :
  faults w = [] -> parseVideoUrl url = Some info ->
  adds_video url (vi_provider info) (vi_embedId info) w.
Proof.
  destruct w as [d fs c]. cbn [faults]. intros -> Hinfo.
  eexists _, _, _. rewrite (addVideo_run url info d c Hinfo). cbn [db videosStore with_videos].
  destruct (os_get_snoc_new (videosStore d)
              (mkVideo (vi_provider info) url (vi_embedId info) (vi_title info)
                       (max_order video_order (videos_of d) + 1) c)) as [Hold Hnew].
  split; [reflexivity|]. split; [exact Hold|]. split; [exact Hnew|]. now cbn.
Qed.

(** C7. [addVideo] derives provider and embed id from the URL alone: the
    [youtu.be] URL gives a [youtube] record with id [dQw4w9WgXcQ], the
    [vimeo.com] URL a [vimeo] record with id [897021152] (in an environment
    whose requests do not fail); and for every URL that neither expression
    matches, [https://example.com/x] among them, [addVideo] rejects with the
    invalid-URL error and leaves the world, the videos included, as it was. *)
Theorem add_video_derivation :
  (forall w, faults w = [] ->
             adds_video "https://youtu.be/dQw4w9WgXcQ" youtube "dQw4w9WgXcQ" w)
  /\ (forall w, faults w = [] ->
                adds_video "https://vimeo.com/897021152" vimeo "897021152" w)
  /\ (forall url w,
        js_match youtubeRegex url = None -> js_match vimeoRegex url = None ->
        addVideo url w = (Rejected (Error "Invalid video URL"), w))
  /\ (forall w,
        addVideo "https://example.com/x" w = (Rejected (Error "Invalid video URL"), w)).
Proof.
  assert (Hno : forall url w,
            js_match youtubeRegex url = None -> js_match vimeoRegex url = None ->
            addVideo url w = (Rejected (Error "Invalid video URL"), w)).
  { intros url w Hy Hv. unfold addVideo, parseVideoUrl. now rewrite Hy, Hv. }
  split; [|split; [|split]].
  - intros w Hw.
    exact (addVideo_adds "https://youtu.be/dQw4w9WgXcQ"
             (mkVideoInfo youtube "dQw4w9WgXcQ" None) w Hw eq_refl).
  - intros w Hw.
    exact (addVideo_adds "https://vimeo.com/897021152"
             (mkVideoInfo vimeo "897021152" None) w Hw eq_refl).
  - exact Hno.
  - intros w. now apply Hno.
Qed.

(** C8 (what the code does). Importing a snapshot of the current version
    whose second video URL matches no provider pattern rejects with the
    invalid-URL error: the video is not skipped, and the video after it is
    not imported. *)
Theorem import_stops_at_stale_video :
  exists w',
    importAll snapshot_with_stale_video fresh_world
    = (Rejected (Error "Invalid video URL"), w')
    /\ map (fun v => video_url (snd v)) (videos_of (db w'))
       = ["https://youtu.be/dQw4w9WgXcQ"].
Proof. eexists. split; vm_compute; reflexivity. Qed.

(** ** Export and import *)

Lemma map_m_pure_run {A B} (f : A -> M B) (g : A -> B) (l : list A) (w : World) :
  (forall x, f x w = (Resolved (g x), w)) ->
  map_m f l w = (Resolved (map g l), w).
Proof.
  intros H. induction l as [|x l IH]; [reflexivity|].
  exact (map_m_cons_run _ _ _ _ _ _ _ _ (H x) IH).
Qed.

Lemma export_assets_run d c :
  export_assets (mkWorld d [] c) = (Resolved (asset_docs d), mkWorld d [] c).
Proof. reflexivity. Qed.

Lemma exportAll_run d c :
  exportAll (mkWorld d [] c) = (Resolved (snapshot_of d c), mkWorld d [] (S c)).
Proof.
  unfold exportAll.
  rewrite (bind_run now _ (mkWorld d [] c) (mkWorld d [] (S c)) c eq_refl).
  rewrite (bind_run _ _ _ _ _ (export_assets_run d (S c))).
  rewrite (bind_run _ _ _ _ _ (getAllAlbums_run d (S c))).
  rewrite (bind_run _ _ _ _ _ (getAllAlbums_run d (S c))).
  erewrite bind_run.
  2:{ apply (map_m_pure_run _ (fun album => map photo_doc (photos_of (fst album) d))).
      intros album. now rewrite (bind_run _ _ _ _ _ (getPhotosByAlbum_run (fst album) d (S c))). }
  rewrite (bind_run _ _ _ _ _ (getAllEssays_run d (S c))).
  rewrite (bind_run _ _ _ _ _ (getAllVideos_run d (S c))).
  reflexivity.
Qed.

Lemma clearAllData_run d c :
  clearAllData (mkWorld d [] c) = (Resolved [tt; tt; tt; tt; tt], mkWorld (cleared d) [] c).
Proof. reflexivity. Qed.






Lemma for_each_cons_run {S A} (f : A -> St S unit) (x : A) (l : list A) (w w' : S)
    (out : result unit * S) :
  f x w = (Resolved tt, w') -> for_each l f w' = out -> for_each (x :: l) f w = out.
Proof. intros H1 H2. cbn [for_each]. now rewrite (bind_run _ _ _ _ _ H1). Qed.

(** *** Assets *)





(** *** The album id map *)




(** *** Photos *)




(** *** Albums, essays and videos *)




(** *** Groups of photos *)





(** *** The round trip *)

Lemma sort_by_order_perm {V} (order : V -> Z) (l : list (nat * V)) :
  Permutation (sort_by_order order l) l.
Proof. apply (js_sort_perm (fun a => or0 (order (snd a)))). Qed.

Lemma in_photos_of albumId d (p : nat * Photo) :
  In p (photos_of albumId d) ->
  photo_albumId (snd p) = albumId /\ os_get (fst p) (photosStore d) = Some (snd p).
Proof.
  intros Hp. apply (Permutation_in _ (sort_by_order_perm _ _)) in Hp.
  apply list_elem_of_In, list_elem_of_filter in Hp as [Hid Hp]. split; [exact Hid|].
  apply in_os_getAll. destruct p. now apply list_elem_of_In.
Qed.

Lemma in_albums_of d (a : nat * Album) :
  In a (albums_of d) <-> os_get (fst a) (albumsStore d) = Some (snd a).
Proof.
  rewrite <- in_os_getAll. destruct a as [id a]. cbn [fst snd]. split; intros H.
  - exact (Permutation_in _ (sort_by_order_perm _ _) H).
  - exact (Permutation_in _ (Permutation_sym (sort_by_order_perm _ _)) H).
Qed.





Lemma cleared_lists d :
  albums_of (cleared d) = [] /\ (forall albumId, photos_of albumId (cleared d) = [])
  /\ essays_of (cleared d) = [] /\ videos_of (cleared d) = []
  /\ os_getAll (photosStore (cleared d)) = [].
Proof.
  unfold albums_of, photos_of, photos_in, essays_of, videos_of, cleared.
  cbn [albumsStore photosStore essaysStore videosStore].
  rewrite !os_getAll_clear. repeat split.
Qed.






(** ** The mirror *)

Section MirrorFacts.
Context {R : Type} (fb : Firebase R).

Lemma keeps_ret {A} (a : A) : keeps_store (R := R) (ret a).
Proof. intros s r s' [= <- <-]. auto. Qed.

Lemma keeps_throw {A} (e : exn) : keeps_store (R := R) (A := A) (throw e).
Proof. intros s r s' [= <- <-]. auto. Qed.

Lemma keeps_bind {A B} (m : St (Mirror R) A) (k : A -> St (Mirror R) B) :
  keeps_store m -> (forall a, keeps_store (k a)) -> keeps_store (bind m k).
Proof.
  intros Hm Hk s r s'. unfold bind. destruct (m s) as [[a|e] s1] eqn:E.
  - intros H. destruct (Hm _ _ _ E) as [H1 H2]. destruct (Hk a _ _ _ H) as [H3 H4].
    split; congruence.
  - intros [= <- <-]. exact (Hm _ _ _ E).
Qed.

Lemma keeps_try {A} (m : St (Mirror R) A) (h : exn -> St (Mirror R) A) :
  keeps_store m -> (forall e, keeps_store (h e)) -> keeps_store (try_catch m h).
Proof.
  intros Hm Hh s r s'. unfold try_catch. destruct (m s) as [[a|e] s1] eqn:E.
  - intros [= <- <-]. exact (Hm _ _ _ E).
  - intros H. destruct (Hm _ _ _ E) as [H1 H2]. destruct (Hh e _ _ _ H) as [H3 H4].
    split; congruence.
Qed.

Lemma keeps_remote {A} (m : St R A) : keeps_store (FirebaseDatabase.remote m).
Proof.
  intros s r s'. unfold FirebaseDatabase.remote. destruct (m (cloud s)).
  intros [= <- <-]. auto.
Qed.

Lemma keeps_now : keeps_store (R := R) (FirebaseDatabase.local now).
Proof. intros s r s' [= <- <-]. auto. Qed.

Lemma keeps_Date_now : keeps_store (R := R) FirebaseDatabase.Date_now.
Proof.
  apply keeps_bind; [apply keeps_now|]. intros t. apply keeps_ret.
Qed.

Lemma keeps_for_each {A} (l : list A) (f : A -> St (Mirror R) unit) :
  (forall x, keeps_store (f x)) -> keeps_store (for_each l f).
Proof.
  intros Hf. induction l as [|x l IH]; cbn [for_each]; [apply keeps_ret|].
  apply keeps_bind; [apply Hf|]. intros _. exact IH.
Qed.

Lemma keeps_forEach_async {A} (l : list A) (f : A -> St (Mirror R) unit) :
  (forall x, keeps_store (f x)) -> keeps_store (FirebaseDatabase.forEach_async l f).
Proof.
  intros Hf. apply keeps_for_each. intros x.
  apply keeps_try; [apply Hf|]. intros _. apply keeps_ret.
Qed.

Lemma only_ret {S A} (a : A) : only_returns (S := S) a (ret a).
Proof. now intros s v s' [= <- _]. Qed.

Lemma only_throw {S A} (a : A) (e : exn) : only_returns (S := S) a (throw e).
Proof. intros s v s' H. discriminate H. Qed.

Lemma only_bind {S A B} (b : B) (m : St S A) (k : A -> St S B) :
  (forall a, only_returns b (k a)) -> only_returns b (bind m k).
Proof.
  intros Hk s v s'. unfold bind. destruct (m s) as [[a|e] s1]; [apply Hk|discriminate].
Qed.

Lemma only_try {S A} (a : A) (m : St S A) (h : exn -> St S A) :
  only_returns a m -> (forall e, only_returns a (h e)) -> only_returns a (try_catch m h).
Proof.
  intros Hm Hh s v s'. unfold try_catch. destruct (m s) as [[x|e] s1] eqn:E.
  - intros [= <- <-]. exact (Hm _ _ _ E).
  - apply Hh.
Qed.

Lemma only_unit {S} (m : St S unit) : only_returns tt m.
Proof. intros s [] s' _. reflexivity. Qed.

(** The shape of every mirrored write: the local operation first; then,
    only when sync is enabled, a cloud part inside [try]/[catch] that hands
    back what the method returns anyway. *)
Lemma local_first {A B} (L : M A) (g : A -> B) (C : A -> St (Mirror R) B) (s : Mirror R) :
  (forall a, keeps_store (C a)) ->
  (forall a, only_returns (g a) (C a)) ->
  forall r s',
    (x <- FirebaseDatabase.local L ;;
     sync <- FirebaseDatabase.get_syncEnabled ;;
     if negb sync then ret (g x) else try_catch (C x) (fun _ => ret (g x))) s = (r, s') ->
    db (localDb s') = db (snd (L (localDb s)))
    /\ faults (localDb s') = faults (snd (L (localDb s)))
    /\ r = map_result g (fst (L (localDb s)))
    /\ (syncEnabled s = false -> s' = mkMirror (snd (L (localDb s))) (cloud s) false).
Proof.
  intros HC Hg r s'. unfold bind, FirebaseDatabase.local, FirebaseDatabase.get_syncEnabled.
  destruct (L (localDb s)) as [[a|e] w']; cbn [fst snd map_result syncEnabled].
  2:{ intros [= <- <-]. cbn. repeat split; auto. intros E. now rewrite <- E; destruct s. }
  destruct (syncEnabled s) eqn:Es; cbn [negb].
  - unfold try_catch.
    destruct (C a (mkMirror w' (cloud s) true)) as [[b|e] s1] eqn:E.
    + intros [= <- <-]. destruct (HC a _ _ _ E) as [H1 H2].
      rewrite (Hg a _ _ _ E). repeat split; auto. discriminate.
    + intros [= <- <-]. destruct (HC a _ _ _ E) as [H1 H2].
      repeat split; auto. discriminate.
  - intros [= <- <-]. repeat split; auto.
Qed.
End MirrorFacts.

Ltac keeps :=
  repeat first
    [ apply keeps_ret | apply keeps_throw | apply keeps_remote | apply keeps_now
    | apply keeps_Date_now
    | apply keeps_forEach_async; intros ?
    | apply keeps_for_each; intros ?
    | apply keeps_try; [|intros ?]
    | apply keeps_bind; [|intros ?]
    | match goal with
      | |- keeps_store (match ?x with _ => _ end) => destruct x
      end ].

Ltac returns_only :=
  repeat first
    [ apply only_unit | apply only_ret | apply only_throw
    | apply only_try; [|intros ?]
    | apply only_bind; intros ?
    | match goal with
      | |- only_returns _ (match ?x with _ => _ end) => destruct x
      end ].

Lemma returning_run {S A} (f : A -> Value) (m : St S A) (s : S) :
  returning f m s = (map_result f (fst (m s)), snd (m s)).
Proof. unfold returning, bind. now destruct (m s) as [[a|e] s']. Qed.

Lemma local_run {R A} (m : M A) (s : Mirror R) :
  FirebaseDatabase.local m s
  = (fst (m (localDb s)), mkMirror (snd (m (localDb s))) (cloud s) (syncEnabled s)).
Proof. unfold FirebaseDatabase.local. now destruct (m (localDb s)). Qed.

(** Every mirrored write against the local operation it wraps, whatever the
    remote side does. *)
Lemma mirrored_write {R} (fb : Firebase R) (op : Op) (s : Mirror R) :
  mutating_passthrough op = true ->
  db (localDb (snd (run_mirror fb op s))) = db (snd (run_local op (localDb s)))
  /\ faults (localDb (snd (run_mirror fb op s))) = faults (snd (run_local op (localDb s)))
  /\ fst (run_mirror fb op s) = handed_back op (fst (run_local op (localDb s)))
  /\ (syncEnabled s = false ->
      snd (run_mirror fb op s) = mkMirror (snd (run_local op (localDb s))) (cloud s) false).
Proof.
  intros Hm.
  assert (Hpass : forall A (f : A -> Value) (L : M A),
            let out := returning f (FirebaseDatabase.local L) s in
            let loc := returning f L (localDb s) in
            db (localDb (snd out)) = db (snd loc)
            /\ faults (localDb (snd out)) = faults (snd loc)
            /\ fst out = fst loc
            /\ (syncEnabled s = false -> snd out = mkMirror (snd loc) (cloud s) false)).
  { intros A f L. cbv zeta. rewrite !returning_run, local_run. cbn [fst snd localDb].
    repeat split. now intros <-. }
  assert (Hfirst : forall A B (f : B -> Value) (f' : A -> Value) (g : A -> B)
                     (L : M A) (C : A -> St (Mirror R) B),
            (forall a, keeps_store (C a)) -> (forall a, only_returns (g a) (C a)) ->
            let out := returning f
                         (x <- FirebaseDatabase.local L ;;
                          sync <- FirebaseDatabase.get_syncEnabled ;;
                          if negb sync then ret (g x)
                          else try_catch (C x) (fun _ => ret (g x))) s in
            let loc := returning f' L (localDb s) in
            db (localDb (snd out)) = db (snd loc)
            /\ faults (localDb (snd out)) = faults (snd loc)
            /\ fst out = map_result f (map_result g (fst (L (localDb s))))
            /\ (syncEnabled s = false -> snd out = mkMirror (snd loc) (cloud s) false)).
  { intros A B f f' g L C HC Hg. cbv zeta. rewrite !returning_run. cbn [fst snd].
    destruct (local_first L g C s HC Hg _ _ (surjective_pairing _)) as (H1 & H2 & H3 & H4).
    rewrite H3. auto. }
  destruct op; try discriminate Hm; cbn [run_mirror run_local handed_back];
    try apply Hpass.
  - (* putAsset *)
    edestruct (Hfirst _ _ undefined VAssetKey (fun _ : string => tt)
                 (Database.putAsset key file)) as (H1 & H2 & H3 & H4);
      [| |split; [exact H1|split; [exact H2|split; [|exact H4]]]].
    + intros a. cbv beta. keeps.
    + intros a. cbv beta. returns_only.
    + etransitivity; [exact H3|]. rewrite returning_run. cbn [fst].
      now destruct (fst (Database.putAsset key file (localDb s))).
  - (* createAlbum *)
    edestruct (Hfirst _ _ VKey VKey (fun id : nat => id)
                 (Database.createAlbum name)) as (H1 & H2 & H3 & H4);
      [| |split; [exact H1|split; [exact H2|split; [|exact H4]]]].
    + intros a. cbv beta. keeps.
    + intros a. cbv beta. returns_only.
    + etransitivity; [exact H3|]. rewrite returning_run. cbn [fst].
      now destruct (fst (Database.createAlbum name (localDb s))).
  - (* deleteAlbum *)
    edestruct (Hfirst _ _ undefined undefined (fun _ : unit => tt)
                 (Database.deleteAlbum id)) as (H1 & H2 & H3 & H4);
      [| |split; [exact H1|split; [exact H2|split; [|exact H4]]]].
    + intros a. cbv beta. keeps.
    + intros a. cbv beta. returns_only.
    + etransitivity; [exact H3|]. rewrite returning_run. cbn [fst].
      now destruct (fst (Database.deleteAlbum id (localDb s))).
  - (* addEssay *)
    edestruct (Hfirst _ _ VKey VKey (fun id : nat => id)
                 (Database.addEssay file title)) as (H1 & H2 & H3 & H4);
      [| |split; [exact H1|split; [exact H2|split; [|exact H4]]]].
    + intros a. cbv beta. keeps.
    + intros a. cbv beta. returns_only.
    + etransitivity; [exact H3|]. rewrite returning_run. cbn [fst].
      now destruct (fst (Database.addEssay file title (localDb s))).
  - (* deleteEssay *)
    edestruct (Hfirst _ _ undefined undefined (fun _ : unit => tt)
                 (Database.deleteEssay id)) as (H1 & H2 & H3 & H4);
      [| |split; [exact H1|split; [exact H2|split; [|exact H4]]]].
    + intros a. cbv beta. keeps.
    + intros a. cbv beta. returns_only.
    + etransitivity; [exact H3|]. rewrite returning_run. cbn [fst].
      now destruct (fst (Database.deleteEssay id (localDb s))).
  - (* addVideo *)
    edestruct (Hfirst _ _ VKey VKey (fun id : nat => id)
                 (Database.addVideo url)) as (H1 & H2 & H3 & H4);
      [| |split; [exact H1|split; [exact H2|split; [|exact H4]]]].
    + intros a. cbv beta. keeps.
    + intros a. cbv beta. returns_only.
    + etransitivity; [exact H3|]. rewrite returning_run. cbn [fst].
      now destruct (fst (Database.addVideo url (localDb s))).
  - (* deleteVideo *)
    edestruct (Hfirst _ _ undefined undefined (fun _ : unit => tt)
                 (Database.deleteVideo id)) as (H1 & H2 & H3 & H4);
      [| |split; [exact H1|split; [exact H2|split; [|exact H4]]]].
    + intros a. cbv beta. keeps.
    + intros a. cbv beta. returns_only.
    + etransitivity; [exact H3|]. rewrite returning_run. cbn [fst].
      now destruct (fst (Database.deleteVideo id (localDb s))).
Qed.

(** C9 (as amended). For every mutating passthrough of the mirror and
    whatever the remote side does (failures included), the collections of
    the local store end up exactly as the local operation alone leaves
    them, and the caller gets the local outcome: the same value or the same
    rejection; only [putAsset] resolves with [undefined] where the local
    [putAsset] resolves with the key. *)
Theorem mirror_local_first {R} (fb : Firebase R) (op : Op) (s : Mirror R) :
  mutating_passthrough op = true ->
  db (localDb (snd (run_mirror fb op s))) = db (snd (run_local op (localDb s)))
  /\ faults (localDb (snd (run_mirror fb op s))) = faults (snd (run_local op (localDb s)))
  /\ fst (run_mirror fb op s) = handed_back op (fst (run_local op (localDb s))).
Proof.
  intros Hm. destruct (mirrored_write fb op s Hm) as (H1 & H2 & H3 & _). auto.
Qed.

(** C9 (as stated) fails: with sync enabled and a remote side that cannot
    be reached, the mirror's [putAsset] does not return what the local
    [putAsset] returns. *)
Lemma mirror_putAsset_result_differs :
  ~ (forall R (fb : Firebase R) (op : Op) (s : Mirror R),
       mutating_passthrough op = true ->
       fst (run_mirror fb op s) = fst (run_local op (localDb s))).
Proof.
  intros H.
  specialize (H unit unreachable_firebase (OpPutAsset "favicon" sample_photo)
                (sample_mirror true fresh_world) eq_refl).
  vm_compute in H. discriminate H.
Qed.

Ltac mirror_read Hs :=
  rewrite !returning_run;
  unfold bind, ret, FirebaseDatabase.get_syncEnabled, FirebaseDatabase.local;
  rewrite Hs; cbn [fst snd];
  match goal with
  | |- context [?L (localDb ?s)] =>
      destruct (L (localDb s)) as [[?|?] ?]; cbn [fst snd map_result]; now rewrite ?Hs
  end.

(** C10 (as amended). With sync disabled, every operation of the mirror
    leaves the local world exactly as the local operation alone does, does
    not touch the remote side, and gives the caller the local outcome; only
    [putAsset] resolves with [undefined] where the local [putAsset] resolves
    with the key. *)
Theorem mirror_disabled_passthrough {R} (fb : Firebase R) (op : Op) (s : Mirror R) :
  syncEnabled s = false ->
  snd (run_mirror fb op s) = mkMirror (snd (run_local op (localDb s))) (cloud s) false
  /\ fst (run_mirror fb op s) = handed_back op (fst (run_local op (localDb s))).
Proof.
  intros Hs. destruct (mutating_passthrough op) eqn:Hm.
  { destruct (mirrored_write fb op s Hm) as (_ & _ & H3 & H4). auto. }
  destruct op; try discriminate Hm; cbn [run_mirror run_local handed_back].
  - unfold FirebaseDatabase.getAsset. mirror_read Hs.
  - unfold FirebaseDatabase.getAllAlbums. mirror_read Hs.
  - unfold FirebaseDatabase.getPhotosByAlbum. mirror_read Hs.
  - unfold FirebaseDatabase.getAllEssays. mirror_read Hs.
  - unfold FirebaseDatabase.getAllVideos. mirror_read Hs.
  - unfold FirebaseDatabase.exportAll. mirror_read Hs.
  - unfold FirebaseDatabase.importAll. mirror_read Hs.
  - unfold FirebaseDatabase.initializeDefaultVideos. mirror_read Hs.
Qed.

(** C10 (as stated) fails: with sync disabled the mirror's [putAsset] still
    does not return what the local [putAsset] returns. *)
Lemma disabled_mirror_putAsset_differs :
  ~ (forall R (fb : Firebase R) (op : Op) (s : Mirror R),
       syncEnabled s = false ->
       fst (run_mirror fb op s) = fst (run_local op (localDb s))).
Proof.
  intros H.
  specialize (H unit unreachable_firebase (OpPutAsset "headerLogo" sample_pdf)
                (sample_mirror false sample_world) eq_refl).
  vm_compute in H. discriminate H.
Qed.

(** ** The properties on the sample states *)

Lemma list_reads_sorted_witness :
  faults sample_world = []
  /\ lists_scope photo_order (photos_in 1 (db sample_world))
                 (getPhotosByAlbum 1 sample_world) sample_world.
Proof.
  split; [reflexivity|].
  apply (proj1 (proj2 (list_reads_sorted sample_world eq_refl))).
Defined.

Lemma creates_in_order_witness :
  faults sample_world = []
  /\ exists created,
       created_in_order album_order getAllAlbums
                        (map_m createAlbum ["Work"; "Sketches"]) sample_world created
       /\ map (fun a => album_name (snd a)) created = ["Work"; "Sketches"].
Proof.
  split; [reflexivity|].
  apply (proj1 (creates_in_order sample_world eq_refl)).
Defined.

Lemma reorder_positions_witness :
  faults sample_world = []
  /\ reorders set_album_order (fun _ => True) albumsStore getAllAlbums
              (reorderAlbums [2; 1]%nat) [2; 1]%nat sample_world.
Proof.
  split; [reflexivity|].
  apply (proj1 (reorder_positions sample_world [2; 1]%nat eq_refl)).
Defined.

Lemma import_version_mismatch_witness :
  snap_version newer_snapshot <> JNum version
  /\ snap_version unversioned_snapshot <> JNum version
  /\ importAll newer_snapshot sample_world
     = (Rejected (Error "Incompatible data version"), sample_world)
  /\ importAll unversioned_snapshot sample_world
     = (Rejected (Error "Incompatible data version"), sample_world).
Proof.
  assert (H1 : snap_version newer_snapshot <> JNum version) by (vm_compute; discriminate).
  assert (H2 : snap_version unversioned_snapshot <> JNum version) by (vm_compute; discriminate).
  split; [exact H1|]. split; [exact H2|]. split.
  - exact (import_version_mismatch newer_snapshot sample_world H1).
  - exact (import_version_mismatch unversioned_snapshot sample_world H2).
Defined.


Lemma add_video_derivation_witness :
  faults sample_world = []
  /\ adds_video "https://youtu.be/dQw4w9WgXcQ" youtube "dQw4w9WgXcQ" sample_world
  /\ js_match youtubeRegex "ftp://videos.example.org/clip.mp4" = None
  /\ js_match vimeoRegex "ftp://videos.example.org/clip.mp4" = None
  /\ addVideo "ftp://videos.example.org/clip.mp4" sample_world
     = (Rejected (Error "Invalid video URL"), sample_world).
Proof.
  split; [reflexivity|].
  split; [apply (proj1 add_video_derivation sample_world); reflexivity|].
  split; [reflexivity|]. split; [reflexivity|].
  apply (proj1 (proj2 (proj2 add_video_derivation))); reflexivity.
Defined.


Lemma mirror_local_first_witness :
  mutating_passthrough (OpCreateAlbum "Work") = true
  /\ db (localDb (snd (run_mirror unreachable_firebase (OpCreateAlbum "Work")
                                  (sample_mirror true sample_world))))
     = db (snd (run_local (OpCreateAlbum "Work")
                          (localDb (sample_mirror true sample_world))))
  /\ faults (localDb (snd (run_mirror unreachable_firebase (OpCreateAlbum "Work")
                                      (sample_mirror true sample_world))))
     = faults (snd (run_local (OpCreateAlbum "Work")
                              (localDb (sample_mirror true sample_world))))
  /\ fst (run_mirror unreachable_firebase (OpCreateAlbum "Work")
                     (sample_mirror true sample_world))
     = handed_back (OpCreateAlbum "Work")
         (fst (run_local (OpCreateAlbum "Work")
                         (localDb (sample_mirror true sample_world)))).
Proof.
  split; [reflexivity|].
  exact (mirror_local_first unreachable_firebase (OpCreateAlbum "Work")
           (sample_mirror true sample_world) eq_refl).
Defined.

Lemma mirror_disabled_passthrough_witness :
  syncEnabled (sample_mirror false sample_world) = false
  /\ snd (run_mirror unreachable_firebase OpGetAllAlbums (sample_mirror false sample_world))
     = mkMirror (snd (run_local OpGetAllAlbums (localDb (sample_mirror false sample_world))))
                (cloud (sample_mirror false sample_world)) false
  /\ fst (run_mirror unreachable_firebase OpGetAllAlbums (sample_mirror false sample_world))
     = handed_back OpGetAllAlbums
         (fst (run_local OpGetAllAlbums (localDb (sample_mirror false sample_world)))).
Proof.
  split; [reflexivity|].
  exact (mirror_disabled_passthrough unreachable_firebase OpGetAllAlbums
           (sample_mirror false sample_world) eq_refl).
Defined.

(* ===================================================================== *)
(** * Part III: further properties of the code                            *)
(* ===================================================================== *)

(** * Part III: further properties of the code *)

(** ** Outcomes under request faults *)

Section Steps.
Context (Rel : Db -> Db -> Prop) `{!Reflexive Rel} `{!Transitive Rel}.

Lemma steps_ret {A} (a : A) : steps Rel (ret a).
Proof. intros w r w' [= <- <-]. reflexivity. Qed.

Lemma steps_throw {A} (e : exn) : steps (A := A) Rel (throw e).
Proof. intros w r w' [= <- <-]. reflexivity. Qed.

Lemma steps_now : steps Rel now.
Proof. intros w r w' [= <- <-]. reflexivity. Qed.

Lemma steps_bind {A B} (m : M A) (k : A -> M B) :
  steps Rel m -> (forall a, steps Rel (k a)) -> steps Rel (bind m k).
Proof.
  intros Hm Hk w r w'. unfold bind. destruct (m w) as [[a|e] w1] eqn:E.
  - intros H. etransitivity; [exact (Hm _ _ _ E)|exact (Hk _ _ _ _ H)].
  - intros [= <- <-]. exact (Hm _ _ _ E).
Qed.

Lemma steps_try {A} (m : M A) (h : exn -> M A) :
  steps Rel m -> (forall e, steps Rel (h e)) -> steps Rel (try_catch m h).
Proof.
  intros Hm Hh w r w'. unfold try_catch. destruct (m w) as [[a|e] w1] eqn:E.
  - intros [= <- <-]. exact (Hm _ _ _ E).
  - intros H. etransitivity; [exact (Hm _ _ _ E)|exact (Hh _ _ _ _ H)].
Qed.

Lemma steps_request {A} (f : Db -> A * Db) :
  (forall d, Rel d (snd (f d))) -> steps Rel (request f).
Proof.
  intros Hf w r w'. destruct (request_cases f w) as [[fs ->]|[fs ->]];
    intros [= <- <-]; cbn [db]; [reflexivity|apply Hf].
Qed.

Lemma steps_transaction {A} (m : M A) : steps Rel m -> steps Rel (transaction m).
Proof.
  intros Hm w r w'. unfold transaction. destruct (m w) as [[a|e] w1] eqn:E.
  - intros [= <- <-]. exact (Hm _ _ _ E).
  - intros [= <- <-]. reflexivity.
Qed.

Lemma steps_for_each {A} (l : list A) (f : A -> M unit) :
  (forall x, steps Rel (f x)) -> steps Rel (for_each l f).
Proof.
  intros Hf. induction l as [|x l IH]; cbn [for_each]; [apply steps_ret|].
  apply steps_bind; [apply Hf|intros _; exact IH].
Qed.

Lemma steps_map_m {A B} (l : list A) (f : A -> M B) :
  (forall x, steps Rel (f x)) -> steps Rel (map_m f l).
Proof.
  intros Hf. induction l as [|x l IH]; cbn [map_m]; [apply steps_ret|].
  apply steps_bind; [apply Hf|intros y].
  apply steps_bind; [exact IH|intros ys; apply steps_ret].
Qed.
End Steps.

(** ** Assets *)

(** X1. [putAsset] followed by [getAsset] of the same key gives back the
    file that was put, with its type as [mime]; the other keys and the four
    record stores are as before; a [putAsset] that rejects changes nothing. *)
Theorem asset_put_get (key : string) (file : Blob) (w : World) :
  (faults w = [] ->
   exists w',
     putAsset key file w = (Resolved key, w')
     /\ getAsset key w'
        = (Resolved (Some (mkAsset key file (blob_type file) (clock w))), w')
     /\ (forall key', key' <> key ->
           getAsset key' w' = (Resolved (assetsStore (db w) !! key'), w'))
     /\ same_records (db w) (db w'))
  /\ (forall e w', putAsset key file w = (Rejected e, w') -> db w' = db w).
Proof.
  split.
  - destruct w as [d fs c]. cbn [faults db clock]. intros ->.
    exists (mkWorld (with_assets <[key := mkAsset key file (blob_type file) c]> d) [] (S c)).
    split; [reflexivity|]. unfold getAsset, request. cbn.
    split; [now rewrite lookup_insert_eq|]. split; [|now repeat split].
    intros key' Hne. now rewrite lookup_insert_ne.
  - intros e w'. unfold putAsset, bind, now.
    match goal with
    | |- context [request ?f ?w0] =>
        destruct (request_cases f w0) as [[fs ->]|[fs ->]]
    end; [|discriminate].
    now intros [= _ <-].
Qed.

(** ** Renaming *)

Lemma sort_insert_In {A} (cmp : A -> A -> Z) (x y : A) (l : list A) :
  In y (sort_insert cmp x l) -> y = x \/ In y l.
Proof.
  induction l as [|z l IH]; cbn [sort_insert].
  - intros [<-|[]]. now left.
  - destruct (cmp x z <=? 0).
    + intros [<-|H]; [now left|now right].
    + intros [<-|H]; [right; now left|]. destruct (IH H); [now left|right; now right].
Qed.

Lemma js_sort_In {A} (cmp : A -> A -> Z) (y : A) (l : list A) :
  In y (js_sort cmp l) -> In y l.
Proof.
  induction l as [|x l IH]; [intros []|].
  cbn [js_sort foldr]. intros H. apply sort_insert_In in H as [->|H]; [now left|].
  right. now apply IH.
Qed.

Lemma js_sort_map {A B} (cmp : A -> A -> Z) (cmp' : B -> B -> Z) (f : A -> B) (l : list A) :
  (forall a b, In a l -> In b l -> cmp' (f a) (f b) = cmp a b) ->
  js_sort cmp' (map f l) = map f (js_sort cmp l).
Proof.
  induction l as [|x l IH]; intros H; [reflexivity|].
  cbn [map js_sort foldr]. fold (js_sort cmp' (map f l)). fold (js_sort cmp l).
  rewrite IH by (intros a b Ha Hb; apply H; now right).
  assert (G : forall y, In y (js_sort cmp l) -> cmp' (f x) (f y) = cmp x y).
  { intros y Hy. apply H; [now left|right; now apply js_sort_In in Hy]. }
  revert G. generalize (js_sort cmp l). intros s.
  induction s as [|y s IHs]; intros G; [reflexivity|].
  cbn [map sort_insert]. rewrite G by now left. destruct (cmp x y <=? 0); [reflexivity|].
  cbn [map]. rewrite IHs; [reflexivity|]. intros z Hz. apply G. now right.
Qed.

(** The listing after one stored record was replaced by one of the same
    [order]: the same listing, with that record replaced in place. *)
Lemma listing_replace {V} (order : V -> Z) (id : nat) (old new : V) (st : list (option V)) :
  os_get id st = Some old -> order new = order old ->
  sort_by_order order (os_getAll (os_put id new st))
  = map (fun p => if decide (fst p = id) then (id, new) else p)
        (sort_by_order order (os_getAll st)).
Proof.
  intros Hget Horder.
  set (upd := fun (i : nat) (v : V) => if decide (i = id) then new else v).
  assert (Hall : os_getAll (os_put id new st)
                 = map (fun p => (fst p, upd (fst p) (snd p))) (os_getAll st)).
  { apply os_getAll_pointwise.
    - apply os_put_length. eapply os_get_bound, Hget.
    - intros i. unfold upd. destruct (decide (i = id)) as [->|Hne].
      + rewrite os_get_put_eq, Hget; [reflexivity|].
        apply os_get_bound in Hget. lia.
      + rewrite os_get_put_ne by congruence. now destruct (os_get i st). }
  assert (Hupd : forall a, In a (os_getAll st) -> order (upd (fst a) (snd a)) = order (snd a)).
  { intros [i v] Hin. cbn [fst snd]. unfold upd. destruct (decide (i = id)) as [->|]; [|reflexivity].
    apply in_os_getAll in Hin. congruence. }
  rewrite Hall. unfold sort_by_order.
  rewrite (js_sort_map (fun a b => or0 (order (snd a)) - or0 (order (snd b)))).
  - apply map_ext. intros [i v]. cbn [fst snd]. unfold upd.
    now destruct (decide (i = id)) as [->|].
  - intros a b Ha Hb. cbn [snd fst]. now rewrite (Hupd a Ha), (Hupd b Hb).
Qed.

Lemma rename_rejects_whole {A} (m : M A) (w : World) (e : exn) (w' : World) :
  transaction m w = (Rejected e, w') -> db w' = db w.
Proof.
  unfold transaction. destruct (m w) as [[a|e'] w1]; [discriminate|]. now intros [= _ <-].
Qed.

(** X2. Renaming an album or an essay that does not exist rejects with the
    not-found error and changes nothing.  Renaming one that exists resolves
    with its id, and the listing afterwards is the listing before with that
    one record carrying the new name and the time of the change: its
    [order], its creation time and its place in the listing are kept, and
    nothing else in the database changes.  A rename that rejects for any
    reason leaves the database as it was. *)
Theorem rename_in_place (id : nat) (text : string) (w : World) :
  (faults w = [] ->
   match os_get id (albumsStore (db w)) with
   | None => renameAlbum id text w = (Rejected (Error "Album not found"), w)
   | Some a =>
       exists w',
         renameAlbum id text w = (Resolved id, w')
         /\ albums_of (db w')
            = map (fun p => if decide (fst p = id)
                            then (id, mkAlbum text (album_order a) (album_createdAt a)
                                              (Some (clock w)))
                            else p) (albums_of (db w))
         /\ db w' = with_albums (fun _ => albumsStore (db w')) (db w)
   end)
  /\ (faults w = [] ->
      match os_get id (essaysStore (db w)) with
      | None => renameEssay id text w = (Rejected (Error "Essay not found"), w)
      | Some e =>
          exists w',
            renameEssay id text w = (Resolved id, w')
            /\ essays_of (db w')
               = map (fun p => if decide (fst p = id)
                               then (id, mkEssay text (essay_pdfBlob e) (essay_mime e)
                                                 (essay_size e) (essay_order e)
                                                 (essay_createdAt e) (Some (clock w)))
                               else p) (essays_of (db w))
            /\ db w' = with_essays (fun _ => essaysStore (db w')) (db w)
      end)
  /\ (forall e w', renameAlbum id text w = (Rejected e, w') -> db w' = db w)
  /\ (forall e w', renameEssay id text w = (Rejected e, w') -> db w' = db w).
Proof.
  split; [|split; [|split]].
  - destruct w as [d fs c]. cbn [faults db clock]. intros ->.
    destruct (os_get id (albumsStore d)) as [a|] eqn:Hget.
    + exists (mkWorld (with_albums (os_put id (mkAlbum text (album_order a) (album_createdAt a)
                                                        (Some c))) d) [] (S c)).
      split; [|split; [|reflexivity]].
      * unfold renameAlbum, transaction, bind, request. cbn. rewrite Hget. reflexivity.
      * cbn [db]. unfold albums_of. cbn [albumsStore with_albums].
        now apply (listing_replace album_order id a).
    + unfold renameAlbum, transaction, bind, request. cbn. now rewrite Hget.
  - destruct w as [d fs c]. cbn [faults db clock]. intros ->.
    destruct (os_get id (essaysStore d)) as [e|] eqn:Hget.
    + exists (mkWorld (with_essays (os_put id (mkEssay text (essay_pdfBlob e) (essay_mime e)
                                                 (essay_size e) (essay_order e)
                                                 (essay_createdAt e) (Some c))) d) [] (S c)).
      split; [|split; [|reflexivity]].
      * unfold renameEssay, transaction, bind, request. cbn. rewrite Hget. reflexivity.
      * cbn [db]. unfold essays_of. cbn [essaysStore with_essays].
        now apply (listing_replace essay_order id e).
    + unfold renameEssay, transaction, bind, request. cbn. now rewrite Hget.
  - intros e w'. apply rename_rejects_whole.
  - intros e w'. apply rename_rejects_whole.
Qed.

(** ** Deleting one record *)

Lemma os_scan_delete {V} (k i : nat) (st : list (option V)) :
  os_scan k (<[i := None]> st) = filter (fun p => fst p <> (k + i)%nat) (os_scan k st).
Proof.
  revert k i. induction st as [|o st IH]; intros k i; [reflexivity|].
  assert (Hrest : filter (fun p : nat * V => fst p <> (k + 0)%nat) (os_scan (S k) st)
                  = os_scan (S k) st).
  { apply filter_all. destruct (os_scan_ascending (S k) st) as [Hge _].
    eapply Forall_impl; [exact Hge|]. intros p Hp. cbn in Hp. lia. }
  destruct i as [|i]; cbn [insert list_insert os_scan].
  - destruct o as [v|]; [|now rewrite Hrest].
    rewrite filter_cons_False by (cbn; lia). now rewrite Hrest.
  - rewrite IH. replace (S k + i)%nat with (k + S i)%nat by lia.
    destruct o as [v|]; [|reflexivity].
    rewrite filter_cons_True by (cbn; lia). reflexivity.
Qed.

Lemma os_getAll_delete {V} (id : nat) (st : list (option V)) :
  os_getAll (os_delete id st) = filter (fun p => fst p <> id) (os_getAll st).
Proof.
  unfold os_getAll. destruct id as [|i]; cbn [os_delete].
  - symmetry. apply filter_all. destruct (os_scan_ascending 1 st) as [Hge _].
    eapply Forall_impl; [exact Hge|]. intros p Hp. cbn in Hp. lia.
  - apply (os_scan_delete 1 i).
Qed.

Lemma os_delete_missing {V} (id : nat) (st : list (option V)) :
  os_get id st = None -> os_delete id st = st.
Proof.
  destruct id as [|i]; [reflexivity|]. cbn [os_get os_delete]. intros H.
  destruct (st !! i) as [[v|]|] eqn:E; [discriminate| |].
  - now apply list_insert_id.
  - apply list_insert_ge. now apply lookup_ge_None.
Qed.

Lemma listing_delete {V} (order : V -> Z) (P : nat * V -> Prop) `{!forall p, Decision (P p)}
    (id : nat) (st : list (option V)) :
  sort_by_order order (filter P (os_getAll (os_delete id st)))
  = filter (fun p => fst p <> id) (sort_by_order order (filter P (os_getAll st))).
Proof.
  rewrite os_getAll_delete. unfold sort_by_order.
  rewrite (js_sort_filter (fun a => or0 (order (snd a)))).
  f_equal. rewrite !list_filter_filter. apply list_filter_iff. intros p. tauto.
Qed.

(** X3. Deleting one photo, essay or video always resolves when the
    request goes through, whether the id exists or not.  The listings
    afterwards are the listings before without the record of that id, the
    other records in the same relative order; when no record has the id,
    the database is exactly as before; the stores of the other kinds are
    never touched. *)
Theorem delete_one_record (id : nat) (w : World) :
  faults w = [] ->
  (exists w',
     removePhoto id w = (Resolved tt, w')
     /\ (forall albumId, photos_of albumId (db w')
                         = filter (fun p => fst p <> id) (photos_of albumId (db w)))
     /\ db w' = with_photos (fun _ => photosStore (db w')) (db w)
     /\ (os_get id (photosStore (db w)) = None -> db w' = db w))
  /\ (exists w',
        deleteEssay id w = (Resolved tt, w')
        /\ essays_of (db w') = filter (fun p => fst p <> id) (essays_of (db w))
        /\ db w' = with_essays (fun _ => essaysStore (db w')) (db w)
        /\ (os_get id (essaysStore (db w)) = None -> db w' = db w))
  /\ (exists w',
        deleteVideo id w = (Resolved tt, w')
        /\ videos_of (db w') = filter (fun p => fst p <> id) (videos_of (db w))
        /\ db w' = with_videos (fun _ => videosStore (db w')) (db w)
        /\ (os_get id (videosStore (db w)) = None -> db w' = db w)).
Proof.
  destruct w as [d fs c]. cbn [faults db]. intros ->. split; [|split].
  - exists (mkWorld (with_photos (os_delete id) d) [] c).
    split; [reflexivity|]. cbn [db]. split; [|split; [reflexivity|]].
    + intros albumId. unfold photos_of, photos_in. cbn [photosStore with_photos].
      apply (listing_delete photo_order (fun p => photo_albumId (snd p) = albumId)).
    + intros H. destruct d. unfold with_photos. cbn in *. now rewrite os_delete_missing.
  - exists (mkWorld (with_essays (os_delete id) d) [] c).
    split; [reflexivity|]. cbn [db]. split; [|split; [reflexivity|]].
    + unfold essays_of. cbn [essaysStore with_essays].
      pose proof (listing_delete essay_order (fun _ => True) id (essaysStore d)) as H.
      now rewrite !filter_True in H.
    + intros H. destruct d. unfold with_essays. cbn in *. now rewrite os_delete_missing.
  - exists (mkWorld (with_videos (os_delete id) d) [] c).
    split; [reflexivity|]. cbn [db]. split; [|split; [reflexivity|]].
    + unfold videos_of. cbn [videosStore with_videos].
      pose proof (listing_delete video_order (fun _ => True) id (videosStore d)) as H.
      now rewrite !filter_True in H.
    + intros H. destruct d. unfold with_videos. cbn in *. now rewrite os_delete_missing.
Qed.

(** ** Clearing and importing *)

Lemma request_bind_cases {A B} (f : Db -> A * Db) (k : A -> M B) (w : World)
    (r : result B) (w' : World) :
  (x <- request f ;; k x) w = (r, w') ->
  (exists e fs, r = Rejected e /\ w' = mkWorld (db w) fs (clock w))
  \/ (exists fs, k (fst (f (db w))) (mkWorld (snd (f (db w))) fs (clock w)) = (r, w')).
Proof.
  unfold bind. destruct (request_cases f w) as [[fs ->]|[fs ->]].
  - intros [= <- <-]. left. eauto.
  - intros H. right. eauto.
Qed.

Lemma clearAllData_cases (w : World) (r : result (list unit)) (w' : World) :
  clearAllData w = (r, w') ->
  (exists e, r = Rejected e /\ db w' = db w)
  \/ (r = Resolved [tt; tt; tt; tt; tt] /\ db w' = cleared (db w)).
Proof.
  unfold clearAllData, transaction.
  match goal with |- context [match ?m w with _ => _ end] => destruct (m w) as [[u|e] w1] eqn:E end.
  2:{ intros [= <- <-]. left. eauto. }
  intros [= <- <-]. right.
  repeat (apply request_bind_cases in E as [(? & ? & ? & _)|[? E]]; [discriminate|];
          cbn [fst snd db clock] in E).
  unfold ret in E. injection E as <- <-. split; reflexivity.
Qed.

(** X4. [clearAllData] is all or nothing: when it resolves, no asset is
    left and every listing is empty; when it rejects (one of its five
    requests failed) the database is as it was.  Without request faults it
    resolves. *)
Theorem clear_all_or_nothing (w : World) :
  (forall r w', clearAllData w = (r, w') ->
     (exists e, r = Rejected e /\ db w' = db w)
     \/ (r = Resolved [tt; tt; tt; tt; tt]
         /\ assetsStore (db w') = ∅
         /\ albums_of (db w') = []
         /\ (forall albumId, photos_of albumId (db w') = [])
         /\ essays_of (db w') = []
         /\ videos_of (db w') = []))
  /\ (faults w = [] -> exists w', clearAllData w = (Resolved [tt; tt; tt; tt; tt], w')).
Proof.
  split.
  - intros r w' H. apply clearAllData_cases in H as [H|[-> H]]; [now left|right].
    rewrite H. destruct (cleared_lists (db w)) as (Ha & Hp & He & Hv & _).
    repeat split; assumption.
  - destruct w as [d fs c]. cbn [faults]. intros ->. eexists. apply clearAllData_run.
Qed.

Section Growth.
Context (keys : list string).

#[local] Instance grown_refl : Reflexive (grown keys).
Proof.
  intros d. repeat split; try (exists []; now rewrite app_nil_r). intros key H. now left.
Qed.

#[local] Instance grown_trans : Transitive (grown keys).
Proof.
  intros d1 d2 d3 ([l1 H1] & [l2 H2] & [l3 H3] & [l4 H4] & H5)
                  ([k1 G1] & [k2 G2] & [k3 G3] & [k4 G4] & G5).
  repeat split.
  - exists (l1 ++ k1). now rewrite G1, H1, app_assoc.
  - exists (l2 ++ k2). now rewrite G2, H2, app_assoc.
  - exists (l3 ++ k3). now rewrite G3, H3, app_assoc.
  - exists (l4 ++ k4). now rewrite G4, H4, app_assoc.
  - intros key H. destruct (G5 key H) as [G|G]; [now apply H5|now right].
Qed.

Lemma grown_read {A} (f : Db -> A) : steps (grown keys) (request (fun d => (f d, d))).
Proof. apply steps_request; [apply grown_refl|]. intros d. cbn. reflexivity. Qed.

Lemma grown_getAllAlbums : steps (grown keys) getAllAlbums.
Proof.
  apply steps_bind; try typeclasses eauto; [apply grown_read|].
  intros a. apply steps_ret. typeclasses eauto.
Qed.

Lemma grown_getPhotosByAlbum albumId : steps (grown keys) (getPhotosByAlbum albumId).
Proof.
  apply steps_bind; try typeclasses eauto; [apply grown_read|].
  intros a. apply steps_ret. typeclasses eauto.
Qed.

Lemma grown_getAllEssays : steps (grown keys) getAllEssays.
Proof.
  apply steps_bind; try typeclasses eauto; [apply grown_read|].
  intros a. apply steps_ret. typeclasses eauto.
Qed.

Lemma grown_getAllVideos : steps (grown keys) getAllVideos.
Proof.
  apply steps_bind; try typeclasses eauto; [apply grown_read|].
  intros a. apply steps_ret. typeclasses eauto.
Qed.

Lemma grown_putAsset key file : In key keys -> steps (grown keys) (putAsset key file).
Proof.
  intros Hkey. apply steps_bind; try typeclasses eauto; [apply steps_now; typeclasses eauto|].
  intros t. apply steps_request; [typeclasses eauto|]. intros d. cbn [snd].
  repeat split; try (exists []; now rewrite app_nil_r).
  intros key' H. cbn [assetsStore with_assets] in H.
  destruct (decide (key' = key)) as [->|Hne]; [now right|].
  rewrite lookup_insert_ne in H by congruence. now left.
Qed.

Lemma grown_createAlbum name : steps (grown keys) (createAlbum name).
Proof.
  apply steps_bind; try typeclasses eauto; [apply grown_getAllAlbums|]. intros albums.
  apply steps_bind; try typeclasses eauto; [apply steps_now; typeclasses eauto|].
  intros t. apply steps_request; [typeclasses eauto|]. intros d. cbn.
  repeat split; try (exists []; now rewrite app_nil_r); eauto.
Qed.

Lemma grown_addPhoto albumId file : steps (grown keys) (addPhoto albumId file).
Proof.
  apply steps_bind; try typeclasses eauto; [apply grown_getPhotosByAlbum|]. intros photos.
  apply steps_bind; try typeclasses eauto; [apply steps_now; typeclasses eauto|].
  intros t. apply steps_request; [typeclasses eauto|]. intros d. cbn.
  repeat split; try (exists []; now rewrite app_nil_r); eauto.
Qed.

Lemma grown_addEssay file title : steps (grown keys) (addEssay file title).
Proof.
  apply steps_bind; try typeclasses eauto; [apply grown_getAllEssays|]. intros essays.
  apply steps_bind; try typeclasses eauto; [apply steps_now; typeclasses eauto|].
  intros t. apply steps_request; [typeclasses eauto|]. intros d. cbn.
  repeat split; try (exists []; now rewrite app_nil_r); eauto.
Qed.

Lemma grown_addVideo url : steps (grown keys) (addVideo url).
Proof.
  unfold addVideo. destruct (parseVideoUrl url) as [info|]; [|apply steps_throw; typeclasses eauto].
  apply steps_bind; try typeclasses eauto; [apply grown_getAllVideos|]. intros videos.
  apply steps_bind; try typeclasses eauto; [apply steps_now; typeclasses eauto|].
  intros t. apply steps_request; [typeclasses eauto|]. intros d. cbn.
  repeat split; try (exists []; now rewrite app_nil_r); eauto.
Qed.

Lemma grown_decode {B} (base64 mime : string) (k : Blob -> M B) :
  (forall blob, steps (grown keys) (k blob)) ->
  steps (grown keys) (blob <- decode_blob base64 mime ;; k blob).
Proof.
  intros Hk. apply steps_bind; try typeclasses eauto; [|exact Hk].
  unfold decode_blob. destruct (base64ToBlob base64 mime);
    [apply steps_ret|apply steps_throw]; typeclasses eauto.
Qed.

Lemma steps_for_each_in {A} (Rel : Db -> Db -> Prop) `{!Reflexive Rel} `{!Transitive Rel}
    (l : list A) (f : A -> M unit) :
  (forall x, In x l -> steps Rel (f x)) -> steps Rel (for_each l f).
Proof.
  induction l as [|x l IH]; intros Hf; cbn [for_each]; [now apply steps_ret|].
  apply steps_bind; try assumption; [apply Hf; now left|].
  intros _. apply IH. intros y Hy. apply Hf. now right.
Qed.
End Growth.

Lemma unit_then {A} (Rel : Db -> Db -> Prop) `{!Reflexive Rel} `{!Transitive Rel} (m : M A) :
  steps Rel m -> steps Rel (m ;;; ret tt).
Proof. intros H. apply steps_bind; try assumption. intros _. now apply steps_ret. Qed.

Lemma import_grows (data : Snapshot) :
  steps (grown (map fst (snap_assets data)))
    (for_each (snap_assets data) import_asset ;;;
     for_each (snap_albums data) import_album ;;;
     newAlbums <- getAllAlbums ;;
     let albumIdMap := album_id_map (snap_albums data) newAlbums in
     for_each (snap_photos data) (import_photo albumIdMap) ;;;
     for_each (snap_essays data) import_essay ;;;
     for_each (snap_videos data) import_video).
Proof.
  set (keys := map fst (snap_assets data)).
  pose proof (grown_refl keys) as Hr. pose proof (grown_trans keys) as Ht.
  apply steps_bind; try assumption.
  { apply steps_for_each_in; try assumption. intros [key doc] Hin. unfold import_asset.
    destruct (str_truthy (ad_data doc)); [|now apply steps_ret].
    apply grown_decode. intros blob. apply unit_then; try assumption.
    apply grown_putAsset. apply (in_map fst) in Hin. exact Hin. }
  intros _. apply steps_bind; try assumption.
  { apply steps_for_each; try assumption. intros album. apply unit_then; try assumption.
    apply grown_createAlbum. }
  intros _. apply steps_bind; try assumption; [apply grown_getAllAlbums|].
  intros newAlbums. cbv zeta. apply steps_bind; try assumption.
  { apply steps_for_each; try assumption. intros photo. unfold import_photo.
    destruct (album_id_map (snap_albums data) newAlbums !! pd_albumId photo) as [newId|];
      [|now apply steps_ret].
    destruct (str_truthy (pd_data photo) && negb (newId =? 0)%nat); [|now apply steps_ret].
    apply grown_decode. intros blob. apply unit_then; try assumption. apply grown_addPhoto. }
  intros _. apply steps_bind; try assumption.
  { apply steps_for_each; try assumption. intros essay. unfold import_essay.
    destruct (str_truthy (ed_data essay)); [|now apply steps_ret].
    apply grown_decode. intros blob. apply unit_then; try assumption. apply grown_addEssay. }
  intros _. apply steps_for_each; try assumption. intros video.
  apply unit_then; try assumption. apply grown_addVideo.
Qed.

Lemma cleared_slot {V} (st l : list (option V)) (id : nat) :
  is_Some (os_get id st) -> os_get id (os_clear st ++ l) = None.
Proof.
  intros [v Hv]. apply os_get_bound in Hv. destruct id as [|i]; [lia|]. cbn [os_get].
  rewrite lookup_app_l by (rewrite os_clear_length; lia).
  unfold os_clear. rewrite lookup_replicate_2 by lia. reflexivity.
Qed.

(** X5. An import of a document of the current version is not atomic.
    Either it fails while clearing, and the database is as it was; or the
    clearing went through, and then, whether the import completes or
    rejects on the way (an undecodable entry, an unrecognised video URL,
    a failing request), no record that was in the database is there any
    more and the assets are among the keys of the document.  Without
    request faults it is always the second. *)
Theorem import_discards_previous (data : Snapshot) (w : World)
    (r : result unit) (w' : World) :
  snap_version data = JNum version ->
  importAll data w = (r, w') ->
  ((exists e, r = Rejected e) /\ db w' = db w /\ faults w <> [])
  \/ nothing_left (map fst (snap_assets data)) (db w) (db w').
Proof.
  intros Hv. unfold importAll. rewrite Hv.
  change (negb (truthy (JNum version)) || negb (strict_eq (JNum version) (JNum version)))
    with false. cbv iota. unfold bind at 1.
  destruct (clearAllData w) as [[u|e] w1] eqn:E.
  - apply clearAllData_cases in E as [(e & He & _)|[_ E]]; [discriminate|].
    intros H. right. apply import_grows in H. rewrite E in H.
    destruct H as ([l1 H1] & [l2 H2] & [l3 H3] & [l4 H4] & H5).
    cbn [cleared albumsStore photosStore essaysStore videosStore assetsStore] in *.
    repeat split.
    + intros id Hid. rewrite H1. now apply cleared_slot.
    + intros id Hid. rewrite H2. now apply cleared_slot.
    + intros id Hid. rewrite H3. now apply cleared_slot.
    + intros id Hid. rewrite H4. now apply cleared_slot.
    + intros key Hkey. destruct (H5 key Hkey) as [G|G]; [|exact G].
      rewrite lookup_empty in G. now destruct G.
  - intros [= <- <-]. left. split; [eauto|].
    destruct (faults w) eqn:Ef.
    + destruct w as [d fs c]. cbn [faults] in Ef. subst fs.
      rewrite clearAllData_run in E. discriminate.
    + apply clearAllData_cases in E as [(e' & _ & E)|[E _]]; [|discriminate].
      split; [exact E|discriminate].
Qed.

(** ** What an export holds *)

Lemma photos_of_elem albumId d (p : nat * Photo) :
  In p (photos_of albumId d)
  <-> photo_albumId (snd p) = albumId /\ os_get (fst p) (photosStore d) = Some (snd p).
Proof.
  split; [apply in_photos_of|]. intros [Hid Hget].
  apply (Permutation_in _ (Permutation_sym (sort_by_order_perm _ _))).
  apply list_elem_of_In, list_elem_of_filter. split; [exact Hid|].
  apply list_elem_of_In. destruct p as [id p]. now apply in_os_getAll.
Qed.

(** X6. Without request faults [exportAll] resolves and leaves the
    database as it is.  The document carries the current version, the
    albums and the videos as listed, one entry per essay as listed, and
    - of the assets, those under the three fixed keys and no other;
    - of the photos, those whose album exists and no other: a photo that
      was added to an album id without an album is left out. *)
Theorem export_contents (w : World) :
  faults w = [] ->
  exists data w',
    exportAll w = (Resolved data, w')
    /\ db w' = db w
    /\ snap_version data = JNum version
    /\ snap_albums data = albums_of (db w)
    /\ snap_videos data = videos_of (db w)
    /\ snap_essays data = map essay_doc (essays_of (db w))
    /\ (forall key doc,
          In (key, doc) (snap_assets data)
          <-> In key assetKeys
              /\ exists a, assetsStore (db w) !! key = Some a
                   /\ doc = mkAssetDoc (asset_key a) (blobToBase64 (asset_blob a))
                                       (asset_mime a) (asset_updatedAt a))
    /\ (forall doc,
          In doc (snap_photos data)
          <-> exists id p, os_get id (photosStore (db w)) = Some p
                /\ is_Some (os_get (photo_albumId p) (albumsStore (db w)))
                /\ doc = photo_doc (id, p)).
Proof.
  destruct w as [d fs c]. cbn [faults db]. intros ->.
  exists (snapshot_of d c), (mkWorld d [] (S c)).
  split; [apply exportAll_run|]. cbn [db snapshot_of snap_version snap_albums snap_videos
                                       snap_essays snap_assets snap_photos].
  repeat (split; [reflexivity|]). split.
  - intros key doc. unfold asset_docs. rewrite <- list_elem_of_In, list_elem_of_omap.
    split.
    + intros (k & Hk & Hdoc). destruct (assetsStore d !! k) as [a|] eqn:E; [|discriminate].
      injection Hdoc as <- <-. split; [now apply list_elem_of_In|]. eauto.
    + intros (Hk & a & Ha & ->). exists key. split; [now apply list_elem_of_In|].
      now rewrite Ha.
  - intros doc. rewrite in_concat. split.
    + intros (g & Hg & Hdoc). apply in_map_iff in Hg as (album & <- & Halbum).
      apply in_map_iff in Hdoc as ([id p] & <- & Hp).
      apply photos_of_elem in Hp as [Hid Hget]. cbn [fst snd] in *.
      exists id, p. split; [exact Hget|]. split; [|reflexivity].
      apply in_albums_of in Halbum. rewrite Hid. eauto.
    + intros (id & p & Hget & [a Ha] & ->).
      exists (map photo_doc (photos_of (photo_albumId p) d)). split.
      * apply (in_map (fun album => map photo_doc (photos_of (fst album) d))
                      (albums_of d) (photo_albumId p, a)).
        now apply in_albums_of.
      * apply in_map. now apply photos_of_elem.
Qed.

(** ** The blob codec, as export and import use it *)



Lemma string_of_list_ascii_length (l : list ascii) :
  String.length (string_of_list_ascii l) = length l.
Proof. induction l as [|c l IH]; [reflexivity|]. cbn. now rewrite IH. Qed.


Lemma split_comma_head (cur a r1 r2 : list ascii) :
  nth 0 (split_comma cur (a ++ ","%char :: r1)) ""
  = nth 0 (split_comma cur (a ++ ","%char :: r2)) "".
Proof.
  revert cur. induction a as [|c a IH]; intros cur; cbn [app split_comma].
  - now rewrite Ascii.eqb_refl.
  - destruct (Ascii.eqb c ","); [reflexivity|apply IH].
Qed.

Lemma split_comma_second (cur p s : list ascii) :
  forallb (fun c => negb (Ascii.eqb c ",")) p = true ->
  nth 1 (split_comma cur (p ++ ","%char :: s)) "" = nth 0 (split_comma [] s) "".
Proof.
  revert cur. induction p as [|c p IH]; intros cur Hp; cbn [app split_comma].
  - now rewrite Ascii.eqb_refl.
  - cbn [forallb] in Hp. apply andb_prop in Hp as [Hc Hp]. apply negb_true_iff in Hc.
    rewrite Hc. now apply IH.
Qed.

Lemma first_comma (l : list ascii) :
  forallb (fun c => negb (Ascii.eqb c ",")) l = false ->
  exists p q, l = p ++ ","%char :: q /\ forallb (fun c => negb (Ascii.eqb c ",")) p = true.
Proof.
  induction l as [|c l IH]; [discriminate|]. cbn [forallb].
  destruct (Ascii.eqb_spec c ",") as [->|Hne]; cbn [negb andb].
  - intros _. now exists [], l.
  - intros H. destruct (IH H) as (p & q & -> & Hp). exists (c :: p), q.
    split; [reflexivity|]. cbn [forallb]. rewrite Hp.
    now destruct (Ascii.eqb_spec c ",").
Qed.

(** X8. For a blob whose type does hold a comma, the text that
    [blobToBase64] returns is cut out of the type, not out of the content:
    it is the same whatever the bytes of the blob are. *)
Theorem blob_text_of_comma_type (b : Blob) (bytes : list byte) :
  comma_free (blob_type b) = false ->
  blobToBase64 b = blobToBase64 (mkBlob bytes (blob_type b)).
Proof.
  intros Hty. unfold blobToBase64, readAsDataURL. cbn [blob_type blob_bytes].
  rewrite !list_ascii_of_string_app, !list_ascii_of_string_of_list_ascii.
  destruct (first_comma _ Hty) as (p & q & -> & Hp).
  change (list_ascii_of_string ";base64,")
    with (list_ascii_of_string ";base64" ++ [","%char]).
  rewrite <- !app_assoc. cbn [app].
  rewrite !(app_assoc (list_ascii_of_string "data:") p).
  rewrite !split_comma_second by (rewrite forallb_app; now rewrite Hp).
  rewrite !(app_assoc q). apply split_comma_head.
Qed.

(** ** Video URLs *)

Section MatcherFacts.
Context {R : Type}.

Lemma star_k_sound cl s (k : list ascii -> option R) x :
  star_k cl s k = Some x ->
  exists a s', s = a ++ s' /\ forallb (class_matches cl) a = true /\ k s' = Some x.
Proof.
  induction s as [|c s IH]; cbn [star_k].
  - intros H. now exists [], [].
  - destruct (class_matches cl c) eqn:Hc; [|intros H; now exists [], (c :: s)].
    destruct (star_k cl s k) as [y|] eqn:E.
    + intros [= ->]. destruct (IH eq_refl) as (a & s' & -> & Ha & Hk).
      exists (c :: a), s'. cbn [forallb app]. now rewrite Hc, Ha.
    + intros H. now exists [], (c :: s).
Qed.

Lemma star_k_complete cl a s' (k : list ascii -> option R) :
  forallb (class_matches cl) a = true -> k s' <> None -> star_k cl (a ++ s') k <> None.
Proof.
  intros Ha Hk. induction a as [|c a IH]; cbn [app].
  - destruct s' as [|c s']; cbn [star_k]; [exact Hk|].
    destruct (class_matches cl c); [|exact Hk]. now destruct (star_k cl s' k).
  - cbn [forallb] in Ha. apply andb_prop in Ha as [Hc Ha]. cbn [star_k]. rewrite Hc.
    specialize (IH Ha). now destruct (star_k cl (a ++ s') k).
Qed.

(** When whatever follows is accepted, [c*] takes the whole run. *)
Lemma star_k_greedy cl s (k : list ascii -> option R) x :
  (forall t, k t <> None) -> star_k cl s k = Some x ->
  exists a s', s = a ++ s' /\ forallb (class_matches cl) a = true /\ k s' = Some x
               /\ match s' with c :: _ => class_matches cl c = false | [] => True end.
Proof.
  intros Hk. induction s as [|c s IH]; cbn [star_k].
  - intros H. now exists [], [].
  - destruct (class_matches cl c) eqn:Hc; [|intros H; now exists [], (c :: s)].
    destruct (star_k cl s k) as [y|] eqn:E.
    + intros [= ->]. destruct (IH eq_refl) as (a & s' & -> & Ha & Hk' & Hs').
      exists (c :: a), s'. cbn [forallb app]. now rewrite Hc, Ha.
    + exfalso. revert E. replace s with ([] ++ s) by reflexivity.
      change (star_k cl ([] ++ s) k <> None). destruct s as [|d s]; cbn [app star_k].
      * apply Hk.
      * clear IH. destruct (class_matches cl d); [|apply Hk].
        destruct (star_k cl s k); [discriminate|apply Hk].
Qed.

Lemma rep_k_sound n cl s (k : list ascii -> option R) x :
  rep_k n cl s k = Some x ->
  exists a s', s = a ++ s' /\ length a = n /\ forallb (class_matches cl) a = true
               /\ k s' = Some x.
Proof.
  revert s. induction n as [|n IH]; intros s; cbn [rep_k].
  - intros H. now exists [], s.
  - destruct s as [|c s]; [discriminate|]. destruct (class_matches cl c) eqn:Hc; [|discriminate].
    intros H. destruct (IH _ H) as (a & s' & -> & <- & Ha & Hk).
    exists (c :: a), s'. cbn [forallb app length]. now rewrite Hc, Ha.
Qed.

Lemma rep_k_complete cl a s' (k : list ascii -> option R) :
  forallb (class_matches cl) a = true -> rep_k (length a) cl (a ++ s') k = k s'.
Proof.
  induction a as [|c a IH]; [reflexivity|]. cbn [forallb length app rep_k].
  intros H. apply andb_prop in H as [Hc Ha]. rewrite Hc. now apply IH.
Qed.

Lemma strip_prefix_sound p s s' : strip_prefix p s = Some s' -> s = p ++ s'.
Proof.
  revert s. induction p as [|c p IH]; intros s; cbn [strip_prefix app].
  - now intros [= ->].
  - destruct s as [|d s]; [discriminate|]. destruct (Ascii.eqb_spec c d) as [->|]; [|discriminate].
    intros H. now rewrite (IH _ H).
Qed.

Lemma strip_prefix_complete p s' : strip_prefix p (p ++ s') = Some s'.
Proof. induction p as [|c p IH]; [reflexivity|]. cbn. now rewrite Ascii.eqb_refl. Qed.

(** What the matcher accepts is in the language of the expression. *)
Lemma match_k_sound r s cap (k : list ascii -> option (list ascii) -> option R) x :
  match_k r s cap k = Some x ->
  exists a s' cap', s = a ++ s' /\ lang r a /\ k s' cap' = Some x.
Proof.
  revert s cap k. induction r as [l|cl|r1 IH1 r2 IH2|r1 IH1 r2 IH2|r1 IH1|cl|cl|n cl|r1 IH1];
    intros s cap k; cbn [match_k lang].
  - destruct (strip_prefix (list_ascii_of_string l) s) as [s'|] eqn:E; [|discriminate].
    intros H. apply strip_prefix_sound in E. eauto 6.
  - destruct s as [|c s]; [discriminate|]. destruct (class_matches cl c) eqn:Hc; [|discriminate].
    intros H. exists [c], s, cap. eauto 6.
  - intros H. apply IH1 in H as (a1 & s1 & cap1 & -> & H1 & H).
    apply IH2 in H as (a2 & s2 & cap2 & -> & H2 & H).
    exists (a1 ++ a2), s2, cap2. rewrite <- app_assoc. eauto 8.
  - destruct (match_k r1 s cap k) as [y|] eqn:E.
    + intros [= ->]. apply IH1 in E as (a & s' & cap' & -> & H1 & H). eauto 8.
    + intros H. apply IH2 in H as (a & s' & cap' & -> & H1 & H). eauto 8.
  - destruct (match_k r1 s cap k) as [y|] eqn:E.
    + intros [= ->]. apply IH1 in E as (a & s' & cap' & -> & H1 & H). eauto 8.
    + intros H. exists [], s, cap. eauto.
  - intros H. apply star_k_sound in H as (a & s' & -> & Ha & H). eauto 8.
  - destruct s as [|c s]; [discriminate|]. destruct (class_matches cl c) eqn:Hc; [|discriminate].
    intros H. apply star_k_sound in H as (a & s' & -> & Ha & H).
    exists (c :: a), s', cap. cbn [forallb]. rewrite Hc, Ha. repeat split; congruence.
  - intros H. apply rep_k_sound in H as (a & s' & -> & Hn & Ha & H). eauto 8.
  - intros H. apply IH1 in H as (a & s' & cap' & -> & H1 & H). eauto 8.
Qed.

(** A text of the language, followed by something the continuation
    accepts with whatever was captured, is matched. *)
Lemma match_k_complete r a s' cap (k : list ascii -> option (list ascii) -> option R) :
  lang r a -> (forall cap', k s' cap' <> None) -> match_k r (a ++ s') cap k <> None.
Proof.
  revert a s' cap k.
  induction r as [l|cl|r1 IH1 r2 IH2|r1 IH1 r2 IH2|r1 IH1|cl|cl|n cl|r1 IH1];
    intros a s' cap k; cbn [match_k lang].
  - intros -> Hk. now rewrite strip_prefix_complete.
  - intros (c & -> & Hc) Hk. cbn [app]. now rewrite Hc.
  - intros (a1 & a2 & -> & H1 & H2) Hk. rewrite <- app_assoc.
    apply IH1; [exact H1|]. intros cap'. now apply IH2.
  - intros [H|H] Hk.
    + specialize (IH1 a s' cap k H Hk). now destruct (match_k r1 (a ++ s') cap k).
    + destruct (match_k r1 (a ++ s') cap k); [discriminate|]. now apply IH2.
  - intros [H| ->] Hk.
    + specialize (IH1 a s' cap k H Hk). now destruct (match_k r1 (a ++ s') cap k).
    + cbn [app]. destruct (match_k r1 s' cap k); [discriminate|apply Hk].
  - intros Ha Hk. now apply star_k_complete.
  - intros [Hne Ha] Hk. destruct a as [|c a]; [contradiction|].
    cbn [forallb app] in Ha |- *. apply andb_prop in Ha as [Hc Ha]. rewrite Hc.
    now apply star_k_complete.
  - intros [<- Ha] Hk. rewrite rep_k_complete by exact Ha. apply Hk.
  - intros H Hk. apply IH1; [exact H|]. intros cap'. apply Hk.
Qed.
End MatcherFacts.

Lemma search_sound r s cap :
  search r s = Some cap ->
  exists before s', s = before ++ s' /\ match_k r s' None (fun _ cap => Some cap) = Some cap.
Proof.
  induction s as [|c s IH]; cbn [search].
  - destruct (match_k r [] None (fun _ cap => Some cap)) as [y|] eqn:E; [|discriminate].
    intros [= ->]. now exists [], [].
  - destruct (match_k r (c :: s) None (fun _ cap => Some cap)) as [y|] eqn:E.
    + intros [= ->]. now exists [], (c :: s).
    + intros H. destruct (IH H) as (before & s' & -> & H'). now exists (c :: before), s'.
Qed.

Lemma search_complete r before s' :
  match_k r s' None (fun _ cap => Some cap) <> None -> search r (before ++ s') <> None.
Proof.
  intros H. induction before as [|c before IH]; cbn [app].
  - destruct s' as [|c s']; cbn [search];
      destruct (match_k r _ None (fun _ cap => Some cap)); congruence.
  - cbn [search]. now destruct (match_k r (c :: before ++ s') None (fun _ cap => Some cap)).
Qed.

(** [match] finds something exactly when some part of the text is in the
    language of the expression. *)
Lemma js_match_lang r (url : string) :
  js_match r url <> None
  <-> exists before a after,
        list_ascii_of_string url = before ++ a ++ after /\ lang r a.
Proof.
  unfold js_match. split.
  - destruct (search r (list_ascii_of_string url)) as [cap|] eqn:E; [|congruence].
    intros _. apply search_sound in E as (before & s' & -> & H).
    apply match_k_sound in H as (a & after & cap' & -> & Ha & _). eauto.
  - intros (before & a & after & -> & Ha).
    assert (G : search r (before ++ a ++ after) <> None).
    { apply search_complete. now apply match_k_complete. }
    destruct (search r (before ++ a ++ after)) as [[cap|]|]; congruence.
Qed.

Lemma id_char_class (c : ascii) :
  class_matches (CSet true [IChar "034"; IChar "&"; IChar "?"; IChar "/"; ISpace]) c = true
  <-> id_char c.
Proof.
  unfold id_char. cbn [class_matches existsb item_matches].
  destruct (Ascii.eqb_spec c "034"), (Ascii.eqb_spec c "&"), (Ascii.eqb_spec c "?"),
    (Ascii.eqb_spec c "/"), (is_js_space c); cbn; intuition congruence.
Qed.

Lemma id_chars_class (l : list ascii) :
  forallb (class_matches (CSet true [IChar "034"; IChar "&"; IChar "?"; IChar "/"; ISpace])) l
  = true <-> Forall id_char l.
Proof.
  rewrite forallb_forall, Forall_forall. split; intros H c Hc.
  - apply id_char_class, H, list_elem_of_In, Hc.
  - apply id_char_class, H, list_elem_of_In, Hc.
Qed.

Lemma digit_class (c : ascii) :
  class_matches (CSet false [IRange "0" "9"]) c = is_digit c.
Proof. unfold is_digit. cbn [class_matches existsb item_matches xorb]. now rewrite orb_false_r. Qed.

Lemma take_consumed {A} (a s' : list A) : take (length (a ++ s') - length s') (a ++ s') = a.
Proof.
  rewrite length_app. replace (length a + length s' - length s')%nat with (length a) by lia.
  now rewrite take_app_length.
Qed.

Lemma match_k_seq {R} r1 r2 s cap (k : list ascii -> option (list ascii) -> option R) :
  match_k (RSeq r1 r2) s cap k = match_k r1 s cap (fun s' cap' => match_k r2 s' cap' k).
Proof. reflexivity. Qed.

Lemma match_k_group_rep {R} n cl s cap (k : list ascii -> option (list ascii) -> option R) :
  match_k (RGroup (RRep n cl)) s cap k
  = rep_k n cl s (fun s' => k s' (Some (take (length s - length s') s))).
Proof. reflexivity. Qed.

(** A match of the YouTube expression at the head of [s]. *)
Lemma youtube_match_sound (s : list ascii) (cap : option (list ascii)) :
  match_k youtubeRegex s None (fun _ cap => Some cap) = Some cap ->
  exists marker id after,
    s = marker ++ id ++ after /\ cap = Some id
    /\ length id = 11%nat /\ Forall id_char id
    /\ (marker = list_ascii_of_string "youtu.be/"
        \/ exists q, marker = list_ascii_of_string "youtube.com/" ++ q).
Proof.
  unfold youtubeRegex. rewrite match_k_seq. intros H.
  apply match_k_sound in H as (marker & s1 & cap1 & -> & Hmarker & H).
  rewrite match_k_group_rep in H.
  apply rep_k_sound in H as (id & after & -> & Hlen & Hid & H).
  rewrite take_consumed in H. injection H as <-.
  exists marker, id, after. repeat split; try assumption.
  - now apply id_chars_class.
  - cbn [lang] in Hmarker. destruct Hmarker as [(a1 & a2 & -> & -> & _)| ->]; eauto.
Qed.

Lemma vimeo_match_sound (s : list ascii) (cap : option (list ascii)) :
  match_k vimeoRegex s None (fun _ cap => Some cap) = Some cap ->
  exists id after,
    s = list_ascii_of_string "vimeo.com/" ++ id ++ after /\ cap = Some id
    /\ id <> [] /\ forallb is_digit id = true /\ no_digit_ahead after.
Proof.
  unfold vimeoRegex. cbn [match_k]. intros H.
  destruct (strip_prefix (list_ascii_of_string "vimeo.com/") s) as [s1|] eqn:E; [|discriminate].
  apply strip_prefix_sound in E. subst s.
  destruct s1 as [|c s1]; [discriminate|].
  destruct (class_matches (CSet false [IRange "0" "9"]) c) eqn:Hc; [|discriminate].
  apply star_k_greedy in H as (a & after & -> & Ha & H & Hafter); [|discriminate].
  change (c :: a ++ after) with ((c :: a) ++ after) in H. rewrite take_consumed in H.
  injection H as <-. exists (c :: a), after. repeat split.
  - discriminate.
  - cbn [forallb]. rewrite <- digit_class, Hc. cbn [andb].
    rewrite forallb_forall in Ha |- *. intros d Hd. rewrite <- digit_class. now apply Ha.
  - destruct after as [|d after]; [exact I|]. cbn. now rewrite <- digit_class.
Qed.

(** X9. What [parseVideoUrl] returns is cut out of the URL.  A YouTube
    id is a run of exactly eleven characters, none of them a double quote,
    [&], [?], [/] or white space, standing after [youtu.be/] or somewhere
    after [youtube.com/].  A Vimeo id is returned only when the YouTube
    expression finds nothing; it is the whole run of digits (at least one)
    that follows [vimeo.com/].  The title is always [null]. *)
Theorem video_id_shape (url : string) (info : VideoInfo) :
  parseVideoUrl url = Some info ->
  vi_title info = None
  /\ exists before after : list ascii,
       list_ascii_of_string url
       = before ++ list_ascii_of_string (vi_embedId info) ++ after
       /\ match vi_provider info with
          | youtube =>
              String.length (vi_embedId info) = 11%nat
              /\ Forall id_char (list_ascii_of_string (vi_embedId info))
              /\ ((exists p, before = p ++ list_ascii_of_string "youtu.be/")
                  \/ (exists p q, before = p ++ list_ascii_of_string "youtube.com/" ++ q))
          | vimeo =>
              vi_embedId info <> ""
              /\ forallb is_digit (list_ascii_of_string (vi_embedId info)) = true
              /\ (exists p, before = p ++ list_ascii_of_string "vimeo.com/")
              /\ no_digit_ahead after
              /\ js_match youtubeRegex url = None
          end.
Proof.
  unfold parseVideoUrl, js_match.
  destruct (search youtubeRegex (list_ascii_of_string url)) as [cap|] eqn:Ey.
  - apply search_sound in Ey as (p & s' & Hurl & H).
    apply youtube_match_sound in H as (marker & id & after & -> & -> & Hlen & Hid & Hmarker).
    intros [= <-]. cbn [vi_title vi_provider vi_embedId]. split; [reflexivity|].
    exists (p ++ marker), after. rewrite list_ascii_of_string_of_list_ascii.
    split; [now rewrite Hurl, <- app_assoc|].
    rewrite string_of_list_ascii_length. repeat split; try assumption.
    destruct Hmarker as [->|[q ->]]; [left|right]; eauto.
  - destruct (search vimeoRegex (list_ascii_of_string url)) as [cap|] eqn:Ev; [|discriminate].
    apply search_sound in Ev as (p & s' & Hurl & H).
    apply vimeo_match_sound in H as (id & after & -> & -> & Hne & Hid & Hafter).
    intros [= <-]. cbn [vi_title vi_provider vi_embedId]. split; [reflexivity|].
    exists (p ++ list_ascii_of_string "vimeo.com/"), after.
    rewrite list_ascii_of_string_of_list_ascii.
    split; [now rewrite Hurl, <- app_assoc|].
    repeat split; try assumption; eauto.
    destruct id; [contradiction|discriminate].
Qed.

Lemma search_skip r c s :
  match_k r (c :: s) None (fun _ cap => Some cap) = None -> search r (c :: s) = search r s.
Proof. intros H. cbn [search]. now rewrite H. Qed.

Lemma search_here r s cap :
  match_k r s None (fun _ cap => Some cap) = Some cap -> search r s = Some cap.
Proof. intros H. destruct s; cbn [search]; now rewrite H. Qed.

Lemma youtube_needs_y (c : ascii) (s : list ascii) :
  Ascii.eqb "y" c = false ->
  match_k youtubeRegex (c :: s) None (fun _ cap => Some cap) = None.
Proof.
  intros Hc. unfold youtubeRegex. rewrite match_k_seq.
  cbn [match_k strip_prefix list_ascii_of_string]. now rewrite Hc.
Qed.

Lemma vimeo_needs_v (c : ascii) (s : list ascii) :
  Ascii.eqb "v" c = false ->
  match_k vimeoRegex (c :: s) None (fun _ cap => Some cap) = None.
Proof.
  intros Hc. unfold vimeoRegex. cbn [match_k strip_prefix list_ascii_of_string].
  now rewrite Hc.
Qed.

Lemma youtube_short_link (rest : list ascii) (id : list ascii) (after : list ascii) :
  rest = id ++ after -> length id = 11%nat -> Forall id_char id ->
  match_k youtubeRegex (list_ascii_of_string "youtu.be/" ++ rest) None (fun _ cap => Some cap)
  = Some (Some id).
Proof.
  intros -> Hlen Hid. unfold youtubeRegex. rewrite match_k_seq.
  match goal with
  | |- match_k (RAlt ?A1 ?A2) ?s ?cap ?k = _ =>
      change (match match_k A1 s cap k with
              | Some x => Some x
              | None => match_k A2 s cap k
              end = Some (Some id))
  end.
  match goal with
  | |- match match_k (RSeq (RLit ?l) ?B) ?s ?cap ?k with _ => _ end = _ =>
      replace (match_k (RSeq (RLit l) B) s cap k) with (@None (option (list ascii)))
  end.
  2:{ rewrite match_k_seq. cbn [match_k strip_prefix list_ascii_of_string app].
      reflexivity. }
  change (match_k (RLit "youtu.be/") ?s ?cap ?k)
    with (match strip_prefix (list_ascii_of_string "youtu.be/") s with
          | Some s' => k s' cap
          | None => None
          end).
  rewrite strip_prefix_complete, match_k_group_rep, <- Hlen.
  rewrite rep_k_complete by now apply id_chars_class.
  now rewrite take_consumed.
Qed.

Lemma star_k_exact {R} cl a after (k : list ascii -> option R) :
  forallb (class_matches cl) a = true ->
  match after with c :: _ => class_matches cl c = false | [] => True end ->
  (forall t, k t <> None) ->
  star_k cl (a ++ after) k = k after.
Proof.
  intros Ha Hafter Hk. induction a as [|c a IH]; cbn [app].
  - destruct after as [|c after]; [reflexivity|]. cbn [star_k]. now rewrite Hafter.
  - cbn [forallb] in Ha. apply andb_prop in Ha as [Hc Ha]. cbn [star_k]. rewrite Hc, IH by exact Ha.
    specialize (Hk after). now destruct (k after).
Qed.

Lemma vimeo_link (digits after : list ascii) :
  digits <> [] -> forallb is_digit digits = true -> no_digit_ahead after ->
  match_k vimeoRegex (list_ascii_of_string "vimeo.com/" ++ digits ++ after) None
          (fun _ cap => Some cap)
  = Some (Some digits).
Proof.
  intros Hne Hd Hafter. unfold vimeoRegex. rewrite match_k_seq.
  change (match_k (RLit "vimeo.com/") ?s ?cap ?k)
    with (match strip_prefix (list_ascii_of_string "vimeo.com/") s with
          | Some s' => k s' cap
          | None => None
          end).
  rewrite strip_prefix_complete. destruct digits as [|d ds]; [contradiction|].
  cbn [forallb] in Hd. apply andb_prop in Hd as [Hd Hds].
  cbn [match_k app]. rewrite digit_class, Hd.
  rewrite star_k_exact.
  - change (d :: ds ++ after) with ((d :: ds) ++ after). now rewrite take_consumed.
  - rewrite forallb_forall in Hds |- *. intros c Hc. rewrite digit_class. now apply Hds.
  - destruct after as [|c after]; [exact I|]. now rewrite digit_class.
  - discriminate.
Qed.

Lemma youtube_forms (form : string) (id : list ascii) :
  In form ["youtu.be/"; "youtube.com/watch?v="; "youtube.com/embed/"; "youtube.com/v/"] ->
  length id = 11%nat -> Forall id_char id ->
  lang youtubeRegex (list_ascii_of_string form ++ id).
Proof.
  intros Hform Hlen Hid. unfold youtubeRegex. cbn [lang].
  exists (list_ascii_of_string form), id. split; [reflexivity|].
  split; [|split; [exact Hlen|now apply id_chars_class]].
  destruct Hform as [<-|[<-|[<-|[<-|[]]]]].
  - now right.
  - left. exists (list_ascii_of_string "youtube.com/"), (list_ascii_of_string "watch?v=").
    split; [reflexivity|]. split; [reflexivity|]. right. right.
    exists (list_ascii_of_string "watch"), (list_ascii_of_string "?v=").
    split; [reflexivity|]. split; [reflexivity|].
    exists ["?"%char], (list_ascii_of_string "v="). split; [reflexivity|].
    split; [|reflexivity]. now exists "?"%char.
  - left. exists (list_ascii_of_string "youtube.com/"), (list_ascii_of_string "embed/").
    split; [reflexivity|]. split; [reflexivity|]. right. left.
    exists (list_ascii_of_string "embed"), ["/"%char]. split; [reflexivity|].
    split; [|reflexivity]. right.
    exists ["e"%char], (list_ascii_of_string "mbed"). split; [reflexivity|].
    split; [reflexivity|]. now left.
  - left. exists (list_ascii_of_string "youtube.com/"), (list_ascii_of_string "v/").
    split; [reflexivity|]. split; [reflexivity|]. right. left.
    exists ["v"%char], ["/"%char]. split; [reflexivity|]. split; [|reflexivity]. now left.
Qed.

Lemma vimeo_form (digits : list ascii) :
  digits <> [] -> forallb is_digit digits = true ->
  lang vimeoRegex (list_ascii_of_string "vimeo.com/" ++ digits).
Proof.
  intros Hne Hd. unfold vimeoRegex. cbn [lang].
  exists (list_ascii_of_string "vimeo.com/"), digits. split; [reflexivity|].
  split; [reflexivity|]. split; [exact Hne|].
  rewrite forallb_forall in Hd |- *. intros c Hc. rewrite digit_class. now apply Hd.
Qed.

(** X10. The URLs that [parseVideoUrl], and with it [addVideo], is sure
    to accept.  Wherever it stands in the text, one of [youtu.be/],
    [youtube.com/watch?v=], [youtube.com/embed/] and [youtube.com/v/]
    followed by eleven id characters makes the URL a YouTube one; and
    [https://youtu.be/] followed by the id gives exactly that id, whatever
    comes after it.  [vimeo.com/] followed by a digit makes the URL
    accepted; and for [https://vimeo.com/] followed by digits and then no
    further digit, a Vimeo result carries exactly these digits. *)
Theorem accepted_video_urls (before after : string) :
  (forall id form,
     String.length id = 11%nat -> Forall id_char (list_ascii_of_string id) ->
     In form ["youtu.be/"; "youtube.com/watch?v="; "youtube.com/embed/"; "youtube.com/v/"] ->
     exists embedId,
       parseVideoUrl (before +:+ form +:+ id +:+ after)
       = Some (mkVideoInfo youtube embedId None))
  /\ (forall id,
        String.length id = 11%nat -> Forall id_char (list_ascii_of_string id) ->
        parseVideoUrl ("https://youtu.be/" +:+ id +:+ after)
        = Some (mkVideoInfo youtube id None))
  /\ (forall digits,
        digits <> "" -> forallb is_digit (list_ascii_of_string digits) = true ->
        (exists info, parseVideoUrl (before +:+ "vimeo.com/" +:+ digits +:+ after) = Some info)
        /\ (no_digit_ahead (list_ascii_of_string after) ->
            forall info,
              parseVideoUrl ("https://vimeo.com/" +:+ digits +:+ after) = Some info ->
              vi_provider info = vimeo -> vi_embedId info = digits)).
Proof.
  split; [|split].
  - intros id form Hlen Hid Hform.
    assert (H : js_match youtubeRegex (before +:+ form +:+ id +:+ after) <> None).
    { apply js_match_lang.
      exists (list_ascii_of_string before), (list_ascii_of_string form ++ list_ascii_of_string id),
        (list_ascii_of_string after).
      split; [now rewrite !list_ascii_of_string_app, <- !app_assoc|].
      apply youtube_forms; [exact Hform| |exact Hid].
      now rewrite <- Hlen, <- string_of_list_ascii_length, string_of_list_ascii_of_string. }
    unfold parseVideoUrl.
    destruct (js_match youtubeRegex (before +:+ form +:+ id +:+ after)) as [embedId|];
      [eauto|contradiction].
  - intros id Hlen Hid. unfold parseVideoUrl, js_match.
    rewrite !list_ascii_of_string_app.
    change (list_ascii_of_string "https://youtu.be/")
      with (list_ascii_of_string "https://" ++ list_ascii_of_string "youtu.be/").
    rewrite <- app_assoc. cbn [list_ascii_of_string app].
    rewrite !search_skip by (apply youtube_needs_y; reflexivity).
    erewrite search_here.
    2:{ apply (youtube_short_link _ (list_ascii_of_string id) (list_ascii_of_string after));
          [reflexivity| |exact Hid].
        now rewrite <- Hlen, <- string_of_list_ascii_length, string_of_list_ascii_of_string. }
    cbv beta iota. now rewrite string_of_list_ascii_of_string.
  - intros digits Hne Hd.
    assert (Hne' : list_ascii_of_string digits <> []).
    { intros E. apply Hne. rewrite <- (string_of_list_ascii_of_string digits). now rewrite E. }
    split.
    + assert (H : js_match vimeoRegex (before +:+ "vimeo.com/" +:+ digits +:+ after) <> None).
      { apply js_match_lang.
        exists (list_ascii_of_string before),
          (list_ascii_of_string "vimeo.com/" ++ list_ascii_of_string digits),
          (list_ascii_of_string after).
        split; [now rewrite !list_ascii_of_string_app, <- !app_assoc|].
        now apply vimeo_form. }
      unfold parseVideoUrl.
      destruct (js_match youtubeRegex _); [eauto|].
      destruct (js_match vimeoRegex _); [eauto|contradiction].
    + intros Hafter info. unfold parseVideoUrl.
      destruct (js_match youtubeRegex _); [intros [= <-]; discriminate|].
      unfold js_match. rewrite !list_ascii_of_string_app.
      change (list_ascii_of_string "https://vimeo.com/")
        with (list_ascii_of_string "https://" ++ list_ascii_of_string "vimeo.com/").
      rewrite <- app_assoc. cbn [list_ascii_of_string app].
      rewrite !search_skip by (apply vimeo_needs_v; reflexivity).
      erewrite search_here by (apply vimeo_link; assumption).
      cbv beta iota. intros [= <-] _. cbn [vi_embedId]. apply string_of_list_ascii_of_string.
Qed.

(** ** The default videos *)

Lemma videos_of_added (d : Db) (v : Video) :
  video_order v = max_order video_order (videos_of d) + 1 ->
  videos_of (with_videos (fun st => st ++ [Some v]) d)
  = videos_of d ++ [(S (length (videosStore d)), v)].
Proof.
  intros Hv. pose proof (listing_snoc_in video_order (fun _ => True) (videosStore d) v I) as H.
  cbv beta in H. rewrite !filter_True in H. apply H.
  pose proof (max_order_bound video_order (videos_of d)) as Hb.
  rewrite Forall_forall in Hb |- *. intros x Hx. specialize (Hb x Hx). cbv beta in Hb. lia.
Qed.

Lemma for_each_caught {S A} (l : list A) (f : A -> St S unit) (w : S) :
  exists w', for_each l (fun x => try_catch (f x) (fun _ => ret tt)) w = (Resolved tt, w').
Proof.
  revert w. induction l as [|x l IH]; intros w; [now exists w|].
  cbn [for_each]. unfold bind, try_catch at 1.
  destruct (f x w) as [[[]|e] w1]; cbn [ret]; apply IH.
Qed.

Lemma add_default_video (url : string) (info : VideoInfo) (d : Db) (c : timestamp) :
  parseVideoUrl url = Some info ->
  try_catch (addVideo url ;;; ret tt) (fun _ => ret tt) (mkWorld d [] c)
  = (Resolved tt,
     mkWorld (with_videos (fun st => st ++ [Some (mkVideo (vi_provider info) url
                                                          (vi_embedId info) (vi_title info)
                                                          (max_order video_order (videos_of d) + 1)
                                                          c)]) d) [] (S c)).
Proof.
  intros H. unfold try_catch. now rewrite (bind_run _ _ _ _ _ (addVideo_run url info d c H)).
Qed.

(** X11. [initializeDefaultVideos] adds the three default videos when,
    and only when, no video is listed: from an empty listing the listing
    becomes the Vimeo video and the two YouTube videos, numbered 1, 2, 3 (none of
    the three URLs is dropped by the [catch]), and nothing else changes;
    with a video listed it changes nothing, so calling it again changes
    nothing.  It rejects only when its first request, the listing, fails;
    the failure of an [addVideo] is swallowed. *)
Theorem default_videos_once (w : World) :
  (faults w = [] -> videos_of (db w) = [] ->
   exists w',
     initializeDefaultVideos w = (Resolved tt, w')
     /\ map (fun v => (video_url (snd v), video_provider (snd v),
                       video_embedId (snd v), video_order (snd v)))
            (videos_of (db w'))
        = [("https://vimeo.com/897021152", vimeo, "897021152", 1);
           ("https://youtu.be/6fWYLFodV78?si=faMzDuSLOlI8qURQ", youtube, "6fWYLFodV78", 2);
           ("https://youtu.be/5E3XuSymtYQ?si=Sx8vyJ8vfHPEDMcU", youtube, "5E3XuSymtYQ", 3)]
     /\ db w' = with_videos (fun _ => videosStore (db w')) (db w)
     /\ initializeDefaultVideos w' = (Resolved tt, w'))
  /\ (faults w = [] -> videos_of (db w) <> [] ->
      initializeDefaultVideos w = (Resolved tt, w))
  /\ (forall r w', initializeDefaultVideos w = (r, w') ->
        r = Resolved tt
        \/ exists e fs, r = Rejected e /\ db w' = db w /\ faults w = true :: fs).
Proof.
  split; [|split].
  - destruct w as [d fs c]. cbn [faults db]. intros -> Hempty.
    assert (Hrun : forall d0 c0, videos_of d0 = [] ->
              exists d3,
                initializeDefaultVideos (mkWorld d0 [] c0)
                = (Resolved tt, mkWorld d3 [] (S (S (S c0))))
                /\ videos_of d3
                   = [(S (length (videosStore d0)),
                       mkVideo vimeo "https://vimeo.com/897021152" "897021152" None 1 c0);
                      (S (S (length (videosStore d0))),
                       mkVideo youtube "https://youtu.be/6fWYLFodV78?si=faMzDuSLOlI8qURQ"
                               "6fWYLFodV78" None 2 (S c0));
                      (S (S (S (length (videosStore d0)))),
                       mkVideo youtube "https://youtu.be/5E3XuSymtYQ?si=Sx8vyJ8vfHPEDMcU"
                               "5E3XuSymtYQ" None 3 (S (S c0)))]
                /\ d3 = with_videos (fun _ => videosStore d3) d0).
    { intros d0 c0 H0. unfold initializeDefaultVideos.
      rewrite (bind_run _ _ _ _ _ (getAllVideos_run d0 c0)), H0. cbn [length Nat.eqb].
      unfold defaultVideos.
      set (v1 := mkVideo vimeo "https://vimeo.com/897021152" "897021152" None 1 c0).
      set (d1 := with_videos (fun st => st ++ [Some v1]) d0).
      assert (H1 : videos_of d1 = [(S (length (videosStore d0)), v1)]).
      { unfold d1. rewrite videos_of_added, H0; [reflexivity|]. now rewrite H0. }
      set (v2 := mkVideo youtube "https://youtu.be/6fWYLFodV78?si=faMzDuSLOlI8qURQ"
                         "6fWYLFodV78" None 2 (S c0)).
      set (d2 := with_videos (fun st => st ++ [Some v2]) d1).
      assert (H2 : videos_of d2 = [(S (length (videosStore d0)), v1);
                                   (S (length (videosStore d1)), v2)]).
      { unfold d2. rewrite videos_of_added, H1; [reflexivity|]. now rewrite H1. }
      set (v3 := mkVideo youtube "https://youtu.be/5E3XuSymtYQ?si=Sx8vyJ8vfHPEDMcU"
                         "5E3XuSymtYQ" None 3 (S (S c0))).
      set (d3 := with_videos (fun st => st ++ [Some v3]) d2).
      assert (H3 : videos_of d3 = [(S (length (videosStore d0)), v1);
                                   (S (length (videosStore d1)), v2);
                                   (S (length (videosStore d2)), v3)]).
      { unfold d3. rewrite videos_of_added, H2; [reflexivity|]. now rewrite H2. }
      exists d3. split; [|split].
      - apply (for_each_cons_run _ _ _ _ (mkWorld d1 [] (S c0))).
        { rewrite (add_default_video _ (mkVideoInfo vimeo "897021152" None)) by reflexivity.
          rewrite H0. reflexivity. }
        apply (for_each_cons_run _ _ _ _ (mkWorld d2 [] (S (S c0)))).
        { rewrite (add_default_video _ (mkVideoInfo youtube "6fWYLFodV78" None)) by reflexivity.
          rewrite H1. reflexivity. }
        apply (for_each_cons_run _ _ _ _ (mkWorld d3 [] (S (S (S c0))))).
        { rewrite (add_default_video _ (mkVideoInfo youtube "5E3XuSymtYQ" None)) by reflexivity.
          rewrite H2. reflexivity. }
        reflexivity.
      - rewrite H3. unfold d2, d1. cbn [videosStore with_videos].
        rewrite !length_app. cbn [length]. repeat f_equal; lia.
      - reflexivity. }
    destruct (Hrun d c Hempty) as (d3 & Hinit & H3 & Hframe).
    exists (mkWorld d3 [] (S (S (S c)))). split; [exact Hinit|]. cbn [db].
    split; [now rewrite H3|]. split; [exact Hframe|].
    unfold initializeDefaultVideos.
    rewrite (bind_run _ _ _ _ _ (getAllVideos_run d3 _)), H3. reflexivity.
  - destruct w as [d fs c]. cbn [faults db]. intros -> Hne.
    unfold initializeDefaultVideos. rewrite (bind_run _ _ _ _ _ (getAllVideos_run d c)).
    now destruct (videos_of d).
  - intros r w'. unfold initializeDefaultVideos, getAllVideos, bind at 1 2, request.
    destruct w as [d [|[|] fs] c]; cbn [faults db clock].
    + cbn [ret]. destruct (length _ =? 0)%nat; [|intros [= <- _]; now left].
      intros H. destruct (for_each_caught defaultVideos (fun url => addVideo url ;;; ret tt)
                            (mkWorld d [] c)) as [w1 E].
      rewrite E in H. injection H as <- _. now left.
    + intros [= <- <-]. right. eauto.
    + cbn [ret]. destruct (length _ =? 0)%nat; [|intros [= <- _]; now left].
      intros H. destruct (for_each_caught defaultVideos (fun url => addVideo url ;;; ret tt)
                            (mkWorld d fs c)) as [w1 E].
      rewrite E in H. injection H as <- _. now left.
Qed.

(** ** Invariants of the database *)

Section Triples.
Context {A : Type}.

Lemma triple_ret (P : Db -> Prop) (a : A) (Q : A -> Db -> Prop) (E : Db -> Prop) :
  (forall d, P d -> Q a d) -> triple P (ret a) Q E.
Proof. intros H w r w' HP [= <- <-]. now apply H. Qed.

Lemma triple_throw (P : Db -> Prop) (e : exn) (Q : A -> Db -> Prop) (E : Db -> Prop) :
  (forall d, P d -> E d) -> triple P (throw e) Q E.
Proof. intros H w r w' HP [= <- <-]. now apply H. Qed.

Lemma triple_request (P : Db -> Prop) (f : Db -> A * Db) (Q : A -> Db -> Prop)
    (E : Db -> Prop) :
  (forall d, P d -> Q (fst (f d)) (snd (f d))) -> (forall d, P d -> E d) ->
  triple P (request f) Q E.
Proof.
  intros HQ HE w r w' HP. destruct (request_cases f w) as [[fs ->]|[fs ->]];
    intros [= <- <-]; cbn [db]; auto.
Qed.

Lemma triple_transaction (P : Db -> Prop) (m : M A) (Q : A -> Db -> Prop)
    (E E' : Db -> Prop) :
  triple P m Q E' -> (forall d, P d -> E d) -> triple P (transaction m) Q E.
Proof.
  intros Hm HE w r w' HP. unfold transaction. specialize (Hm w).
  destruct (m w) as [[a|e] w1]; intros [= <- <-]; cbn [db].
  - exact (Hm _ _ HP eq_refl).
  - now apply HE.
Qed.

Lemma triple_try (P : Db -> Prop) (m : M A) (h : exn -> M A) (Q : A -> Db -> Prop)
    (E1 E : Db -> Prop) :
  triple P m Q E1 -> (forall e, triple E1 (h e) Q E) -> triple P (try_catch m h) Q E.
Proof.
  intros Hm Hh w r w' HP. unfold try_catch. specialize (Hm w).
  destruct (m w) as [[a|e] w1].
  - intros [= <- <-]. exact (Hm _ _ HP eq_refl).
  - intros H. exact (Hh e w1 r w' (Hm _ _ HP eq_refl) H).
Qed.

Lemma triple_conseq (P P' : Db -> Prop) (m : M A) (Q Q' : A -> Db -> Prop)
    (E E' : Db -> Prop) :
  triple P m Q E -> (forall d, P' d -> P d) -> (forall a d, Q a d -> Q' a d) ->
  (forall d, E d -> E' d) -> triple P' m Q' E'.
Proof.
  intros Hm HP HQ HE w r w' HP' Hrun. specialize (Hm w r w' (HP _ HP') Hrun).
  destruct r; auto.
Qed.
End Triples.

Lemma triple_now (P : Db -> Prop) (Q : timestamp -> Db -> Prop) (E : Db -> Prop) :
  (forall t d, P d -> Q t d) -> triple P now Q E.
Proof. intros H w r w' HP [= <- <-]. now apply H. Qed.

Lemma triple_bind {A B} (P : Db -> Prop) (m : M A) (k : A -> M B) (Q1 : A -> Db -> Prop)
    (Q : B -> Db -> Prop) (E : Db -> Prop) :
  triple P m Q1 E -> (forall a, triple (Q1 a) (k a) Q E) -> triple P (bind m k) Q E.
Proof.
  intros Hm Hk w r w' HP. unfold bind. specialize (Hm w).
  destruct (m w) as [[a|e] w1].
  - intros H. exact (Hk a w1 r w' (Hm _ _ HP eq_refl) H).
  - intros [= <- <-]. exact (Hm _ _ HP eq_refl).
Qed.

Lemma triple_for_each {A} (I : Db -> Prop) (l : list A) (f : A -> M unit) (E : Db -> Prop) :
  (forall x, In x l -> triple I (f x) (fun _ => I) E) ->
  triple I (for_each l f) (fun _ => I) E.
Proof.
  induction l as [|x l IH]; intros Hf; cbn [for_each].
  - now apply triple_ret.
  - apply (triple_bind _ _ _ (fun _ => I)); [apply Hf; now left|].
    intros _. apply IH. intros y Hy. apply Hf. now right.
Qed.

Lemma triple_map_m {A B} (I : Db -> Prop) (G : A -> B -> Prop) (l : list A) (f : A -> M B)
    (E : Db -> Prop) :
  (forall x, In x l -> triple I (f x) (fun y d => I d /\ G x y) E) ->
  triple I (map_m f l) (fun ys d => I d /\ Forall2 G l ys) E.
Proof.
  induction l as [|x l IH]; intros Hf; cbn [map_m].
  - apply triple_ret. intros d Hd. split; [exact Hd|constructor].
  - apply (triple_bind _ _ _ (fun y d => I d /\ G x y)); [apply Hf; now left|].
    intros y. apply (triple_bind _ _ _ (fun ys d => (I d /\ Forall2 G l ys) /\ G x y)).
    + intros w r w' [HI HG] Hrun.
      assert (IH' : triple I (map_m f l) (fun ys d => I d /\ Forall2 G l ys) E).
      { apply IH. intros z Hz. apply Hf. now right. }
      specialize (IH' w r w' HI Hrun). destruct r; [split; assumption|assumption].
    + intros ys. apply triple_ret. intros d [[HI Hys] HG]. split; [exact HI|].
      now constructor.
Qed.

Section AllIn.
Context {V : Type} (good : V -> Prop).

Lemma all_in_add (v : V) (st : list (option V)) :
  all_in good st -> good v -> all_in good (st ++ [Some v]).
Proof.
  intros Hst Hv id v'. destruct id as [|i]; [discriminate|]. cbn [os_get].
  destruct (decide (i < length st)%nat) as [Hi|Hi].
  - rewrite lookup_app_l by exact Hi. apply (Hst (S i)).
  - rewrite lookup_app_r by lia. destruct (i - length st)%nat as [|j] eqn:Ej; cbn.
    + now intros [= <-].
    + discriminate.
Qed.

Lemma all_in_put (id : nat) (v : V) (st : list (option V)) :
  all_in good st -> good v -> all_in good (os_put id v st).
Proof.
  intros Hst Hv id' v'. destruct (decide (id = id')) as [<-|Hne].
  - destruct id as [|i]; [apply (Hst O)|]. rewrite os_get_put_eq by discriminate.
    now intros [= <-].
  - rewrite os_get_put_ne by exact Hne. apply Hst.
Qed.

Lemma all_in_delete (id : nat) (st : list (option V)) :
  all_in good st -> all_in good (os_delete id st).
Proof.
  intros Hst id' v'. destruct (decide (id = id')) as [<-|Hne].
  - now rewrite os_get_delete_eq.
  - rewrite os_get_delete_ne by exact Hne. apply Hst.
Qed.

Lemma all_in_clear (st : list (option V)) : all_in good (os_clear st).
Proof.
  intros id v H. assert (G : is_Some (os_get id (os_clear st ++ []))).
  { rewrite app_nil_r. eauto. }
  destruct id as [|i]; [discriminate|]. cbn [os_get] in H. unfold os_clear in H.
  destruct (replicate (length st) None !! i) as [o|] eqn:Ei; [|discriminate].
  apply lookup_replicate in Ei as [-> _]. discriminate.
Qed.

Lemma all_in_listed (order : V -> Z) (st : list (option V)) :
  all_in good st -> Forall (fun p => good (snd p)) (sort_by_order order (os_getAll st)).
Proof.
  intros Hst. apply Forall_forall. intros [id v] Hin. apply list_elem_of_In in Hin.
  apply js_sort_In, in_os_getAll in Hin. exact (Hst _ _ Hin).
Qed.
End AllIn.

Lemma max_order_nonneg {V} (order : V -> Z) (l : list (nat * V)) :
  Forall (fun p => 0 <= order (snd p)) l -> 0 <= max_order order l.
Proof.
  intros H. pose proof (max_order_spec order l) as Hm.
  destruct l as [|x l]; cbn [map is_max_order] in Hm; [lia|].
  destruct Hm as [Hin _]. change (In (max_order order (x :: l)) (map (fun a => order (snd a)) (x :: l))) in Hin.
  apply in_map_iff in Hin as (y & <- & Hy). rewrite Forall_forall in H.
  apply (H y), list_elem_of_In, Hy.
Qed.

Lemma consistent_assets (f : gmap string Asset -> gmap string Asset) (d : Db) :
  consistent d ->
  (forall key a, f (assetsStore d) !! key = Some a -> sound_asset key a) ->
  consistent (with_assets f d).
Proof. intros (_ & H) Hf. exact (conj Hf H). Qed.

Lemma consistent_albums (f : list (option Album) -> list (option Album)) (d : Db) :
  consistent d -> all_in sound_album (f (albumsStore d)) -> consistent (with_albums f d).
Proof. intros (H1 & _ & H) Hf. exact (conj H1 (conj Hf H)). Qed.

Lemma consistent_photos (f : list (option Photo) -> list (option Photo)) (d : Db) :
  consistent d -> all_in sound_photo (f (photosStore d)) -> consistent (with_photos f d).
Proof. intros (H1 & H2 & _ & H) Hf. exact (conj H1 (conj H2 (conj Hf H))). Qed.

Lemma consistent_essays (f : list (option Essay) -> list (option Essay)) (d : Db) :
  consistent d -> all_in sound_essay (f (essaysStore d)) -> consistent (with_essays f d).
Proof. intros (H1 & H2 & H3 & _ & H) Hf. exact (conj H1 (conj H2 (conj H3 (conj Hf H)))). Qed.

Lemma consistent_videos (f : list (option Video) -> list (option Video)) (d : Db) :
  consistent d -> all_in sound_video (f (videosStore d)) -> consistent (with_videos f d).
Proof. intros (H1 & H2 & H3 & H4 & _) Hf. exact (conj H1 (conj H2 (conj H3 (conj H4 Hf)))). Qed.

(** [m] keeps the database consistent, however it ends. *)
#[local] Abbreviation keeps_consistent m :=
  (triple consistent m (fun _ => consistent) consistent).

Ltac by_logic := intros; cbv beta in *; tauto.

Lemma safe_read {A} (f : Db -> A) : keeps_consistent (request (fun d => (f d, d))).
Proof. apply triple_request; auto. Qed.

Lemma safe_map_m {A B} (l : list A) (f : A -> M B) :
  (forall x, keeps_consistent (f x)) -> keeps_consistent (map_m f l).
Proof.
  intros Hf.
  eapply triple_conseq; [apply (triple_map_m consistent (fun _ _ => True) l f consistent)|..];
    try by_logic.
  intros x _. eapply triple_conseq; [apply Hf|..]; by_logic.
Qed.

Lemma safe_returning {A} (f : A -> Value) (m : M A) :
  keeps_consistent m -> keeps_consistent (returning f m).
Proof.
  intros H. unfold returning. eapply triple_bind; [exact H|]. intros a.
  apply triple_ret. auto.
Qed.

Lemma safe_then_tt {A} (m : M A) : keeps_consistent m -> keeps_consistent (m ;;; ret tt).
Proof.
  intros H. eapply triple_bind; [exact H|]. intros a. apply triple_ret. auto.
Qed.

Lemma safe_putAsset key file : keeps_consistent (putAsset key file).
Proof.
  eapply triple_bind; [apply triple_now; intros t d H; exact H|]. intros t. cbv zeta.
  apply triple_request; [|auto]. intros d Hd. cbn [fst snd].
  apply consistent_assets; [exact Hd|]. intros key' a.
  destruct (decide (key' = key)) as [->|Hne].
  - rewrite lookup_insert_eq. intros [= <-]. now split.
  - rewrite lookup_insert_ne by congruence. apply Hd.
Qed.

Lemma listed_albums :
  triple consistent getAllAlbums
         (fun l d => consistent d /\ Forall (fun p => sound_album (snd p)) l) consistent.
Proof.
  eapply triple_bind.
  - apply (triple_request _ _ (fun all d => consistent d /\ all = os_getAll (albumsStore d)));
      auto.
  - intros all. apply triple_ret. intros d [Hd ->]. split; [exact Hd|].
    apply all_in_listed, Hd.
Qed.

Lemma listed_essays :
  triple consistent getAllEssays
         (fun l d => consistent d /\ Forall (fun p => sound_essay (snd p)) l) consistent.
Proof.
  eapply triple_bind.
  - apply (triple_request _ _ (fun all d => consistent d /\ all = os_getAll (essaysStore d)));
      auto.
  - intros all. apply triple_ret. intros d [Hd ->]. split; [exact Hd|].
    apply all_in_listed, Hd.
Qed.

Lemma listed_videos :
  triple consistent getAllVideos
         (fun l d => consistent d /\ Forall (fun p => sound_video (snd p)) l) consistent.
Proof.
  eapply triple_bind.
  - apply (triple_request _ _ (fun all d => consistent d /\ all = os_getAll (videosStore d)));
      auto.
  - intros all. apply triple_ret. intros d [Hd ->]. split; [exact Hd|].
    apply all_in_listed, Hd.
Qed.

Lemma listed_photos albumId :
  triple consistent (getPhotosByAlbum albumId)
         (fun l d => consistent d /\ Forall (fun p => sound_photo (snd p)) l) consistent.
Proof.
  eapply triple_bind.
  - apply (triple_request _ _
      (fun found d => consistent d
         /\ found = filter (fun p => photo_albumId (snd p) = albumId)
                           (os_getAll (photosStore d)))); auto.
  - intros found. apply triple_ret. intros d [Hd ->]. split; [exact Hd|].
    apply Forall_forall. intros [id p] Hin. apply list_elem_of_In, js_sort_In in Hin.
    apply list_elem_of_In, list_elem_of_filter in Hin as [_ Hin].
    apply list_elem_of_In, in_os_getAll in Hin.
    destruct Hd as (_ & _ & Hp & _). exact (Hp _ _ Hin).
Qed.

Ltac listing_only H :=
  eapply triple_conseq; [apply H|..]; by_logic.

Lemma safe_getAllAlbums : keeps_consistent getAllAlbums.
Proof. listing_only listed_albums. Qed.

Lemma safe_getAllEssays : keeps_consistent getAllEssays.
Proof. listing_only listed_essays. Qed.

Lemma safe_getAllVideos : keeps_consistent getAllVideos.
Proof. listing_only listed_videos. Qed.

Lemma safe_getPhotosByAlbum albumId : keeps_consistent (getPhotosByAlbum albumId).
Proof. listing_only (listed_photos albumId). Qed.

Lemma safe_createAlbum name : keeps_consistent (createAlbum name).
Proof.
  eapply triple_bind; [apply listed_albums|]. intros albums. cbv zeta.
  eapply triple_bind; [apply triple_now; intros t d H; exact H|]. intros t.
  apply triple_request; [|tauto]. intros d [Hd Hl]. cbn [fst snd os_add].
  apply consistent_albums; [exact Hd|]. apply all_in_add; [apply Hd|].
  unfold sound_album. cbn [album_order].
  pose proof (max_order_nonneg album_order albums Hl). lia.
Qed.

Lemma safe_addPhoto albumId file : keeps_consistent (addPhoto albumId file).
Proof.
  eapply triple_bind; [apply listed_photos|]. intros photos. cbv zeta.
  eapply triple_bind; [apply triple_now; intros t d H; exact H|]. intros t.
  apply triple_request; [|tauto]. intros d [Hd Hl]. cbn [fst snd os_add].
  apply consistent_photos; [exact Hd|]. apply all_in_add; [apply Hd|].
  assert (G : Forall (fun p : nat * Photo => 0 <= photo_order (snd p)) photos).
  { eapply Forall_impl; [exact Hl|]. intros p Hp. apply Hp. }
  pose proof (max_order_nonneg photo_order photos G).
  repeat split; cbn; lia.
Qed.

Lemma safe_addEssay file title : keeps_consistent (addEssay file title).
Proof.
  eapply triple_bind; [apply listed_essays|]. intros essays. cbv zeta.
  eapply triple_bind; [apply triple_now; intros t d H; exact H|]. intros t.
  apply triple_request; [|tauto]. intros d [Hd Hl]. cbn [fst snd os_add].
  apply consistent_essays; [exact Hd|]. apply all_in_add; [apply Hd|].
  assert (G : Forall (fun p : nat * Essay => 0 <= essay_order (snd p)) essays).
  { eapply Forall_impl; [exact Hl|]. intros p Hp. apply Hp. }
  pose proof (max_order_nonneg essay_order essays G).
  repeat split; cbn; lia.
Qed.

Lemma safe_addVideo url : keeps_consistent (addVideo url).
Proof.
  unfold addVideo. destruct (parseVideoUrl url) as [info|] eqn:E; [|apply triple_throw; auto].
  eapply triple_bind; [apply listed_videos|]. intros videos. cbv zeta.
  eapply triple_bind; [apply triple_now; intros t d H; exact H|]. intros t.
  apply triple_request; [|tauto]. intros d [Hd Hl]. cbn [fst snd os_add].
  apply consistent_videos; [exact Hd|]. apply all_in_add; [apply Hd|].
  assert (G : Forall (fun p : nat * Video => 0 <= video_order (snd p)) videos).
  { eapply Forall_impl; [exact Hl|]. intros p Hp. apply Hp. }
  pose proof (max_order_nonneg video_order videos G).
  split; cbn; [|lia]. rewrite E. now destruct info.
Qed.

Lemma safe_renameAlbum id name : keeps_consistent (renameAlbum id name).
Proof.
  apply (triple_transaction _ _ _ _ consistent); [|auto].
  eapply (triple_bind _ _ _ (fun found d => consistent d
                               /\ forall a, found = Some a -> sound_album a)).
  - apply triple_request; [|auto]. intros d Hd. cbn. split; [exact Hd|].
    intros a Ha. destruct Hd as (_ & Hd & _). exact (Hd _ _ Ha).
  - intros [album|]; [|apply triple_throw; tauto].
    eapply triple_bind; [apply triple_now; intros t d H; exact H|]. intros t. cbv zeta.
    apply triple_request; [|tauto]. intros d [Hd Ha]. cbn [fst snd].
    apply consistent_albums; [exact Hd|]. apply all_in_put; [apply Hd|].
    exact (Ha _ eq_refl).
Qed.

Lemma safe_renameEssay id title : keeps_consistent (renameEssay id title).
Proof.
  apply (triple_transaction _ _ _ _ consistent); [|auto].
  eapply (triple_bind _ _ _ (fun found d => consistent d
                               /\ forall a, found = Some a -> sound_essay a)).
  - apply triple_request; [|auto]. intros d Hd. cbn. split; [exact Hd|].
    intros a Ha. destruct Hd as (_ & _ & _ & Hd & _). exact (Hd _ _ Ha).
  - intros [essay|]; [|apply triple_throw; tauto].
    eapply triple_bind; [apply triple_now; intros t d H; exact H|]. intros t. cbv zeta.
    apply triple_request; [|tauto]. intros d [Hd Ha]. cbn [fst snd].
    apply consistent_essays; [exact Hd|]. apply all_in_put; [apply Hd|].
    exact (Ha _ eq_refl).
Qed.

Lemma safe_removePhoto id : keeps_consistent (removePhoto id).
Proof.
  apply triple_request; [|auto]. intros d Hd. cbn.
  apply consistent_photos; [exact Hd|]. apply all_in_delete, Hd.
Qed.

Lemma safe_deleteEssay id : keeps_consistent (deleteEssay id).
Proof.
  apply triple_request; [|auto]. intros d Hd. cbn.
  apply consistent_essays; [exact Hd|]. apply all_in_delete, Hd.
Qed.

Lemma safe_deleteVideo id : keeps_consistent (deleteVideo id).
Proof.
  apply triple_request; [|auto]. intros d Hd. cbn.
  apply consistent_videos; [exact Hd|]. apply all_in_delete, Hd.
Qed.

Lemma safe_deleteAlbum id : keeps_consistent (deleteAlbum id).
Proof.
  eapply triple_bind; [apply safe_getPhotosByAlbum|]. intros photos.
  eapply triple_bind.
  - apply triple_for_each. intros x _. apply safe_removePhoto.
  - intros ?. apply triple_request; [|auto]. intros d Hd. cbn.
    apply consistent_albums; [exact Hd|]. apply all_in_delete, Hd.
Qed.

Lemma Forall2_right {A B} (G : B -> Prop) (l : list A) (k : list B) :
  Forall2 (fun _ y => G y) l k -> Forall G k.
Proof. induction 1; constructor; assumption. Qed.

Lemma safe_reorder {V} (good : V -> Prop) (get : nat -> Db -> option V)
    (accept : V -> bool) (set_order : Z -> V -> V) (put : nat -> V -> Db -> Db)
    (ids : list nat) :
  (forall d id v, consistent d -> get id d = Some v -> good v) ->
  (forall d id v, consistent d -> good v -> consistent (put id v d)) ->
  (forall i v, 0 <= i -> good v -> good (set_order i v)) ->
  keeps_consistent (reorder_in get accept set_order put ids).
Proof.
  intros Hget Hput Hset. unfold reorder_in. apply (triple_transaction _ _ _ _ consistent); [|auto].
  eapply triple_bind.
  - apply (triple_map_m consistent (fun _ r => forall v, r = Some v -> good v)).
    intros id _. apply triple_request; [|auto]. intros d Hd. cbn. split; [exact Hd|].
    intros v Hv. exact (Hget _ _ _ Hd Hv).
  - intros found w r w' [Hd Hfound] Hrun. apply Forall2_right in Hfound.
    revert w r w' Hd Hrun. change (keeps_consistent
      (map_m (fun '(index, (id, r)) =>
                match r with
                | Some record =>
                    if accept record
                    then request (fun d => (tt, put id (set_order (Z.of_nat index) record) d))
                    else ret tt
                | None => ret tt
                end) (imap pair (zip ids found)))).
    eapply triple_conseq;
      [apply (triple_map_m consistent (fun _ _ => True) _ _ consistent)|..]; try by_logic.
    intros [index [id r]] Hin. apply list_elem_of_In, elem_of_lookup_imap in Hin
      as (i & [id' r'] & Heq & Hi).
    injection Heq as -> -> ->.
    apply list_elem_of_lookup_2, elem_of_zip_r in Hi. rewrite Forall_forall in Hfound.
    specialize (Hfound _ Hi). destruct r' as [record|]; [|apply triple_ret; by_logic].
    destruct (accept record); [|apply triple_ret; by_logic].
    apply triple_request; [|auto]. intros d Hd. cbn. split; [|exact I].
    apply Hput; [exact Hd|]. apply Hset; [lia|]. now apply Hfound.
Qed.

Lemma safe_clearAllData : keeps_consistent clearAllData.
Proof.
  apply (triple_transaction _ _ _ _ consistent); [|auto].
  apply (triple_bind _ _ _ (fun _ => consistent)).
  { apply triple_request; [|auto]. intros d Hd. cbn. apply consistent_assets; [exact Hd|].
    intros key a. now rewrite lookup_empty. }
  intros ?. apply (triple_bind _ _ _ (fun _ => consistent)).
  { apply triple_request; [|auto]. intros d Hd. cbn. apply consistent_albums; [exact Hd|].
    apply all_in_clear. }
  intros ?. apply (triple_bind _ _ _ (fun _ => consistent)).
  { apply triple_request; [|auto]. intros d Hd. cbn. apply consistent_photos; [exact Hd|].
    apply all_in_clear. }
  intros ?. apply (triple_bind _ _ _ (fun _ => consistent)).
  { apply triple_request; [|auto]. intros d Hd. cbn. apply consistent_essays; [exact Hd|].
    apply all_in_clear. }
  intros ?. apply (triple_bind _ _ _ (fun _ => consistent)).
  { apply triple_request; [|auto]. intros d Hd. cbn. apply consistent_videos; [exact Hd|].
    apply all_in_clear. }
  intros ?. apply triple_ret. auto.
Qed.

Lemma safe_decode {B} (base64 mime : string) (k : Blob -> M B) :
  (forall blob, keeps_consistent (k blob)) ->
  keeps_consistent (blob <- decode_blob base64 mime ;; k blob).
Proof.
  intros Hk. eapply triple_bind; [|exact Hk].
  unfold decode_blob. destruct (base64ToBlob base64 mime);
    [apply triple_ret|apply triple_throw]; auto.
Qed.

Lemma safe_importAll data : keeps_consistent (importAll data).
Proof.
  unfold importAll.
  destruct (negb (truthy (snap_version data))
            || negb (strict_eq (snap_version data) (JNum version)));
    [apply triple_throw; auto|].
  eapply triple_bind; [apply safe_clearAllData|]. intros ?.
  eapply triple_bind.
  { apply triple_for_each. intros [key doc] _. unfold import_asset.
    destruct (str_truthy (ad_data doc)); [|apply triple_ret; auto].
    apply safe_decode. intros blob. apply safe_then_tt, safe_putAsset. }
  intros ?. eapply triple_bind.
  { apply triple_for_each. intros album _. apply safe_then_tt, safe_createAlbum. }
  intros ?. eapply triple_bind; [apply safe_getAllAlbums|]. intros newAlbums. cbv zeta.
  eapply triple_bind.
  { apply triple_for_each. intros photo _. unfold import_photo.
    destruct (album_id_map (snap_albums data) newAlbums !! pd_albumId photo) as [newId|];
      [|apply triple_ret; auto].
    destruct (str_truthy (pd_data photo) && negb (newId =? 0)%nat); [|apply triple_ret; auto].
    apply safe_decode. intros blob. apply safe_then_tt, safe_addPhoto. }
  intros ?. eapply triple_bind.
  { apply triple_for_each. intros essay _. unfold import_essay.
    destruct (str_truthy (ed_data essay)); [|apply triple_ret; auto].
    apply safe_decode. intros blob. apply safe_then_tt, safe_addEssay. }
  intros ?. apply triple_for_each. intros video _. apply safe_then_tt, safe_addVideo.
Qed.

Lemma safe_exportAll : keeps_consistent exportAll.
Proof.
  eapply triple_bind; [apply triple_now; intros t d H; exact H|]. intros t.
  apply (triple_bind _ _ _ (fun _ => consistent)).
  { eapply triple_bind.
    - apply safe_map_m. intros key. eapply triple_bind; [apply safe_read|].
      intros a. apply triple_ret. auto.
    - intros found. apply triple_ret. auto. }
  intros assets. eapply triple_bind; [apply safe_getAllAlbums|]. intros albums.
  eapply triple_bind; [apply safe_getAllAlbums|]. intros allAlbums.
  apply (triple_bind _ _ _ (fun _ => consistent)).
  { apply safe_map_m. intros album. eapply triple_bind; [apply safe_getPhotosByAlbum|].
    intros photos. apply triple_ret. auto. }
  intros photos. eapply triple_bind; [apply safe_getAllEssays|]. intros essays.
  eapply triple_bind; [apply safe_getAllVideos|]. intros videos. apply triple_ret. auto.
Qed.

Lemma safe_initializeDefaultVideos : keeps_consistent initializeDefaultVideos.
Proof.
  eapply triple_bind; [apply safe_getAllVideos|]. intros videos.
  destruct (length videos =? 0)%nat; [|apply triple_ret; auto].
  apply triple_for_each. intros url _.
  eapply triple_try; [apply safe_then_tt, safe_addVideo|]. intros e. apply triple_ret. auto.
Qed.

Lemma safe_operation (op : Op) : keeps_consistent (run_local op).
Proof.
  destruct op; cbn [run_local]; apply safe_returning.
  - apply safe_putAsset.
  - apply safe_read.
  - apply safe_createAlbum.
  - apply safe_getAllAlbums.
  - apply safe_renameAlbum.
  - apply safe_deleteAlbum.
  - apply (safe_reorder sound_album).
    + intros d id v Hd Hv. destruct Hd as (_ & Hd & _). exact (Hd _ _ Hv).
    + intros d id v Hd Hv. apply consistent_albums; [exact Hd|]. apply all_in_put; [apply Hd|exact Hv].
    + intros i v Hi _. exact Hi.
  - apply safe_addPhoto.
  - apply safe_getPhotosByAlbum.
  - apply safe_removePhoto.
  - apply (safe_reorder sound_photo).
    + intros d id v Hd Hv. destruct Hd as (_ & _ & Hd & _). exact (Hd _ _ Hv).
    + intros d id v Hd Hv. apply consistent_photos; [exact Hd|]. apply all_in_put; [apply Hd|exact Hv].
    + intros i v Hi (H1 & H2 & _). repeat split; assumption.
  - apply safe_addEssay.
  - apply safe_getAllEssays.
  - apply safe_renameEssay.
  - apply safe_deleteEssay.
  - apply (safe_reorder sound_essay).
    + intros d id v Hd Hv. destruct Hd as (_ & _ & _ & Hd & _). exact (Hd _ _ Hv).
    + intros d id v Hd Hv. apply consistent_essays; [exact Hd|]. apply all_in_put; [apply Hd|exact Hv].
    + intros i v Hi (H1 & H2 & _). repeat split; assumption.
  - apply safe_addVideo.
  - apply safe_getAllVideos.
  - apply safe_deleteVideo.
  - apply (safe_reorder sound_video).
    + intros d id v Hd Hv. destruct Hd as (_ & _ & _ & _ & Hd). exact (Hd _ _ Hv).
    + intros d id v Hd Hv. apply consistent_videos; [exact Hd|]. apply all_in_put; [apply Hd|exact Hv].
    + intros i v Hi (H1 & _). split; assumption.
  - apply safe_exportAll.
  - apply safe_importAll.
  - apply safe_initializeDefaultVideos.
Qed.

Lemma consistent_empty : consistent empty_db.
Proof.
  split; [intros key a H; cbn in H; rewrite lookup_empty in H; discriminate|].
  split; [|split; [|split]]; intros [|id] v H; cbn in H; try rewrite lookup_nil in H;
    discriminate.
Qed.

(** X12. The consistency of the records is an invariant of [Database].
    In the empty database, and after any sequence of its operations
    (reads, creations, renames, reorders, deletes, clear, export, import
    of any document, default videos), whatever requests fail on the way:
    every asset sits under its own key with the type of its blob as
    [mime]; every photo and essay carries the type and size of its blob
    (an essay always [application/pdf]); every video carries the provider
    and id that [parseVideoUrl] derives from its URL, so its URL is still
    recognised; and no [order] is negative. *)
Theorem operations_keep_consistency (ops : list Op) (w : World) :
  consistent empty_db
  /\ (consistent (db w) -> consistent (db (after_ops ops w))).
Proof.
  split; [exact consistent_empty|].
  revert w. induction ops as [|op ops IH]; intros w Hw; [exact Hw|].
  cbn [after_ops fold_left]. apply IH.
  pose proof (safe_operation op w) as H.
  destruct (run_local op w) as [r w'] eqn:E. specialize (H r w' Hw eq_refl).
  cbn [snd]. now destruct r.
Qed.

(** ** What deleting an album leaves alone *)






(** ** Which operations are atomic *)

Lemma triple_any {A} (P : Db -> Prop) (m : M A) :
  triple P m (fun _ _ => True) (fun _ => True).
Proof. intros w r w' _ _. now destruct r. Qed.

Section Atomic.
Context (d0 : Db).

#[local] Abbreviation undone m :=
  (triple (fun d => d = d0) m (fun _ _ => True) (fun d => d = d0)).
#[local] Abbreviation reads m :=
  (triple (fun d => d = d0) m (fun _ d => d = d0) (fun d => d = d0)).

Lemma reads_request {A} (f : Db -> A) : reads (request (fun d => (f d, d))).
Proof. apply triple_request; auto. Qed.

Lemma reads_then {A B} (m : M A) (f : A -> B) : reads m -> reads (x <- m ;; ret (f x)).
Proof. intros H. eapply triple_bind; [exact H|]. intros a. apply triple_ret. auto. Qed.

Lemma reads_map_m {A B} (l : list A) (f : A -> M B) :
  (forall x, reads (f x)) -> reads (map_m f l).
Proof.
  intros Hf.
  eapply triple_conseq;
    [apply (triple_map_m (fun d => d = d0) (fun _ _ => True) l f (fun d => d = d0))|..];
    try by_logic.
  intros x _. eapply triple_conseq; [apply Hf|..]; by_logic.
Qed.

Lemma undone_create {A V} (list_scope : M (list (nat * V))) (k : list (nat * V) -> timestamp -> Db -> A * Db) :
  reads list_scope ->
  undone (l <- list_scope ;; t <- now ;; request (k l t)).
Proof.
  intros H. eapply triple_bind; [exact H|]. intros l.
  eapply triple_bind; [apply triple_now; intros t d E; exact E|]. intros t.
  apply triple_request; auto.
Qed.

Lemma undone_transaction {A} (m : M A) : undone (transaction m).
Proof. eapply triple_transaction; [apply triple_any|auto]. Qed.

Lemma undone_request {A} (f : Db -> A * Db) : undone (request f).
Proof. apply triple_request; auto. Qed.

Lemma undone_returning {A} (f : A -> Value) (m : M A) : undone m -> undone (returning f m).
Proof.
  intros H. unfold returning. eapply triple_bind; [exact H|]. intros a.
  apply triple_ret. auto.
Qed.

Lemma reads_returning {A} (f : A -> Value) (m : M A) : reads m -> reads (returning f m).
Proof. apply reads_then. Qed.

Lemma reads_getAllAlbums : reads getAllAlbums.
Proof. apply reads_then, reads_request. Qed.

Lemma reads_getAllEssays : reads getAllEssays.
Proof. apply reads_then, reads_request. Qed.

Lemma reads_getAllVideos : reads getAllVideos.
Proof. apply reads_then, reads_request. Qed.

Lemma reads_getPhotosByAlbum albumId : reads (getPhotosByAlbum albumId).
Proof. apply reads_then, reads_request. Qed.

Lemma reads_exportAll : reads exportAll.
Proof.
  eapply triple_bind; [apply triple_now; intros t d E; exact E|]. intros t.
  apply (triple_bind _ _ _ (fun _ d => d = d0)).
  { apply reads_then. apply reads_map_m. intros key. apply reads_then, reads_request. }
  intros assets. eapply triple_bind; [apply reads_getAllAlbums|]. intros albums.
  eapply triple_bind; [apply reads_getAllAlbums|]. intros allAlbums.
  apply (triple_bind _ _ _ (fun _ d => d = d0)).
  { apply reads_map_m. intros album. apply reads_then, reads_getPhotosByAlbum. }
  intros photos. eapply triple_bind; [apply reads_getAllEssays|]. intros essays.
  eapply triple_bind; [apply reads_getAllVideos|]. intros videos. apply triple_ret. auto.
Qed.
End Atomic.

(** X14. Which operations of [Database] are all-or-nothing.  The reads,
    [exportAll] among them, never change the database, however they end.
    Every write that is a single request or a single transaction ([putAsset],
    the creations, the renames, the reorders, the deletions of one photo,
    essay or video) leaves the database exactly as it was when it rejects.
    [deleteAlbum] is not of this kind: when a request fails after the
    first photo was deleted, it rejects, the album is still there and that
    photo is gone. *)
Theorem atomic_operations :
  (forall op w r w', read_only op = true -> run_local op w = (r, w') -> db w' = db w)
  /\ (forall op w e w', single_write op = true ->
        run_local op w = (Rejected e, w') -> db w' = db w)
  /\ (exists e w',
        deleteAlbum 1 (third_request_fails album_with_two_photos) = (Rejected e, w')
        /\ map fst (albums_of (db w')) = [1%nat]
        /\ map fst (photos_of 1 (db album_with_two_photos)) = [1%nat; 2%nat]
        /\ map fst (photos_of 1 (db w')) = [2%nat]).
Proof.
  split; [|split].
  - intros op w r w' Hop Hrun.
    assert (H : triple (fun d => d = db w) (run_local op) (fun _ d => d = db w)
                       (fun d => d = db w)).
    { destruct op; try discriminate Hop; cbn [run_local]; apply reads_returning.
      - apply reads_request.
      - apply reads_getAllAlbums.
      - apply reads_getPhotosByAlbum.
      - apply reads_getAllEssays.
      - apply reads_getAllVideos.
      - apply reads_exportAll. }
    specialize (H w r w' eq_refl Hrun). now destruct r.
  - intros op w e w' Hop Hrun.
    assert (H : triple (fun d => d = db w) (run_local op) (fun _ _ => True)
                       (fun d => d = db w)).
    { destruct op; try discriminate Hop; cbn [run_local]; apply undone_returning;
        try apply undone_transaction; try apply undone_request.
      - eapply triple_bind; [apply triple_now; intros t d E; exact E|]. intros t.
        apply undone_request.
      - apply (undone_create (db w) getAllAlbums), reads_getAllAlbums.
      - apply (undone_create (db w) (getPhotosByAlbum albumId)), reads_getPhotosByAlbum.
      - apply (undone_create (db w) getAllEssays), reads_getAllEssays.
      - unfold addVideo. destruct (parseVideoUrl url); [|apply triple_throw; auto].
        apply (undone_create (db w) getAllVideos), reads_getAllVideos. }
    exact (H w _ w' eq_refl Hrun).
  - eexists _, _. split; [vm_compute; reflexivity|]. split; [vm_compute; reflexivity|].
    split; vm_compute; reflexivity.
Qed.

(** ** The mirror: what the remote part can and cannot do *)

Section Unobserved.
Context {R X : Type} (obs : Mirror R -> X).

Lemma unobserved_ret {A} (a : A) : unobserved obs (ret a).
Proof. now intros s r s' [= <- <-]. Qed.

Lemma unobserved_throw {A} (e : exn) : unobserved (A := A) obs (throw e).
Proof. now intros s r s' [= <- <-]. Qed.

Lemma unobserved_bind {A B} (m : St (Mirror R) A) (k : A -> St (Mirror R) B) :
  unobserved obs m -> (forall a, unobserved obs (k a)) -> unobserved obs (bind m k).
Proof.
  intros Hm Hk s r s'. unfold bind. destruct (m s) as [[a|e] s1] eqn:E.
  - intros H. rewrite (Hk a _ _ _ H). exact (Hm _ _ _ E).
  - intros [= <- <-]. exact (Hm _ _ _ E).
Qed.

Lemma unobserved_try {A} (m : St (Mirror R) A) (h : exn -> St (Mirror R) A) :
  unobserved obs m -> (forall e, unobserved obs (h e)) -> unobserved obs (try_catch m h).
Proof.
  intros Hm Hh s r s'. unfold try_catch. destruct (m s) as [[a|e] s1] eqn:E.
  - intros [= <- <-]. exact (Hm _ _ _ E).
  - intros H. rewrite (Hh e _ _ _ H). exact (Hm _ _ _ E).
Qed.

Lemma unobserved_for_each {A} (l : list A) (f : A -> St (Mirror R) unit) :
  (forall x, unobserved obs (f x)) -> unobserved obs (for_each l f).
Proof.
  intros Hf. induction l as [|x l IH]; cbn [for_each]; [apply unobserved_ret|].
  apply unobserved_bind; [apply Hf|]. intros _. exact IH.
Qed.

Lemma unobserved_map_m {A B} (l : list A) (f : A -> St (Mirror R) B) :
  (forall x, unobserved obs (f x)) -> unobserved obs (map_m f l).
Proof.
  intros Hf. induction l as [|x l IH]; cbn [map_m]; [apply unobserved_ret|].
  apply unobserved_bind; [apply Hf|]. intros y.
  apply unobserved_bind; [exact IH|]. intros ys. apply unobserved_ret.
Qed.

Lemma unobserved_get_syncEnabled : unobserved obs FirebaseDatabase.get_syncEnabled.
Proof. now intros s r s' [= <- <-]. Qed.

(** A call to the remote side is not observed by what does not look at the
    remote side. *)
Lemma unobserved_remote {A} (m : St R A) :
  (forall w c c' f, obs (mkMirror w c f) = obs (mkMirror w c' f)) ->
  unobserved obs (FirebaseDatabase.remote m).
Proof.
  intros Hobs s r s'. unfold FirebaseDatabase.remote. destruct (m (cloud s)).
  intros [= <- <-]. destruct s. symmetry. apply Hobs.
Qed.

(** A call to the local store is not observed by what does not look at the
    local store. *)
Lemma unobserved_local {A} (m : M A) :
  (forall w w' c f, obs (mkMirror w c f) = obs (mkMirror w' c f)) ->
  unobserved obs (FirebaseDatabase.local m).
Proof.
  intros Hobs s r s'. unfold FirebaseDatabase.local. destruct (m (localDb s)).
  intros [= <- <-]. destruct s. apply Hobs.
Qed.
End Unobserved.

(** A read of the local store is not observed in its collections. *)
Lemma unobserved_local_read {R A} (m : M A) :
  (forall d0, triple (fun d => d = d0) m (fun _ d => d = d0) (fun d => d = d0)) ->
  unobserved (R := R) local_db_and_flag (FirebaseDatabase.local m).
Proof.
  intros Hm s r s'. unfold FirebaseDatabase.local.
  destruct (m (localDb s)) as [r1 w1] eqn:E. intros [= <- <-].
  specialize (Hm (db (localDb s)) _ _ _ eq_refl E). unfold local_db_and_flag. cbn.
  f_equal. now destruct r1.
Qed.

Lemma unobserved_Date_now {R} : unobserved (R := R) local_db_and_flag FirebaseDatabase.Date_now.
Proof.
  apply unobserved_bind; [|intros t; apply unobserved_ret].
  now intros s r s' [= <- <-].
Qed.

Ltac unseen :=
  repeat first
    [ apply unobserved_ret | apply unobserved_throw
    | apply unobserved_get_syncEnabled
    | apply unobserved_remote; reflexivity
    | apply unobserved_local; reflexivity
    | apply unobserved_Date_now
    | apply unobserved_for_each; intros ?
    | apply unobserved_map_m; intros ?
    | apply unobserved_try; [|intros ?]
    | apply unobserved_bind; [|intros ?]
    | match goal with
      | |- unobserved _ (match ?x with _ => _ end) => destruct x
      end ].

Lemma unobserved_syncLocalToCloud {R} (fb : Firebase R) :
  unobserved local_db_and_flag (FirebaseDatabase.syncLocalToCloud fb).
Proof.
  unfold FirebaseDatabase.syncLocalToCloud.
  apply unobserved_bind; [apply unobserved_get_syncEnabled|]. intros sync.
  destruct sync; cbn [negb]; [|apply unobserved_ret].
  apply unobserved_try; [|intros e; apply unobserved_ret].
  apply unobserved_bind; [apply unobserved_local_read; intros; apply reads_getAllAlbums|].
  intros albums. apply unobserved_bind.
  { apply unobserved_for_each. intros album.
    unfold FirebaseDatabase.syncAlbumToCloud, FirebaseDatabase.order_or_now. unseen. }
  intros _. apply unobserved_bind; [apply unobserved_local_read; intros; apply reads_getAllEssays|].
  intros essays. apply unobserved_bind.
  { apply unobserved_for_each. intros essay.
    unfold FirebaseDatabase.syncEssayToCloud, FirebaseDatabase.order_or_now. unseen. }
  intros _. apply unobserved_bind; [apply unobserved_local_read; intros; apply reads_getAllVideos|].
  intros videos. apply unobserved_for_each. intros video.
  unfold FirebaseDatabase.syncVideoToCloud, FirebaseDatabase.order_or_now. unseen.
Qed.

Lemma syncLocalToCloud_resolves {R} (fb : Firebase R) :
  never_rejects (FirebaseDatabase.syncLocalToCloud fb).
Proof.
  intros s r s'. unfold FirebaseDatabase.syncLocalToCloud, bind, FirebaseDatabase.get_syncEnabled.
  destruct (syncEnabled s); cbn [negb].
  - unfold try_catch. match goal with |- context [match ?m with _ => _ end] => destruct m as [[[]|e] s1] end;
      intros [= <- _]; now exists tt.
  - intros [= <- _]. now exists tt.
Qed.

(** X15. Switching the cloud sync on, and pushing the local records to the
    cloud, never fail and never change a local record, whatever the remote
    side does.  [enableCloudSync] resolves; the local collections are as
    before; if the connection test rejects, sync is off and nothing else
    happened on either side; sync is on afterwards only if the connection
    test went through.  [syncLocalToCloud] resolves, leaves the local
    collections and the sync flag as they are, and does nothing at all while
    sync is off. *)
Theorem sync_leaves_local_alone {R} (fb : Firebase R) (s : Mirror R) :
  (fst (FirebaseDatabase.enableCloudSync fb s) = Resolved tt
   /\ db (localDb (snd (FirebaseDatabase.enableCloudSync fb s))) = db (localDb s)
   /\ (forall e c, getDoc_test fb (cloud s) = (Rejected e, c) ->
         snd (FirebaseDatabase.enableCloudSync fb s) = mkMirror (localDb s) c false)
   /\ (syncEnabled (snd (FirebaseDatabase.enableCloudSync fb s)) = true ->
         exists c, getDoc_test fb (cloud s) = (Resolved tt, c)))
  /\ (fst (FirebaseDatabase.syncLocalToCloud fb s) = Resolved tt
      /\ db (localDb (snd (FirebaseDatabase.syncLocalToCloud fb s))) = db (localDb s)
      /\ syncEnabled (snd (FirebaseDatabase.syncLocalToCloud fb s)) = syncEnabled s
      /\ (syncEnabled s = false -> snd (FirebaseDatabase.syncLocalToCloud fb s) = s)).
Proof.
  split.
  - assert (Hres : fst (FirebaseDatabase.enableCloudSync fb s) = Resolved tt).
    { unfold FirebaseDatabase.enableCloudSync, try_catch.
      match goal with |- context [match ?m with _ => _ end] => destruct m as [[[]|e] s1] end;
        reflexivity. }
    assert (Hdb : unobserved local_db (FirebaseDatabase.enableCloudSync fb)).
    { unfold FirebaseDatabase.enableCloudSync, FirebaseDatabase.setupRealtimeListeners.
      apply unobserved_try; [|intros e; now intros s0 r s' [= <- <-]].
      apply unobserved_bind; [apply unobserved_remote; reflexivity|]. intros _.
      apply unobserved_bind; [now intros s0 r s' [= <- <-]|]. intros _.
      apply unobserved_bind.
      { intros s0 r s' H. apply (unobserved_syncLocalToCloud fb) in H.
        unfold local_db_and_flag in H. now injection H. }
      intros _. unseen. }
    split; [exact Hres|]. split; [exact (Hdb _ _ _ (surjective_pairing _))|]. split.
    + intros e c E. unfold FirebaseDatabase.enableCloudSync, try_catch, bind,
        FirebaseDatabase.remote. rewrite E. reflexivity.
    + unfold FirebaseDatabase.enableCloudSync, try_catch, bind at 1, FirebaseDatabase.remote.
      destruct (getDoc_test fb (cloud s)) as [[[]|e] c] eqn:E; [eauto|].
      cbn. discriminate.
  - pose proof (unobserved_syncLocalToCloud fb s _ _ (surjective_pairing _)) as H.
    unfold local_db_and_flag in H. injection H as Hdb Hflag.
    destruct (syncLocalToCloud_resolves fb s _ _ (surjective_pairing _)) as [[] Hres].
    repeat split; try assumption.
    intros Hs. unfold FirebaseDatabase.syncLocalToCloud, bind, FirebaseDatabase.get_syncEnabled.
    now rewrite Hs.
Qed.

(** X16. [importAll] on the mirror gives the caller the outcome of the
    local import and leaves the local collections as the local import
    leaves them, whatever the remote side does afterwards; when the local
    import rejects, the remote side is not contacted. *)
Theorem mirror_import {R} (fb : Firebase R) (data : Snapshot) (s : Mirror R) :
  fst (FirebaseDatabase.importAll fb data s) = fst (Database.importAll data (localDb s))
  /\ db (localDb (snd (FirebaseDatabase.importAll fb data s)))
     = db (snd (Database.importAll data (localDb s)))
  /\ syncEnabled (snd (FirebaseDatabase.importAll fb data s)) = syncEnabled s
  /\ (forall e, fst (Database.importAll data (localDb s)) = Rejected e ->
        snd (FirebaseDatabase.importAll fb data s)
        = mkMirror (snd (Database.importAll data (localDb s))) (cloud s) (syncEnabled s)).
Proof.
  destruct (FirebaseDatabase.importAll fb data s) as [r s'] eqn:E. cbn [fst snd].
  unfold FirebaseDatabase.importAll, bind, FirebaseDatabase.get_syncEnabled in E.
  rewrite local_run in E.
  destruct (Database.importAll data (localDb s)) as [[[]|e] w1]; cbn [fst snd] in *.
  2:{ injection E as <- <-. repeat split. }
  cbn [syncEnabled] in E. destruct (syncEnabled s) eqn:Es.
  - set (s1 := mkMirror w1 (cloud s) true) in E.
    pose proof (unobserved_syncLocalToCloud fb s1 _ _ (surjective_pairing _)) as H.
    unfold local_db_and_flag in H. injection H as Hdb Hflag.
    destruct (syncLocalToCloud_resolves fb s1 _ _ (surjective_pairing _)) as [[] Hres].
    destruct (FirebaseDatabase.syncLocalToCloud fb s1) as [r2 s2].
    cbn [fst snd] in *. subst r2. injection E as <- <-. repeat split; try assumption.
    discriminate.
  - injection E as <- <-. repeat split.
Qed.

(** ** The mirror: reads *)


Lemma try_run {S A} (m : St S A) (h : exn -> St S A) (w w' : S) (a : A) :
  m w = (Resolved a, w') -> try_catch m h w = (Resolved a, w').
Proof. intros H. unfold try_catch. now rewrite H. Qed.


Lemma remote_run {R A} (m : St R A) (s : Mirror R) :
  FirebaseDatabase.remote m s
  = (fst (m (cloud s)), mkMirror (localDb s) (snd (m (cloud s))) (syncEnabled s)).
Proof. unfold FirebaseDatabase.remote. now destruct (m (cloud s)). Qed.

Lemma sync_on {R} (s : Mirror R) :
  syncEnabled s = true -> FirebaseDatabase.get_syncEnabled s = (Resolved true, s).
Proof. intros H. unfold FirebaseDatabase.get_syncEnabled. now rewrite H. Qed.

(** The essays of a cloud read: one fetch for each document, none of which
    can make the read fail. *)
Lemma essays_fetched {R} (fb : Firebase R) (docs : list (string * EssayShadow)) (s : Mirror R) :
  map_m (fun doc =>
           pdfBlob <- try_catch
                        (blob <- FirebaseDatabase.remote (fetch_blob fb (se_downloadURL (snd doc))) ;;
                         ret (Some blob))
                        (fun _ => ret None) ;;
           ret (mkCloudEssay (FirebaseDatabase.localId_or (se_localId (snd doc)) (fst doc))
                             (fst doc) (se_title (snd doc)) pdfBlob
                             (se_downloadURL (snd doc)) (se_mime (snd doc))
                             (se_size (snd doc)) (se_order (snd doc))
                             (se_createdAt (snd doc)))) docs s
  = (Resolved (zip_with essay_from_doc docs (fst (fetch_all fb docs (cloud s)))),
     mkMirror (localDb s) (snd (fetch_all fb docs (cloud s))) (syncEnabled s)).
Proof.
  revert s. induction docs as [|doc docs IH]; intros s.
  - now destruct s.
  - match goal with |- context [map_m ?f _ _] => set (F := f) in * end.
    cbn [fetch_all].
    destruct (fetch_blob fb (se_downloadURL (snd doc)) (cloud s)) as [fetched c1] eqn:Ef.
    assert (Hdoc : F doc s
                   = (Resolved (essay_from_doc doc
                                  match fetched with Resolved b => Some b | Rejected _ => None end),
                      mkMirror (localDb s) c1 (syncEnabled s))).
    { unfold F, bind, try_catch, FirebaseDatabase.remote, ret. rewrite Ef.
      now destruct fetched. }
    specialize (IH (mkMirror (localDb s) c1 (syncEnabled s))).
    cbn [localDb cloud syncEnabled] in IH.
    rewrite (map_m_cons_run F doc docs _ _ _ _ _ Hdoc IH).
    now destruct (fetch_all fb docs c1).
Qed.


Section CloudReads.
Context {R : Type} (fb : Firebase R) (s : Mirror R) (Hs : syncEnabled s = true).

Lemma getAllAlbums_cloud docs c :
  getDocs_albums fb (cloud s) = (Resolved docs, c) ->
  FirebaseDatabase.getAllAlbums fb s
  = (Resolved (FromCloud (js_sort (fun a b => or0 (ca_order a) - or0 (ca_order b))
                                  (map album_from_doc docs))),
     mkMirror (localDb s) c true).
Proof.
  intros Eg. unfold FirebaseDatabase.getAllAlbums, bind, try_catch,
    FirebaseDatabase.get_syncEnabled, FirebaseDatabase.remote, ret.
  rewrite Hs, Eg, ?Hs. reflexivity.
Qed.


Lemma getAllVideos_cloud docs c :
  getDocs_videos fb (cloud s) = (Resolved docs, c) ->
  FirebaseDatabase.getAllVideos fb s
  = (Resolved (FromCloud (js_sort (fun a b => or0 (cv_order a) - or0 (cv_order b))
                                  (map video_from_doc docs))),
     mkMirror (localDb s) c true).
Proof.
  intros Eg. unfold FirebaseDatabase.getAllVideos, bind, try_catch,
    FirebaseDatabase.get_syncEnabled, FirebaseDatabase.remote, ret.
  rewrite Hs, Eg, ?Hs. reflexivity.
Qed.


Lemma getAllEssays_cloud docs c :
  getDocs_essays fb (cloud s) = (Resolved docs, c) ->
  FirebaseDatabase.getAllEssays fb s
  = (Resolved (FromCloud (js_sort (fun a b => or0 (ce_order a) - or0 (ce_order b))
                                  (zip_with essay_from_doc docs (fst (fetch_all fb docs c))))),
     mkMirror (localDb s) (snd (fetch_all fb docs c)) true).
Proof.
  intros Eg. unfold FirebaseDatabase.getAllEssays.
  rewrite (bind_run _ _ _ _ _ (sync_on s Hs)).
  erewrite bind_run; cycle 1.
  { apply try_run. erewrite bind_run; [|rewrite remote_run, Eg; reflexivity].
    cbn [fst snd]. erewrite bind_run; [|apply essays_fetched]. reflexivity. }
  cbn [localDb cloud syncEnabled]. now rewrite Hs.
Qed.

End CloudReads.


(** X18. With sync enabled, the writes that the mirror only hands to the
    local store (the renames, the reorders and the photo writes) do not
    reach the remote side, so the list reads of the mirror do not show
    them: as long as the cloud answers, listing the albums, the essays or
    the videos after such a write gives what it gave before it. *)
Theorem local_only_writes_unseen {R} (fb : Firebase R) (op : Op) (s : Mirror R) :
  local_only op = true -> syncEnabled s = true ->
  cloud (snd (run_mirror fb op s)) = cloud s
  /\ syncEnabled (snd (run_mirror fb op s)) = true
  /\ db (localDb (snd (run_mirror fb op s))) = db (snd (run_local op (localDb s)))
  /\ (forall docs c, getDocs_albums fb (cloud s) = (Resolved docs, c) ->
        fst (FirebaseDatabase.getAllAlbums fb (snd (run_mirror fb op s)))
        = fst (FirebaseDatabase.getAllAlbums fb s))
  /\ (forall docs c, getDocs_essays fb (cloud s) = (Resolved docs, c) ->
        fst (FirebaseDatabase.getAllEssays fb (snd (run_mirror fb op s)))
        = fst (FirebaseDatabase.getAllEssays fb s))
  /\ (forall docs c, getDocs_videos fb (cloud s) = (Resolved docs, c) ->
        fst (FirebaseDatabase.getAllVideos fb (snd (run_mirror fb op s)))
        = fst (FirebaseDatabase.getAllVideos fb s)).
Proof.
  intros Hop Hs.
  assert (Hpass : forall A (f : A -> Value) (L : M A),
            snd (returning f (FirebaseDatabase.local L) s)
            = mkMirror (snd (L (localDb s))) (cloud s) true
            /\ snd (returning f L (localDb s)) = snd (L (localDb s))).
  { intros A f L. rewrite !returning_run, local_run. cbn [fst snd]. now rewrite Hs. }
  assert (H : exists w1, snd (run_mirror fb op s) = mkMirror w1 (cloud s) true
                         /\ snd (run_local op (localDb s)) = w1).
  { destruct op; try discriminate Hop; cbn [run_mirror run_local];
      eexists; apply Hpass. }
  destruct H as (w1 & -> & ->). cbn [cloud syncEnabled localDb].
  repeat split.
  - intros docs c Eg.
    rewrite (getAllAlbums_cloud fb s Hs docs c Eg).
    now rewrite (getAllAlbums_cloud fb (mkMirror w1 (cloud s) true) eq_refl docs c Eg).
  - intros docs c Eg.
    rewrite (getAllEssays_cloud fb s Hs docs c Eg).
    now rewrite (getAllEssays_cloud fb (mkMirror w1 (cloud s) true) eq_refl docs c Eg).
  - intros docs c Eg.
    rewrite (getAllVideos_cloud fb s Hs docs c Eg).
    now rewrite (getAllVideos_cloud fb (mkMirror w1 (cloud s) true) eq_refl docs c Eg).
Qed.


(** ** Start-up of the mirror *)

Lemma waitForFirebase_loop_spec (ready : nat -> bool) (fuel attempts : nat) :
  (fuel + attempts = 100)%nat ->
  let a := waitForFirebase_loop ready fuel attempts in
  (attempts <= a <= 100)%nat
  /\ (forall k, (attempts <= k < a)%nat -> ready k = false)
  /\ ((a < 100)%nat -> ready a = true).
Proof.
  revert attempts. induction fuel as [|fuel IH]; intros attempts Hsum; cbn [waitForFirebase_loop].
  - cbv zeta. repeat split; lia.
  - destruct (ready attempts) eqn:Er; cbn [negb].
    + cbv zeta. repeat split; try lia; auto.
    + specialize (IH (S attempts) ltac:(lia)). cbv zeta in IH |- *.
      destruct IH as (H1 & H2 & H3). repeat split; try lia; auto.
      intros k Hk. destruct (decide (k = attempts)) as [->|Hne]; [exact Er|].
      apply H2. lia.
Qed.

(** X20. [waitForFirebase] polls at most 100 times.  It resolves exactly
    when the Firebase globals are all set at one of the first 101 checks,
    having waited as many times as there were checks that found them
    missing; otherwise it rejects after exactly 100 waits. *)
Theorem firebase_wait_is_bounded (ready : nat -> bool) :
  (snd (waitForFirebase ready) <= 100)%nat
  /\ (forall k, (k < snd (waitForFirebase ready))%nat -> ready k = false)
  /\ (fst (waitForFirebase ready) = Resolved tt <-> exists k, (k <= 100)%nat /\ ready k = true)
  /\ (fst (waitForFirebase ready) = Resolved tt -> ready (snd (waitForFirebase ready)) = true)
  /\ (fst (waitForFirebase ready) <> Resolved tt ->
        fst (waitForFirebase ready) = Rejected (Error "Firebase failed to initialize properly")
        /\ snd (waitForFirebase ready) = 100%nat).
Proof.
  pose proof (waitForFirebase_loop_spec ready 100 0 eq_refl) as H. cbv zeta in H.
  destruct H as (H1 & H2 & H3). unfold waitForFirebase.
  set (a := waitForFirebase_loop ready 100 0) in *.
  destruct (ready a) eqn:Er; cbn [negb fst snd].
  - split; [lia|]. split; [intros k Hk; apply H2; lia|]. split.
    + split; [intros _; exists a; split; [lia|exact Er]|reflexivity].
    + split; [intros _; exact Er|]. intros Hne. now destruct Hne.
  - assert (Ha : a = 100%nat).
    { destruct (decide (a < 100)%nat) as [Hlt|Hge]; [|lia].
      specialize (H3 Hlt). congruence. }
    split; [lia|]. split; [intros k Hk; apply H2; lia|]. split.
    + split; [intros H; discriminate H|]. intros (k & Hk & Hr).
      destruct (decide (k = a)) as [->|Hne]; [congruence|].
      rewrite H2 in Hr by lia. discriminate.
    + split; [intros H; discriminate H|]. intros _. split; [reflexivity|exact Ha].
Qed.

(** ** Hashing *)

Lemma hex_byte_decodes (b : byte) :
  unhex_byte (Utils.padStart2 (Utils.toString16 b)) = Some b.
Proof. destruct b; vm_compute; reflexivity. Qed.

Lemma hex_byte_shape (b : byte) :
  exists h l, Utils.padStart2 (Utils.toString16 b) = [h; l]
              /\ is_hex h = true /\ is_hex l = true.
Proof. destruct b; eexists _, _; (split; [reflexivity|split; reflexivity]). Qed.

Lemma hex_concat_length (bs : list byte) :
  length (concat (map (fun b => Utils.padStart2 (Utils.toString16 b)) bs)) = (2 * length bs)%nat.
Proof.
  induction bs as [|b bs IH]; [reflexivity|]. cbn [map concat].
  destruct (hex_byte_shape b) as (h & l & -> & _). cbn [app length]. rewrite IH.
  cbn [length]. lia.
Qed.

Lemma hex_concat_digits (bs : list byte) :
  forallb is_hex (concat (map (fun b => Utils.padStart2 (Utils.toString16 b)) bs)) = true.
Proof.
  induction bs as [|b bs IH]; [reflexivity|]. cbn [map concat].
  destruct (hex_byte_shape b) as (h & l & -> & Hh & Hl). cbn [app forallb].
  now rewrite Hh, Hl, IH.
Qed.

Lemma hex_concat_injective (bs1 bs2 : list byte) :
  concat (map (fun b => Utils.padStart2 (Utils.toString16 b)) bs1)
  = concat (map (fun b => Utils.padStart2 (Utils.toString16 b)) bs2) ->
  bs1 = bs2.
Proof.
  revert bs2. induction bs1 as [|b1 bs1 IH]; intros [|b2 bs2]; cbn [map concat].
  - reflexivity.
  - destruct (hex_byte_shape b2) as (h & l & -> & _). discriminate.
  - destruct (hex_byte_shape b1) as (h & l & -> & _). discriminate.
  - pose proof (hex_byte_decodes b1) as D1. pose proof (hex_byte_decodes b2) as D2.
    destruct (hex_byte_shape b1) as (h1 & l1 & E1 & _).
    destruct (hex_byte_shape b2) as (h2 & l2 & E2 & _).
    rewrite E1 in D1 |- *. rewrite E2 in D2 |- *. cbn [app].
    intros [= -> -> Hrest]. f_equal; [congruence|]. now apply IH.
Qed.

Lemma string_of_list_ascii_injective (a b : list ascii) :
  string_of_list_ascii a = string_of_list_ascii b -> a = b.
Proof.
  intros H. rewrite <- (list_ascii_of_string_of_list_ascii a),
    <- (list_ascii_of_string_of_list_ascii b). now rewrite H.
Qed.

Lemma hashString_injective (digest : list byte -> list byte) (t1 t2 : string) :
  Utils.hashString digest t1 = Utils.hashString digest t2
  <-> digest (Utils.TextEncoder_encode t1) = digest (Utils.TextEncoder_encode t2).
Proof.
  unfold Utils.hashString. split.
  - intros H. apply string_of_list_ascii_injective in H. now apply hex_concat_injective.
  - now intros ->.
Qed.

(** X21. [hashString] writes the digest of the text in lower-case
    hexadecimal, two digits for each byte, so that two texts have the same
    hash exactly when they have the same digest.  Hence the admin form
    accepts a password exactly when its digest is the one of the built-in
    password, and accepts nothing before that hash has been computed. *)
Theorem hash_is_hex_of_digest (digest : list byte -> list byte) (t1 t2 : string) :
  String.length (Utils.hashString digest t1)
  = (2 * length (digest (Utils.TextEncoder_encode t1)))%nat
  /\ forallb is_hex (list_ascii_of_string (Utils.hashString digest t1)) = true
  /\ (Utils.hashString digest t1 = Utils.hashString digest t2
      <-> digest (Utils.TextEncoder_encode t1) = digest (Utils.TextEncoder_encode t2))
  /\ (admin_form_accepts digest (initAdminPasswordHash digest) t1 = true
      <-> digest (Utils.TextEncoder_encode t1)
          = digest (Utils.TextEncoder_encode "A21bcW34SamPinkWorld"))
  /\ admin_form_accepts digest None t1 = false.
Proof.
  split; [|split; [|split; [|split]]].
  - unfold Utils.hashString. rewrite string_of_list_ascii_length. apply hex_concat_length.
  - unfold Utils.hashString. rewrite list_ascii_of_string_of_list_ascii.
    apply hex_concat_digits.
  - apply hashString_injective.
  - unfold admin_form_accepts, initAdminPasswordHash. rewrite String.eqb_eq.
    apply hashString_injective.
  - reflexivity.
Qed.

(** ** Keyboard navigation *)

Ltac key_cases :=
  repeat match goal with
         | |- context [(?a <? ?b)%Z] => destruct (Z.ltb_spec a b)
         | |- context [(?a <=? ?b)%Z] => destruct (Z.leb_spec a b)
         end;
  cbn [andb]; try lia; try reflexivity; try (do 2 f_equal; lia).

Lemma arrow_down (n : nat) (active : option nat) (key : string) :
  key = "ArrowDown" \/ key = "ArrowRight" ->
  (0 < n)%nat -> (forall i, active = Some i -> (i < n)%nat) ->
  Utils.handleKeyDown key n active
  = (Some match active with
          | Some i => if decide (S i < n)%nat then S i else 0%nat
          | None => 0%nat
          end, true).
Proof.
  intros Hkey Hn Hact. unfold Utils.handleKeyDown.
  assert (E : (String.eqb key "ArrowUp" || String.eqb key "ArrowLeft")%bool = false
              /\ (String.eqb key "ArrowDown" || String.eqb key "ArrowRight")%bool = true).
  { destruct Hkey as [-> | ->]; now vm_compute. }
  destruct E as [-> ->].
  destruct active as [i|].
  - specialize (Hact i eq_refl). destruct (decide (S i < n)%nat); key_cases.
  - key_cases.
Qed.

Lemma arrow_up (n : nat) (active : option nat) (key : string) :
  key = "ArrowUp" \/ key = "ArrowLeft" ->
  (0 < n)%nat -> (forall i, active = Some i -> (i < n)%nat) ->
  Utils.handleKeyDown key n active
  = (Some match active with
          | Some (S i) => i
          | _ => (n - 1)%nat
          end, true).
Proof.
  intros Hkey Hn Hact. unfold Utils.handleKeyDown.
  assert (E : (String.eqb key "ArrowUp" || String.eqb key "ArrowLeft")%bool = true).
  { destruct Hkey as [-> | ->]; now vm_compute. }
  rewrite E.
  destruct active as [[|i]|].
  - key_cases.
  - specialize (Hact (S i) eq_refl). key_cases.
  - key_cases.
Qed.

(** X22. The key handler of [setupKeyboardNavigation], on a container
    with at least one item: the arrow keys, Home and End always move the
    focus to an item and suppress the default action.  Down and Right go to
    the next item and from the last one to the first; Up and Left go to the
    previous item and from the first one to the last; with the focus outside
    the items, Down goes to the first and Up to the last.  So Down followed
    by Up, and Up followed by Down, lead back to the item one started from.
    With no item nothing receives the focus, and any other key is left
    alone. *)
Theorem keyboard_navigation_wraps :
  (forall n active,
     (0 < n)%nat -> (forall i, active = Some i -> (i < n)%nat) ->
     let next := match active with
                 | Some i => if decide (S i < n)%nat then S i else 0%nat
                 | None => 0%nat
                 end in
     let previous := match active with
                     | Some (S i) => i
                     | _ => (n - 1)%nat
                     end in
     Utils.handleKeyDown "ArrowDown" n active = (Some next, true)
     /\ Utils.handleKeyDown "ArrowRight" n active = (Some next, true)
     /\ Utils.handleKeyDown "ArrowUp" n active = (Some previous, true)
     /\ Utils.handleKeyDown "ArrowLeft" n active = (Some previous, true)
     /\ Utils.handleKeyDown "Home" n active = (Some 0%nat, true)
     /\ Utils.handleKeyDown "End" n active = (Some (n - 1)%nat, true)
     /\ (next < n)%nat /\ (previous < n)%nat
     /\ (forall i, active = Some i ->
           Utils.handleKeyDown "ArrowUp" n (Some next) = (Some i, true)
           /\ Utils.handleKeyDown "ArrowDown" n (Some previous) = (Some i, true)))
  /\ (forall key active, fst (Utils.handleKeyDown key 0%nat active) = None)
  /\ (forall key n active,
        ~ In key ["ArrowUp"; "ArrowLeft"; "ArrowDown"; "ArrowRight"; "Home"; "End"] ->
        Utils.handleKeyDown key n active = (None, false)).
Proof.
  split; [|split].
  - intros n active Hn Hact. cbv zeta.
    assert (Hnext : (match active with
                    | Some i => if decide (S i < n)%nat then S i else 0%nat
                    | None => 0%nat
                    end < n)%nat).
    { destruct active as [i|]; [|lia]. destruct (decide (S i < n)%nat); lia. }
    assert (Hprev : (match active with Some (S i) => i | _ => n - 1 end < n)%nat).
    { destruct active as [[|i]|]; try lia. specialize (Hact (S i) eq_refl). lia. }
    split; [now apply arrow_down; auto|]. split; [now apply arrow_down; auto|].
    split; [now apply arrow_up; auto|]. split; [now apply arrow_up; auto|].
    split.
    { unfold Utils.handleKeyDown. cbn [String.eqb Ascii.eqb Bool.eqb orb]. key_cases. }
    split.
    { unfold Utils.handleKeyDown. cbn [String.eqb Ascii.eqb Bool.eqb orb]. key_cases. }
    split; [exact Hnext|]. split; [exact Hprev|].
    intros i ->. specialize (Hact i eq_refl). split.
    + rewrite (arrow_up n _ "ArrowUp") by (auto; intros j [= <-]; exact Hnext).
      do 2 f_equal. destruct (decide (S i < n)%nat); [reflexivity|lia].
    + rewrite (arrow_down n _ "ArrowDown") by (auto; intros j [= <-]; exact Hprev).
      do 2 f_equal. destruct i as [|i].
      * destruct (decide (S (n - 1) < n)%nat); [lia|reflexivity].
      * destruct (decide (S i < n)%nat); [reflexivity|lia].
  - intros key active. unfold Utils.handleKeyDown.
    destruct (String.eqb key "ArrowUp" || String.eqb key "ArrowLeft")%bool;
      [|destruct (String.eqb key "ArrowDown" || String.eqb key "ArrowRight")%bool;
        [|destruct (String.eqb key "Home"); [|destruct (String.eqb key "End")]]];
      destruct active; cbn [Z.of_nat]; key_cases.
  - intros key n active Hkey. unfold Utils.handleKeyDown.
    assert (Hne : forall k, In k ["ArrowUp"; "ArrowLeft"; "ArrowDown"; "ArrowRight"; "Home"; "End"] ->
                            String.eqb key k = false).
    { intros k Hk. apply String.eqb_neq. intros ->. now apply Hkey. }
    rewrite !Hne by (cbn; tauto). reflexivity.
Qed.

(** ** The lightbox *)

Lemma js_index_Some {A} (l : list A) (i : Z) :
  0 <= i < Z.of_nat (length l) -> exists x, js_index l i = Some x.
Proof.
  intros Hi. unfold js_index. destruct (Z.ltb_spec i 0); [lia|].
  destruct (lookup_lt_is_Some_2 l (Z.to_nat i)) as [x Hx]; [lia|]. eauto.
Qed.

Lemma js_index_range {A} (l : list A) (i : Z) (x : A) :
  js_index l i = Some x -> 0 <= i < Z.of_nat (length l).
Proof.
  unfold js_index. destruct (Z.ltb_spec i 0) as [Hneg|Hpos]; [discriminate|].
  intros Hx. apply lookup_lt_Some in Hx. lia.
Qed.

Lemma show_photo_at (st : Lightbox) (modal : bool) (photo : nat * Photo) :
  js_index (currentPhotos st) (currentLightboxIndex st) = Some photo ->
  exists st', show_photo st modal = (Resolved tt, st')
              /\ currentPhotos st' = currentPhotos st
              /\ currentLightboxIndex st' = currentLightboxIndex st
              /\ lightboxShown st' = modal
              /\ shows_current st'.
Proof.
  intros H. unfold show_photo. rewrite H. eexists. split; [reflexivity|].
  cbn. repeat split. exists photo. cbn. auto.
Qed.

Lemma photos_nonempty (st : Lightbox) :
  index_in_range st -> (length (currentPhotos st) =? 0)%nat = false.
Proof. unfold index_in_range. intros H. apply Nat.eqb_neq. lia. Qed.

Lemma shows_in_range (st : Lightbox) : shows_current st -> index_in_range st.
Proof. intros (photo & H & _). exact (js_index_range _ _ _ H). Qed.

Lemma next_step (st : Lightbox) :
  index_in_range st ->
  exists st', showNextPhoto st = (Resolved tt, st')
              /\ currentPhotos st' = currentPhotos st
              /\ currentLightboxIndex st'
                 = (currentLightboxIndex st + 1) mod Z.of_nat (length (currentPhotos st))
              /\ lightboxShown st' = lightboxShown st
              /\ shows_current st'.
Proof.
  intros Hr. pose proof Hr as Hr'. unfold index_in_range in Hr'.
  unfold showNextPhoto. rewrite (photos_nonempty st Hr). cbv zeta.
  set (n := Z.of_nat (length (currentPhotos st))) in *.
  rewrite Z.rem_mod_nonneg by lia.
  destruct (js_index_Some (currentPhotos st) ((currentLightboxIndex st + 1) mod n))
    as [photo Hp]; [apply Z.mod_pos_bound; lia|].
  destruct (show_photo_at (set_index ((currentLightboxIndex st + 1) mod n) st)
              (lightboxShown st) photo Hp) as (st' & E & H1 & H2 & H3 & H4).
  exists st'. auto.
Qed.

Lemma previous_step (st : Lightbox) :
  index_in_range st ->
  exists st', showPreviousPhoto st = (Resolved tt, st')
              /\ currentPhotos st' = currentPhotos st
              /\ currentLightboxIndex st'
                 = (currentLightboxIndex st - 1) mod Z.of_nat (length (currentPhotos st))
              /\ lightboxShown st' = lightboxShown st
              /\ shows_current st'.
Proof.
  intros Hr. pose proof Hr as Hr'. unfold index_in_range in Hr'.
  unfold showPreviousPhoto. rewrite (photos_nonempty st Hr). cbv zeta.
  set (n := Z.of_nat (length (currentPhotos st))) in *.
  rewrite Z.rem_mod_nonneg by lia.
  replace ((currentLightboxIndex st - 1 + n) mod n) with ((currentLightboxIndex st - 1) mod n)
    by (rewrite <- (Z_mod_plus_full (currentLightboxIndex st - 1) 1 n); f_equal; lia).
  destruct (js_index_Some (currentPhotos st) ((currentLightboxIndex st - 1) mod n))
    as [photo Hp]; [apply Z.mod_pos_bound; lia|].
  destruct (show_photo_at (set_index ((currentLightboxIndex st - 1) mod n) st)
              (lightboxShown st) photo Hp) as (st' & E & H1 & H2 & H3 & H4).
  exists st'. auto.
Qed.

Lemma next_steps (k : nat) (st : Lightbox) :
  index_in_range st ->
  exists st', repeated (S k) showNextPhoto st = (Resolved tt, st')
              /\ currentPhotos st' = currentPhotos st
              /\ currentLightboxIndex st'
                 = (currentLightboxIndex st + Z.of_nat (S k))
                     mod Z.of_nat (length (currentPhotos st))
              /\ shows_current st'.
Proof.
  revert st. induction k as [|k IH]; intros st Hr.
  - destruct (next_step st Hr) as (st' & E & H1 & H2 & _ & H4).
    exists st'. cbn [repeated]. rewrite (bind_run _ _ _ _ _ E). auto.
  - destruct (next_step st Hr) as (st1 & E & H1 & H2 & _ & H4).
    destruct (IH st1 (shows_in_range _ H4)) as (st' & E' & H1' & H2' & H4').
    exists st'. change (repeated (S (S k)) showNextPhoto)
      with (showNextPhoto ;;; repeated (S k) showNextPhoto).
    rewrite (bind_run _ _ _ _ _ E). split; [exact E'|]. split; [congruence|].
    split; [|exact H4']. rewrite H2', H1, H2.
    rewrite Zplus_mod_idemp_l. f_equal. lia.
Qed.

(** X23. The lightbox.  With no photo the three operations do nothing.
    With the index on one of the photos, next and previous always succeed,
    move the index by one with wrap-around at both ends, and show the image
    and the counter of the photo at the new index; previous undoes next and
    next undoes previous; and going to the next photo as many times as there
    are photos leads back to the one shown at the start.  Opening the
    lightbox at an index where there is a photo shows that photo; at any
    other index it throws, after the index has been stored. *)
Theorem lightbox_navigation (st : Lightbox) :
  (currentPhotos st = [] ->
     (forall i, openLightbox i st = (Resolved tt, st))
     /\ showNextPhoto st = (Resolved tt, st)
     /\ showPreviousPhoto st = (Resolved tt, st))
  /\ (index_in_range st ->
      exists next previous back forth round,
        showNextPhoto st = (Resolved tt, next)
        /\ showPreviousPhoto st = (Resolved tt, previous)
        /\ currentLightboxIndex next
           = (currentLightboxIndex st + 1) mod Z.of_nat (length (currentPhotos st))
        /\ currentLightboxIndex previous
           = (currentLightboxIndex st - 1) mod Z.of_nat (length (currentPhotos st))
        /\ shows_current next /\ shows_current previous
        /\ showPreviousPhoto next = (Resolved tt, back)
        /\ currentLightboxIndex back = currentLightboxIndex st
        /\ showNextPhoto previous = (Resolved tt, forth)
        /\ currentLightboxIndex forth = currentLightboxIndex st
        /\ repeated (length (currentPhotos st)) showNextPhoto st = (Resolved tt, round)
        /\ currentLightboxIndex round = currentLightboxIndex st
        /\ shows_current round)
  /\ (forall i photo,
        js_index (currentPhotos st) i = Some photo ->
        exists st', openLightbox i st = (Resolved tt, st')
                    /\ currentLightboxIndex st' = i
                    /\ lightboxShown st' = true
                    /\ shows_current st')
  /\ (forall i,
        currentPhotos st <> [] -> js_index (currentPhotos st) i = None ->
        openLightbox i st = (Rejected (TypeError "photo is undefined"), set_index i st)).
Proof.
  split; [|split; [|split]].
  - intros Hempty. unfold openLightbox, showNextPhoto, showPreviousPhoto.
    rewrite Hempty. auto.
  - intros Hr. pose proof Hr as Hr'. unfold index_in_range in Hr'.
    destruct (next_step st Hr) as (next & En & Hn1 & Hn2 & _ & Hn4).
    destruct (previous_step st Hr) as (previous & Ep & Hp1 & Hp2 & _ & Hp4).
    destruct (previous_step next (shows_in_range _ Hn4)) as (back & Eb & Hb1 & Hb2 & _ & _).
    destruct (next_step previous (shows_in_range _ Hp4)) as (forth & Ef & Hf1 & Hf2 & _ & _).
    destruct (length (currentPhotos st)) as [|k] eqn:Hlen; [lia|].
    destruct (next_steps k st Hr) as (round & Er & Hr1 & Hr2 & Hr4).
    rewrite Hlen in Hr2.
    exists next, previous, back, forth, round.
    repeat (split; [assumption|]). split.
    { rewrite Hb2, Hn1, Hn2, Hlen. rewrite Zminus_mod_idemp_l.
      replace (currentLightboxIndex st + 1 - 1) with (currentLightboxIndex st) by lia.
      apply Z.mod_small. lia. }
    split; [exact Ef|]. split.
    { rewrite Hf2, Hp1, Hp2, Hlen. rewrite Zplus_mod_idemp_l.
      replace (currentLightboxIndex st - 1 + 1) with (currentLightboxIndex st) by lia.
      apply Z.mod_small. lia. }
    split; [exact Er|]. split; [|exact Hr4].
    rewrite Hr2. replace (currentLightboxIndex st + Z.of_nat (S k))
      with (currentLightboxIndex st + 1 * Z.of_nat (S k)) by lia.
    rewrite Z_mod_plus_full. apply Z.mod_small. lia.
  - intros i photo Hp. unfold openLightbox.
    assert (Hne : (length (currentPhotos st) =? 0)%nat = false).
    { apply Nat.eqb_neq. apply js_index_range in Hp. lia. }
    rewrite Hne.
    destruct (show_photo_at (set_index i st) true photo Hp) as (st' & E & H1 & H2 & H3 & H4).
    exists st'. auto.
  - intros i Hne Hnone. unfold openLightbox.
    destruct (currentPhotos st) as [|p l] eqn:Hl; [now destruct Hne|].
    cbn [length Nat.eqb]. unfold show_photo. cbn [set_index currentPhotos currentLightboxIndex].
    rewrite Hl, Hnone. reflexivity.
Qed.

(** ** Object URLs *)

Lemma url_call_tracked (c : UrlCall) (st : Utils.ObjectURLs) :
  tracked st ⊆ Utils.live st -> tracked (url_call c st) ⊆ Utils.live (url_call c st).
Proof.
  unfold tracked. intros Hsub.
  destruct st as [lv [urls|]], c as [url|url|]; cbn in *;
    try (destruct (String.eqb url ""); cbn; [|case_bool_decide; cbn]);
    (set_unfold; firstorder (subst; auto)).
Qed.

Lemma url_call_foreign (c : UrlCall) (st : Utils.ObjectURLs) (u : string) :
  u ∈ Utils.live st -> u ∉ tracked st ->
  u ∈ Utils.live (url_call c st)
  /\ (match c with CallCreate url => url <> u | _ => True end -> u ∉ tracked (url_call c st)).
Proof.
  unfold tracked. intros Hlive Hnot.
  destruct st as [lv [urls|]], c as [url|url|]; cbn in *;
    try (destruct (String.eqb url ""); cbn; [|case_bool_decide; cbn]);
    (split; [|intros Hc]); (set_unfold; firstorder (subst; auto)).
Qed.

(** X24. The object URLs that [Utils] hands out.  Over any sequence of
    [createObjectURL], [revokeObjectURL] and [cleanupObjectURLs], every
    tracked URL is one the browser still holds, and a URL of the browser
    that [Utils] does not track is not revoked, as long as the browser does
    not hand out that same URL again.  [revokeObjectURL] of an empty or
    untracked URL does nothing; of a tracked one it revokes and forgets
    exactly that URL.  [cleanupObjectURLs] revokes exactly the tracked URLs
    and forgets them all.  Creating a fresh URL and revoking it again
    leaves the browser and [Utils] with the URLs they held before. *)
Theorem object_urls_tracked (st : Utils.ObjectURLs) :
  (forall calls,
     tracked st ⊆ Utils.live st ->
     tracked (fold_left (fun st c => url_call c st) calls st)
     ⊆ Utils.live (fold_left (fun st c => url_call c st) calls st))
  /\ (forall calls u,
        u ∈ Utils.live st -> u ∉ tracked st ->
        Forall (fun c => c <> CallCreate u) calls ->
        u ∈ Utils.live (fold_left (fun st c => url_call c st) calls st))
  /\ (forall url,
        url = "" \/ url ∉ tracked st -> Utils.revokeObjectURL url st = st)
  /\ (forall url,
        url <> "" -> url ∈ tracked st ->
        Utils.live (Utils.revokeObjectURL url st) = Utils.live st ∖ {[url]}
        /\ tracked (Utils.revokeObjectURL url st) = tracked st ∖ {[url]})
  /\ (Utils.live (Utils.cleanupObjectURLs st) = Utils.live st ∖ tracked st
      /\ tracked (Utils.cleanupObjectURLs st) = ∅)
  /\ (forall url,
        fst (Utils.createObjectURL url st) = url
        /\ url ∈ tracked (snd (Utils.createObjectURL url st))
        /\ url ∈ Utils.live (snd (Utils.createObjectURL url st))
        /\ (url <> "" -> url ∉ Utils.live st -> tracked st ⊆ Utils.live st ->
            Utils.live (Utils.revokeObjectURL url (snd (Utils.createObjectURL url st)))
            = Utils.live st
            /\ tracked (Utils.revokeObjectURL url (snd (Utils.createObjectURL url st)))
               = tracked st)).
Proof.
  split; [|split; [|split; [|split; [|split]]]].
  - intros calls. revert st. induction calls as [|c calls IH]; intros st H; [exact H|].
    cbn [fold_left]. apply IH. now apply url_call_tracked.
  - intros calls. revert st. induction calls as [|c calls IH]; intros st u Hl Ht Hc;
      [exact Hl|].
    cbn [fold_left]. apply Forall_cons in Hc as [Hc Hcs].
    destruct (url_call_foreign c st u Hl Ht) as [H1 H2].
    apply IH; [exact H1| |exact Hcs]. apply H2. destruct c; auto. congruence.
  - intros url H. unfold Utils.revokeObjectURL, tracked in *.
    destruct (Utils.objectURLs st) as [urls|]; [|reflexivity].
    destruct H as [-> | H]; [reflexivity|].
    rewrite (bool_decide_eq_false_2 _ H). now rewrite andb_false_r.
  - intros url Hne Hin. unfold Utils.revokeObjectURL, tracked in *.
    destruct (Utils.objectURLs st) as [urls|]; [|(set_unfold; firstorder (subst; auto))].
    rewrite (bool_decide_eq_true_2 _ Hin).
    apply String.eqb_neq in Hne. rewrite Hne. cbn. auto.
  - unfold Utils.cleanupObjectURLs, tracked.
    destruct st as [lv [urls|]]; cbn; split; try reflexivity.
    apply set_eq. (set_unfold; firstorder (subst; auto)).
  - intros url. unfold Utils.createObjectURL, tracked. cbn [fst snd Utils.live Utils.objectURLs].
    split; [reflexivity|]. split; [(set_unfold; firstorder (subst; auto))|]. split; [(set_unfold; firstorder (subst; auto))|].
    intros Hne Hfresh Hsub. unfold Utils.revokeObjectURL. cbn [Utils.objectURLs Utils.live].
    apply String.eqb_neq in Hne. rewrite Hne.
    rewrite bool_decide_eq_true_2 by (set_unfold; firstorder (subst; auto)). cbn.
    split; apply set_eq; destruct (Utils.objectURLs st); (set_unfold; firstorder (subst; auto)).
Qed.

(** ** The further properties on the sample states *)

Lemma delete_one_record_witness :
  faults sample_world = []
  /\ exists w', deleteVideo 1 sample_world = (Resolved tt, w')
                /\ videos_of (db w')
                   = filter (fun p => fst p <> 1%nat) (videos_of (db sample_world)).
Proof.
  split; [reflexivity|].
  destruct (proj2 (proj2 (delete_one_record 1 sample_world eq_refl))) as (w' & H1 & H2 & _).
  exists w'. split; assumption.
Defined.

Lemma import_discards_previous_witness :
  snap_version snapshot_with_stale_video = JNum version
  /\ (((exists e, fst (importAll snapshot_with_stale_video sample_world) = Rejected e)
       /\ db (snd (importAll snapshot_with_stale_video sample_world)) = db sample_world
       /\ faults sample_world <> [])
      \/ nothing_left (map fst (snap_assets snapshot_with_stale_video)) (db sample_world)
                      (db (snd (importAll snapshot_with_stale_video sample_world)))).
Proof.
  split; [reflexivity|].
  exact (import_discards_previous snapshot_with_stale_video sample_world _ _ eq_refl
           (surjective_pairing _)).
Defined.

Lemma export_contents_witness :
  faults sample_world = []
  /\ exists data w', exportAll sample_world = (Resolved data, w')
                     /\ db w' = db sample_world
                     /\ snap_albums data = albums_of (db sample_world).
Proof.
  split; [reflexivity|].
  destruct (export_contents sample_world eq_refl) as (data & w' & H1 & H2 & _ & H4 & _).
  exists data, w'. split; [exact H1|]. split; assumption.
Defined.


Lemma blob_text_of_comma_type_witness :
  comma_free (blob_type comma_typed_blob) = false
  /\ blobToBase64 comma_typed_blob = blobToBase64 (mkBlob [] (blob_type comma_typed_blob)).
Proof.
  split; [reflexivity|].
  exact (blob_text_of_comma_type comma_typed_blob [] eq_refl).
Defined.

Lemma video_id_shape_witness :
  parseVideoUrl "https://vimeo.com/897021152" = Some (mkVideoInfo vimeo "897021152" None)
  /\ vi_title (mkVideoInfo vimeo "897021152" None) = None.
Proof.
  split; [reflexivity|].
  exact (proj1 (video_id_shape "https://vimeo.com/897021152"
                  (mkVideoInfo vimeo "897021152" None) eq_refl)).
Defined.

Lemma operations_keep_consistency_witness :
  consistent (db fresh_world)
  /\ consistent (db (after_ops [OpCreateAlbum "Work"; OpAddPhoto 1 sample_photo;
                                OpAddVideo "https://youtu.be/dQw4w9WgXcQ"; OpDeleteAlbum 1]
                               fresh_world)).
Proof.
  split; [exact consistent_empty|].
  exact (proj2 (operations_keep_consistency _ fresh_world) consistent_empty).
Defined.



Lemma local_only_writes_unseen_witness :
  local_only (OpRenameAlbum 1 "Journeys") = true
  /\ syncEnabled (sample_mirror true sample_world) = true
  /\ fst (FirebaseDatabase.getAllAlbums one_album_remote
            (snd (run_mirror one_album_remote (OpRenameAlbum 1 "Journeys")
                             (sample_mirror true sample_world))))
     = fst (FirebaseDatabase.getAllAlbums one_album_remote (sample_mirror true sample_world)).
Proof.
  split; [reflexivity|]. split; [reflexivity|].
  exact (proj1 (proj2 (proj2 (proj2
           (local_only_writes_unseen one_album_remote (OpRenameAlbum 1 "Journeys")
              (sample_mirror true sample_world) eq_refl eq_refl))))
           [("a1", mkAlbumShadow "Travel" 1 1 0%nat)] tt eq_refl).
Defined.

